(** * SLIM deployment core: dependency graphs, deployment specifications,
      deployment packages and server classes.

    A shallow embedding of [slim/app/_deployment.py],
    [slim/app/_server_class.py] and [slim/app/_internal/json_data.py].

    Conventions of the embedding:
    - a Python [frozenset] of strings is a [gset string];
    - an [OrderedDict] is an association list in insertion order whose keys
      are pairwise distinct (see [Module OrderedDict]);
    - an [AppSource] object is denoted by a reference (its identity) and a
      heap that maps references to the object's fields;
    - code that may raise or loop returns an [outcome]. *)

From Stdlib Require Import Ascii.
From stdpp Require Import gmap strings list sets pretty.



(** ** Outcomes of code that may raise, or recurse without bound *)

Inductive outcome (A : Type) : Type :=
  | Ok (a : A)          (* normal return *)
  | Raise (exn : string) (* a Python exception, by class name *)
  | OutOfFuel.           (* the recursion or loop did not finish within the fuel *)
Arguments Ok {A} a.
Arguments Raise {A} exn.
Arguments OutOfFuel {A}.

#[global] Instance outcome_ret : MRet outcome := fun A a => Ok a.
#[global] Instance outcome_bind : MBind outcome := fun A B k m =>
  match m with
  | Ok a => k a
  | Raise e => Raise e
  | OutOfFuel => OutOfFuel
  end.

Definition is_ok {A} (r : outcome A) : bool :=
  match r with Ok _ => true | _ => false end.

(** ** Ordered dictionaries *)

Module OrderedDict.
Section od.
Context {K V : Type} `{EqDecision K}.

Fixpoint get (k : K) (d : list (K * V)) : option V :=
  match d with
  | [] => None
  | (k', v) :: d' => if decide (k = k') then Some v else get k d'
  end.

Definition contains (k : K) (d : list (K * V)) : bool :=
  match get k d with Some _ => true | None => false end.

(** [d[k] = v]: replaces the value in place when [k] is present and
    appends a new entry at the end otherwise. *)
Fixpoint set (k : K) (v : V) (d : list (K * V)) : list (K * V) :=
  match d with
  | [] => [(k, v)]
  | (k', v') :: d' =>
      if decide (k = k') then (k', v) :: d' else (k', v') :: set k v d'
  end.

Definition keys (d : list (K * V)) : list K := d.*1.

(** [OrderedDict(pairs)] *)
Definition of_pairs (l : list (K * V)) : list (K * V) :=
  foldl (fun d kv => set kv.1 kv.2 d) [] l.

End od.
End OrderedDict.

(** ** Input-group sets ([AppDeploymentSpecification] class attributes) *)

(** [all_input_groups = frozenset('*')] *)
Definition all_input_groups : gset string := {["*"]}.
(** [no_input_groups = frozenset()] *)
Definition no_input_groups : gset string := ∅.

(** [AppDependencyGraph._union_of] *)
Definition _union_of (fg_1 fg_2 : gset string) : gset string :=
  if bool_decide ("*" ∈ fg_1) || bool_decide ("*" ∈ fg_2)
  then all_input_groups
  else fg_1 ∪ fg_2.

(** What [InputGroupsConverter.convert_from] guarantees of the sets it
    produces: the wildcard never sits next to other names. *)
Definition normalized (fg : gset string) : Prop :=
  "*" ∈ fg → fg = all_input_groups.

(** [InputGroupsConverter.convert_from] on the list of names of a
    deployment specification. *)
Definition InputGroupsConverter_convert_from (value : list string) : gset string :=
  if bool_decide (length value = 0) then no_input_groups
  else
    let value := list_to_set value : gset string in
    if bool_decide ("*" ∈ value) then all_input_groups else value.

(** ** Version constraints

    Semantic versions and version ranges are an external collaborator of
    the core; only [range.match(version)] and the two conversions to text
    are used. *)

Class VersionConstraint := {
  Version : Type;
  VersionRange : Type;
  (** [version_range.match(version)] *)
  range_match : VersionRange → Version → bool;
  (** [string(version)] *)
  string_of_version : Version → string;
  (** [str(version_range)] *)
  string_of_range : VersionRange → string;
}.

(** ** Deployment specifications *)

Record AppDeploymentSpecification := {
  name : string;
  workload : gset string;
  (** [None] when the specification carries no [inputGroups] field *)
  inputGroups : option (gset string);
}.

(** ** App sources and manifests *)

(** The identity of an [AppSource] object. *)
Definition ref := string.

Section sources.
Context `{VersionConstraint}.

(** One entry of [manifest.dependencies]. *)
Record Dependency := {
  package : option string;
  version : VersionRange;
  optional : bool;
}.

(** One entry of [manifest.inputGroups]; [requires] is [None] when the
    group has no such attribute, and maps a dependency alias to the input
    groups of the dependency that the group needs otherwise. *)
Record InputGroup := {
  requires : option (list (string * gset string));
}.

(** A documentation entry of [manifest.info] (license, privacy policy,
    release notes). *)
Record InfoItem := {
  text : option string;
}.

Record AppManifest := {
  (** [manifest.info.id.version] *)
  info_id_version : Version;
  info_license : option InfoItem;
  info_privacyPolicy : option InfoItem;
  info_releaseNotes : option InfoItem;
  dependencies : option (list (string * Dependency));
  manifest_inputGroups : option (list (string * InputGroup));
}.

Record AppSource := {
  source_id : string;
  source_version : Version;
  source_package : string;
  directory : string;
  manifest : option AppManifest;
  (** [get_dependencies_for_target_os(target_os)]: the declared
      [(name, dependency)] pairs that apply to a target OS, in declaration
      order. *)
  get_dependencies_for_target_os : string → list (string * Dependency);
}.

(** ** Logger and payload ([SlimLogger], [slim_configuration.payload]) *)

Inductive Error :=
  (** 'Dependency graph for <root> is cyclic.' *)
  | ErrCyclic (root_id : string)
  (** 'Dependency graph for <root> is conflicted.' *)
  | ErrConflicted (root_id : string)
  (** 'Expected to find static dependency <package>' *)
  | ErrExpectedStatic (package : string)
  (** '<app>: Packaged version of dependency <name> is outside range ...' *)
  | ErrOutsideRange (app_id name : string) (dependency_source : ref)
  (** '<app>: Version <v> was selected, but version <range> is required by
      <dependent>' *)
  | ErrVersionSelected (app : ref) (dependent : ref)
  (** '<app> cannot be uninstalled because it is still required by these
      apps: ...' *)
  | ErrStillRequired (app_id : string) (dependents : list string).

Inductive Warning :=
  | WarnSkipOptional (name : string)
  | WarnSkipDynamic (name : string)
  | WarnNotInstalled (app_id : string).

Inductive SlimStatus :=
  | STATUS_OK
  | STATUS_ERROR_MISSING_DEPENDENCIES
  | STATUS_ERROR_DEPENDENCY_REQUIRED.

(** The process-wide mutable state the core writes to, together with the
    [_dependencies] attribute that graph construction stores on the app
    sources it visits. *)
Record World := {
  errors : list Error;
  warnings : list Warning;
  missing_dependencies : list string;
  missing_optional_dependencies : list string;
  dependency_requirements : list string;
  status : SlimStatus;
  source_dependencies : gmap ref (list (Dependency * ref));
}.

Definition log_error (e : Error) (w : World) : World :=
  {| errors := errors w ++ [e]; warnings := warnings w;
     missing_dependencies := missing_dependencies w;
     missing_optional_dependencies := missing_optional_dependencies w;
     dependency_requirements := dependency_requirements w;
     status := status w; source_dependencies := source_dependencies w |}.

Definition log_warning (x : Warning) (w : World) : World :=
  {| errors := errors w; warnings := warnings w ++ [x];
     missing_dependencies := missing_dependencies w;
     missing_optional_dependencies := missing_optional_dependencies w;
     dependency_requirements := dependency_requirements w;
     status := status w; source_dependencies := source_dependencies w |}.

Definition add_missing_dependency (n : string) (w : World) : World :=
  {| errors := errors w; warnings := warnings w;
     missing_dependencies := missing_dependencies w ++ [n];
     missing_optional_dependencies := missing_optional_dependencies w;
     dependency_requirements := dependency_requirements w;
     status := status w; source_dependencies := source_dependencies w |}.

Definition add_missing_optional_dependency (n : string) (w : World) : World :=
  {| errors := errors w; warnings := warnings w;
     missing_dependencies := missing_dependencies w;
     missing_optional_dependencies := missing_optional_dependencies w ++ [n];
     dependency_requirements := dependency_requirements w;
     status := status w; source_dependencies := source_dependencies w |}.

Definition set_dependency_requirements (l : list string) (w : World) : World :=
  {| errors := errors w; warnings := warnings w;
     missing_dependencies := missing_dependencies w;
     missing_optional_dependencies := missing_optional_dependencies w;
     dependency_requirements := l;
     status := status w; source_dependencies := source_dependencies w |}.

Definition set_status (st : SlimStatus) (w : World) : World :=
  {| errors := errors w; warnings := warnings w;
     missing_dependencies := missing_dependencies w;
     missing_optional_dependencies := missing_optional_dependencies w;
     dependency_requirements := dependency_requirements w;
     status := st; source_dependencies := source_dependencies w |}.

(** [app_source._dependencies = app_dependencies] *)
Definition set_source_dependencies (r : ref) (l : list (Dependency * ref))
    (w : World) : World :=
  {| errors := errors w; warnings := warnings w;
     missing_dependencies := missing_dependencies w;
     missing_optional_dependencies := missing_optional_dependencies w;
     dependency_requirements := dependency_requirements w;
     status := status w;
     source_dependencies := <[r := l]> (source_dependencies w) |}.

Definition empty_world : World :=
  {| errors := []; warnings := []; missing_dependencies := [];
     missing_optional_dependencies := []; dependency_requirements := [];
     status := STATUS_OK; source_dependencies := ∅ |}.

(** ** The dependency graph object *)

Record AppDependencyGraph := {
  _root : ref;
  _description : option string;
  (** [OrderedDict] from a source to the [OrderedSet] of its dependencies *)
  _graph : list (ref * list ref);
  (** [OrderedDict] from a source to the deque of
      [(dependency, dependent source)] pairs *)
  _dependents : list (ref * list (Dependency * ref));
  _installed_packages : option (gmap string string);
  _dependency_sources : gmap string ref;
  _repository_sources : gmap string ref;
  _target_os : string;
}.

Definition with_graph (g : list (ref * list ref)) (G : AppDependencyGraph) :=
  {| _root := _root G; _description := _description G; _graph := g;
     _dependents := _dependents G;
     _installed_packages := _installed_packages G;
     _dependency_sources := _dependency_sources G;
     _repository_sources := _repository_sources G;
     _target_os := _target_os G |}.

Definition with_dependents (d : list (ref * list (Dependency * ref)))
    (G : AppDependencyGraph) :=
  {| _root := _root G; _description := _description G; _graph := _graph G;
     _dependents := d;
     _installed_packages := _installed_packages G;
     _dependency_sources := _dependency_sources G;
     _repository_sources := _repository_sources G;
     _target_os := _target_os G |}.

Definition with_repository_sources (m : gmap string ref)
    (G : AppDependencyGraph) :=
  {| _root := _root G; _description := _description G; _graph := _graph G;
     _dependents := _dependents G;
     _installed_packages := _installed_packages G;
     _dependency_sources := _dependency_sources G;
     _repository_sources := m;
     _target_os := _target_os G |}.

Definition with_description (d : option string) (G : AppDependencyGraph) :=
  {| _root := _root G; _description := d; _graph := _graph G;
     _dependents := _dependents G;
     _installed_packages := _installed_packages G;
     _dependency_sources := _dependency_sources G;
     _repository_sources := _repository_sources G;
     _target_os := _target_os G |}.

End sources.

(** ** [AppDependencyGraph]: cycle detection *)

(** The two sets the nested function [visit] of [_is_cyclic] closes over. *)
Record dfs_state := {
  visited : gset ref;
  graph_path : gset ref;
}.

(** The [for neighbour in graph.get(app_source, ())] loop of [visit]; its
    result is [true] when the loop returned [True] and [false] when it ran
    to its end. *)
Fixpoint visit_neighbours (visit : ref → dfs_state → outcome (bool * dfs_state))
    (neighbours : list ref) (st : dfs_state) : outcome (bool * dfs_state) :=
  match neighbours with
  | [] => Ok (false, st)
  | neighbour :: rest =>
      if bool_decide (neighbour ∈ graph_path st) then Ok (true, st)
      else
        '(found, st) ← visit neighbour st;
        if found : bool then Ok (true, st)
        else visit_neighbours visit rest st
  end.

Fixpoint visit (fuel : nat) (graph : list (ref * list ref)) (app_source : ref)
    (st : dfs_state) : outcome (bool * dfs_state) :=
  match fuel with
  | O => OutOfFuel
  | S fuel =>
      if bool_decide (app_source ∈ visited st) then Ok (false, st)
      else
        let st := {| visited := {[app_source]} ∪ visited st;
                     graph_path := {[app_source]} ∪ graph_path st |} in
        '(found, st) ← visit_neighbours (visit fuel graph)
                          (default [] (OrderedDict.get app_source graph)) st;
        if found : bool then Ok (true, st)
        else if bool_decide (app_source ∈ graph_path st)
        then Ok (false, {| visited := visited st;
                           graph_path := graph_path st ∖ {[app_source]} |})
        else Raise "KeyError"
  end.

(** [any(visit(app_source) for app_source in graph)] *)
Fixpoint any_visit (fuel : nat) (graph : list (ref * list ref))
    (sources : list ref) (st : dfs_state) : outcome bool :=
  match sources with
  | [] => Ok false
  | app_source :: rest =>
      '(found, st) ← visit fuel graph app_source st;
      if found : bool then Ok true else any_visit fuel graph rest st
  end.

Definition _is_cyclic (fuel : nat) (graph : list (ref * list ref)) : outcome bool :=
  any_visit fuel graph (OrderedDict.keys graph)
    {| visited := ∅; graph_path := ∅ |}.

(** Every source the adjacency mapping mentions, as a key or as a
    neighbour. *)
Definition graph_nodes (graph : list (ref * list ref)) : gset ref :=
  list_to_set (OrderedDict.keys graph) ∪ list_to_set (mjoin graph.*2).

(** The recursion of [visit] is at most as deep as there are sources. *)
Definition cyclic_fuel (graph : list (ref * list ref)) : nat :=
  S (size (graph_nodes graph)).

(** An edge of the adjacency mapping. *)
Definition edge (graph : list (ref * list ref)) (a b : ref) : Prop :=
  ∃ neighbours, OrderedDict.get a graph = Some neighbours ∧ b ∈ neighbours.

(** The adjacency mapping has a cycle: some source reaches itself along
    one or more edges. *)
Definition cyclic (graph : list (ref * list ref)) : Prop :=
  ∃ a, tc (edge graph) a a.

(** ** Invariants of the cycle detection *)

(** Sources whose call of [visit] returned [False]. *)
Definition finished (st : dfs_state) : gset ref := visited st ∖ graph_path st.

(** The finished sources are closed under the edges and none of them lies
    on a cycle. *)
Definition dfs_inv (graph : list (ref * list ref)) (st : dfs_state) : Prop :=
  graph_path st ⊆ visited st ∧
  (∀ u v, u ∈ finished st → edge graph u v → v ∈ finished st) ∧
  (∀ u, u ∈ finished st → ¬ tc (edge graph) u u).

(** When [visit] is entered on [s]: [s] is not on the recursion path and
    every source on the path reaches [s]. *)
Definition visit_pre (graph : list (ref * list ref)) (fuel : nat)
    (st : dfs_state) (s : ref) : Prop :=
  s ∈ graph_nodes graph ∧ s ∉ graph_path st ∧ dfs_inv graph st ∧
  (∀ p, p ∈ graph_path st → rtc (edge graph) p s) ∧
  size (graph_nodes graph ∖ visited st) < fuel.

Definition visit_post (graph : list (ref * list ref)) (st : dfs_state)
    (s : ref) (r : outcome (bool * dfs_state)) : Prop :=
  ∃ b st', r = Ok (b, st') ∧
    if b : bool then cyclic graph
    else dfs_inv graph st' ∧ graph_path st' = graph_path st ∧
         visited st ⊆ visited st' ∧ s ∈ visited st'.

(** ** Python helpers *)

Definition nl : string := String (Ascii.ascii_of_nat 10) EmptyString.

(** [s * n] on strings *)
Fixpoint string_repeat (s : string) (n : nat) : string :=
  match n with
  | O => EmptyString
  | S n => s +:+ string_repeat s n
  end.

(** Truth value of a string: the empty string is false. *)
Definition truthy (s : string) : bool := negb (String.eqb s EmptyString).

Fixpoint foldlM {A B} (f : B → A → outcome B) (b : B) (l : list A) : outcome B :=
  match l with
  | [] => Ok b
  | a :: l => b ← f b a; foldlM f b l
  end.

(** [deque.pop()]: removes and returns the rightmost element. *)
Definition deque_pop {A} (q : list A) : option (A * list A) :=
  match reverse q with
  | [] => None
  | x :: r => Some (x, reverse r)
  end.

(** [deque.extendleft(xs)]: pushes the elements of [xs] on the left, one
    after the other. *)
Definition deque_extendleft {A} (q xs : list A) : list A := reverse xs ++ q.

(** Modelled from the spec: [OrderedSet] of [slim/app/_internal], the
    "ordered set of dependency AppSources": the elements in the order of
    their first occurrence. *)
Definition OrderedSet (l : list ref) : list ref :=
  foldl (fun acc x => if bool_decide (x ∈ acc) then acc else acc ++ [x]) [] l.

(** ** [AppDependencyGraph]: construction *)

Section construction.
Context `{VersionConstraint} (heap : ref → AppSource).

(** [self._installed_packages and self._installed_packages.get(name)],
    when it is true. *)
Definition installed_package (installed : option (gmap string string))
    (dependency_name : string) : option string :=
  match installed with
  | None => None
  | Some m =>
      if bool_decide (m = ∅) then None
      else match m !! dependency_name with
           | Some p => if truthy p then Some p else None
           | None => None
           end
  end.

(** The package that the first two branches of [_get_dependencies] choose
    for a declared dependency, if any. *)
Definition select_package (installed : option (gmap string string))
    (dependency_name : string) (dependency : Dependency) : option string :=
  match package dependency with
  | Some p =>
      if truthy p then Some p else installed_package installed dependency_name
  | None => installed_package installed dependency_name
  end.

(** [dependency_sources[package]], falling back on
    [repository_sources[package]]. *)
Definition lookup_source (dependency_sources repository_sources : gmap string ref)
    (p : string) : option ref :=
  match dependency_sources !! p with
  | Some ds => Some ds
  | None => repository_sources !! p
  end.

(** The body of the loop of [_get_dependencies]; the state is the deque
    [dependencies], [self._repository_sources] and the world. *)
Definition _get_dependencies_step (G : AppDependencyGraph) (app_source : ref)
    (acc : list (Dependency * ref) * gmap string ref * World)
    (declaration : string * Dependency)
    : list (Dependency * ref) * gmap string ref * World :=
  let '(dependencies, repository_sources, W) := acc in
  let '(dependency_name, dependency) := declaration in
  match select_package (_installed_packages G) dependency_name dependency with
  | None =>
      if optional dependency then
        (dependencies, repository_sources,
         add_missing_optional_dependency dependency_name
           (log_warning (WarnSkipOptional dependency_name) W))
      else
        (dependencies, repository_sources,
         set_status STATUS_ERROR_MISSING_DEPENDENCIES
           (add_missing_dependency dependency_name
              (log_warning (WarnSkipDynamic dependency_name) W)))
  | Some p =>
      match lookup_source (_dependency_sources G) repository_sources p with
      | None =>
          (dependencies, repository_sources,
           set_status STATUS_ERROR_MISSING_DEPENDENCIES
             (add_missing_dependency dependency_name
                (log_error (ErrExpectedStatic p) W)))
      | Some dependency_source =>
          let repository_sources := <[p := dependency_source]> repository_sources in
          match manifest (heap dependency_source) with
          | None => (dependencies, repository_sources, W)
          | Some dependency_manifest =>
              let W :=
                if range_match (version dependency)
                     (info_id_version dependency_manifest)
                then W
                else log_error (ErrOutsideRange (source_id (heap app_source))
                                  dependency_name dependency_source) W in
              (dependencies ++ [(dependency, dependency_source)],
               repository_sources, W)
          end
      end
  end.

Definition _get_dependencies (G : AppDependencyGraph) (W : World)
    (app_source : ref)
    : outcome (list (Dependency * ref) * gmap string ref * World) :=
  match manifest (heap app_source) with
  | None => Raise "AttributeError"
  | Some m =>
      match dependencies m with
      | None => Ok ([], _repository_sources G, W)
      | Some _ =>
          Ok (foldl (_get_dependencies_step G app_source)
                ([], _repository_sources G, W)
                (get_dependencies_for_target_os (heap app_source) (_target_os G)))
      end
  end.

(** The loop of [_add_source] that records the dependents of the
    dependencies of [app_source]. *)
Definition add_dependents (app_source : ref)
    (app_dependents : list (ref * list (Dependency * ref)))
    (app_dependencies : list (Dependency * ref))
    : list (ref * list (Dependency * ref)) :=
  foldl (fun app_dependents '(app_dependency, app_dependency_source) =>
           let dependents :=
             default [] (OrderedDict.get app_dependency_source app_dependents) in
           OrderedDict.set app_dependency_source
             (dependents ++ [(app_dependency, app_source)]) app_dependents)
        app_dependents app_dependencies.

(** The [while] loop of [_add_source]. *)
Fixpoint _add_source_loop (fuel : nat) (queue : list ref)
    (G : AppDependencyGraph) (W : World) : outcome (AppDependencyGraph * World) :=
  match fuel with
  | O => OutOfFuel
  | S fuel =>
      match deque_pop queue with
      | None => Ok (G, W)
      | Some (app_source, queue) =>
          if OrderedDict.contains app_source (_graph G)
          then _add_source_loop fuel queue G W
          else
            '(app_dependencies, repository_sources, W) ←
              _get_dependencies G W app_source;
            let W := set_source_dependencies app_source app_dependencies W in
            let app_dependents :=
              add_dependents app_source (_dependents G) app_dependencies in
            let dependency_sources := app_dependencies.*2 in
            let G :=
              with_graph
                (OrderedDict.set app_source (OrderedSet dependency_sources)
                   (_graph G))
                (with_dependents app_dependents
                   (with_repository_sources repository_sources G)) in
            _add_source_loop fuel (deque_extendleft queue dependency_sources) G W
      end
  end.

Definition _add_source (fuel : nat) (app_source : ref)
    (G : AppDependencyGraph) (W : World) : outcome (AppDependencyGraph * World) :=
  _add_source_loop fuel [app_source] G W.

(** The inner loop of [_check_dependencies]. *)
Definition check_dependents (app_source : ref) (v : Version) (W : World)
    (dependents : list (Dependency * ref)) : World :=
  foldl (fun W '(dependency, dependent_source) =>
           if range_match (version dependency) v then W
           else log_error (ErrVersionSelected app_source dependent_source) W)
        W dependents.

(** [_check_dependencies]; the method has no [return] statement, so its
    value is [None] and only the world changes. *)
Definition _check_dependencies (G : AppDependencyGraph) (W : World)
    : outcome World :=
  foldlM (fun W '(app_source, dependents) =>
            match manifest (heap app_source) with
            | None => Raise "AttributeError"
            | Some m => Ok (check_dependents app_source (info_id_version m) W dependents)
            end)
         W (_dependents G).

(** [AppDependencyGraph.__init__]. [repository_sources] is the value of
    [app_source.populate_dependency_sources(...)] and [dependency_sources]
    that of [app_source.dependency_sources]. Since [_check_dependencies]
    returns [None], the 'is conflicted' branch is never taken. *)
Definition AppDependencyGraph_init (fuel : nat) (app_source : ref)
    (dependency_sources repository_sources : gmap string ref)
    (installed_packages : option (gmap string string)) (target_os : string)
    (W : World) : outcome (AppDependencyGraph * World) :=
  let G := {| _root := app_source; _description := None; _graph := [];
              _dependents := []; _installed_packages := installed_packages;
              _dependency_sources := dependency_sources;
              _repository_sources := repository_sources;
              _target_os := target_os |} in
  '(G, W) ← _add_source fuel app_source G W;
  is_cyclic ← _is_cyclic (cyclic_fuel (_graph G)) (_graph G);
  if is_cyclic : bool
  then Ok (G, log_error (ErrCyclic (source_id (heap (_root G)))) W)
  else
    W ← _check_dependencies G W;
    Ok (G, W).

(** ** [AppDependencyGraph]: description *)

(** [app_source.dependencies]: the [_dependencies] attribute that
    [_add_source] stored on the source. *)
Definition source_dependencies_of (W : World) (app_source : ref)
    : outcome (list (Dependency * ref)) :=
  match source_dependencies W !! app_source with
  | Some l => Ok l
  | None => Raise "AttributeError"
  end.

(** The line [_describe] writes for one dependency at [level]. *)
Definition dependency_line (level : nat) (app_dependency : Dependency)
    (app_dependency_source : ref) : string :=
  "|" +:+ string_repeat "   " level +:+
  "|-- " +:+ source_id (heap app_dependency_source) +:+
  "@" +:+ string_of_version (source_version (heap app_dependency_source)) +:+
  " (accepting " +:+ string_of_range (version app_dependency) +:+ ")" +:+ nl.

(** The [for] loop of [_describe]. *)
Fixpoint _describe_loop (describe : ref → nat → outcome string) (level : nat)
    (app_dependencies : list (Dependency * ref)) (graph_output : string)
    : outcome string :=
  match app_dependencies with
  | [] => Ok graph_output
  | (app_dependency, app_dependency_source) :: rest =>
      let graph_output :=
        graph_output +:+ dependency_line level app_dependency app_dependency_source in
      sub ← describe app_dependency_source (level + 1);
      _describe_loop describe level rest (graph_output +:+ sub)
  end.

Fixpoint _describe (fuel : nat) (W : World) (app_source : ref) (level : nat)
    : outcome string :=
  match fuel with
  | O => OutOfFuel
  | S fuel =>
      let graph_output :=
        if bool_decide (level = 1)
        then "|-- " +:+ source_id (heap app_source) +:+ "@" +:+
             string_of_version (source_version (heap app_source)) +:+ nl
        else EmptyString in
      app_dependencies ← source_dependencies_of W app_source;
      _describe_loop (_describe fuel W) level app_dependencies graph_output
  end.

(** The [description] property: computed on first use and stored in
    [self._description]. *)
Definition description (fuel : nat) (G : AppDependencyGraph) (W : World)
    : outcome (string * AppDependencyGraph) :=
  match _description G with
  | Some d => Ok (d, G)
  | None =>
      d ← _describe fuel W (_root G) 1;
      Ok (d, with_description (Some d) G)
  end.

End construction.

(** ** [AppDependencyGraph]: deployment specifications *)

Section specifications.
Context `{VersionConstraint} (heap : ref → AppSource).

(** The body of [for alias in aliases] in
    [_get_deployment_specifications]. *)
Definition add_requirement (G : AppDependencyGraph) (app_source : ref)
    (declared : option (list (string * Dependency)))
    (group_requires : list (string * gset string))
    (requirements : gmap ref (gset string)) (alias : string)
    : outcome (gmap ref (gset string)) :=
  requirement ← match OrderedDict.get alias group_requires with
                | Some r => Ok r
                | None => Raise "KeyError"
                end;
  dependency ← match declared with
               | None => Raise "TypeError"
               | Some ds => match OrderedDict.get alias ds with
                            | Some d => Ok d
                            | None => Raise "KeyError"
                            end
               end;
  dependency_source ← match package dependency with
                      | None => Raise "KeyError"
                      | Some p => match _repository_sources G !! p with
                                  | Some ds => Ok ds
                                  | None => Raise "KeyError"
                                  end
                      end;
  neighbours ← match OrderedDict.get app_source (_graph G) with
               | Some ns => Ok ns
               | None => Raise "KeyError"
               end;
  if bool_decide (dependency_source ∈ neighbours)
  then Ok (<[dependency_source :=
               _union_of (default no_input_groups (requirements !! dependency_source))
                         requirement]> requirements)
  else Raise "AssertionError".

(** The body of [for name in deployment_specification.inputGroups]. *)
Definition add_group_requirements (G : AppDependencyGraph) (app_source : ref)
    (declared : option (list (string * Dependency)))
    (input_groups : list (string * InputGroup))
    (requirements : gmap ref (gset string)) (group_name : string)
    : outcome (gmap ref (gset string)) :=
  match OrderedDict.get group_name input_groups with
  | None => Ok requirements
  | Some group =>
      match requires group with
      | None => Ok requirements
      | Some aliases =>
          foldlM (add_requirement G app_source declared aliases) requirements
                 (OrderedDict.keys aliases)
      end
  end.

(** The dictionary [requirements] that [_get_deployment_specifications]
    builds for [app_source]. The names of the specification's input
    groups are visited in the order [elements] lists them; a [frozenset]
    promises no order. *)
Definition requirements_of (G : AppDependencyGraph) (app_source : ref)
    (deployment_specification : AppDeploymentSpecification)
    : outcome (gmap ref (gset string)) :=
  match manifest (heap app_source) with
  | None => Raise "AttributeError"
  | Some m =>
      match manifest_inputGroups m with
      | None => Ok ∅
      | Some input_groups =>
          match inputGroups deployment_specification with
          | None => Raise "TypeError"
          | Some names =>
              foldlM (add_group_requirements G app_source (dependencies m)
                        input_groups) ∅ (elements names)
          end
      end
  end.

(** The deployment specification handed to a dependency. *)
Definition dependency_specification
    (deployment_specification : AppDeploymentSpecification)
    (requirements : gmap ref (gset string)) (dependency_source : ref)
    (result : list (ref * AppDeploymentSpecification))
    : outcome AppDeploymentSpecification :=
  let input_groups := default no_input_groups (requirements !! dependency_source) in
  input_groups ←
    match OrderedDict.get dependency_source result with
    | Some previous =>
        match inputGroups previous with
        | Some groups => Ok (_union_of groups input_groups)
        | None => Raise "TypeError"
        end
    | None => Ok input_groups
    end;
  Ok {| name := name deployment_specification;
        workload := workload deployment_specification;
        inputGroups := Some input_groups |}.

(** The second loop of [_get_deployment_specifications]. *)
Fixpoint specifications_loop
    (recurse : ref → AppDeploymentSpecification →
               list (ref * AppDeploymentSpecification) →
               outcome (list (ref * AppDeploymentSpecification)))
    (deployment_specification : AppDeploymentSpecification)
    (requirements : gmap ref (gset string))
    (app_dependencies : list (Dependency * ref))
    (result : list (ref * AppDeploymentSpecification))
    : outcome (list (ref * AppDeploymentSpecification)) :=
  match app_dependencies with
  | [] => Ok result
  | (_, dependency_source) :: rest =>
      dependency_deployment_specification ←
        dependency_specification deployment_specification requirements
          dependency_source result;
      result ← recurse dependency_source dependency_deployment_specification result;
      specifications_loop recurse deployment_specification requirements rest result
  end.

Fixpoint _get_deployment_specifications (fuel : nat) (G : AppDependencyGraph)
    (W : World) (app_source : ref)
    (deployment_specification : AppDeploymentSpecification)
    (result : list (ref * AppDeploymentSpecification))
    : outcome (list (ref * AppDeploymentSpecification)) :=
  match fuel with
  | O => OutOfFuel
  | S fuel =>
      let result := OrderedDict.set app_source deployment_specification result in
      requirements ← requirements_of G app_source deployment_specification;
      app_dependencies ← source_dependencies_of W app_source;
      specifications_loop (_get_deployment_specifications fuel G W)
        deployment_specification requirements app_dependencies result
  end.

Definition get_deployment_specifications (fuel : nat) (G : AppDependencyGraph)
    (W : World) (deployment_specification : AppDeploymentSpecification)
    : outcome (list (ref * AppDeploymentSpecification)) :=
  match inputGroups deployment_specification with
  | None =>
      Ok (OrderedDict.of_pairs
            ((fun source => (source, deployment_specification)) <$>
               OrderedDict.keys (_graph G)))
  | Some input_groups =>
      if bool_decide (input_groups = all_input_groups)
      then Ok (OrderedDict.of_pairs
                 ((fun source => (source, deployment_specification)) <$>
                    OrderedDict.keys (_graph G)))
      else _get_deployment_specifications fuel G W (_root G)
             deployment_specification []
  end.

(** *** The calls of [_get_deployment_specifications]

    The same recursion, recording next to [result] every call as the pair
    of its [app_source] and [deployment_specification], in call order. *)

Definition traced : Type :=
  list (ref * AppDeploymentSpecification) * list (ref * AppDeploymentSpecification).

Fixpoint specifications_loop_traced
    (recurse : ref → AppDeploymentSpecification → traced → outcome traced)
    (deployment_specification : AppDeploymentSpecification)
    (requirements : gmap ref (gset string))
    (app_dependencies : list (Dependency * ref))
    (state : traced) : outcome traced :=
  match app_dependencies with
  | [] => Ok state
  | (_, dependency_source) :: rest =>
      dependency_deployment_specification ←
        dependency_specification deployment_specification requirements
          dependency_source state.1;
      state ← recurse dependency_source dependency_deployment_specification state;
      specifications_loop_traced recurse deployment_specification requirements
        rest state
  end.

Fixpoint _get_deployment_specifications_traced (fuel : nat)
    (G : AppDependencyGraph) (W : World) (app_source : ref)
    (deployment_specification : AppDeploymentSpecification)
    (state : traced) : outcome traced :=
  match fuel with
  | O => OutOfFuel
  | S fuel =>
      let state :=
        (OrderedDict.set app_source deployment_specification state.1,
         state.2 ++ [(app_source, deployment_specification)]) in
      requirements ← requirements_of G app_source deployment_specification;
      app_dependencies ← source_dependencies_of W app_source;
      specifications_loop_traced (_get_deployment_specifications_traced fuel G W)
        deployment_specification requirements app_dependencies state
  end.

(** The input group [group_name] of [app_source] declares, through its
    [requires] clause, that it needs the dependency [dependency_source]:
    one of the aliases of the clause names a declared dependency whose
    package is that of [dependency_source]. *)
Definition declares_required (G : AppDependencyGraph) (app_source : ref)
    (group_name : string) (dependency_source : ref) : bool :=
  match manifest (heap app_source) with
  | None => false
  | Some m =>
      match manifest_inputGroups m, dependencies m with
      | Some input_groups, Some declared =>
          match OrderedDict.get group_name input_groups with
          | None => false
          | Some group =>
              match requires group with
              | None => false
              | Some aliases =>
                  existsb
                    (fun alias =>
                       match OrderedDict.get alias declared with
                       | None => false
                       | Some dependency =>
                           match package dependency with
                           | None => false
                           | Some p =>
                               bool_decide (_repository_sources G !! p
                                            = Some dependency_source)
                           end
                       end)
                    (OrderedDict.keys aliases)
              end
          end
      | _, _ => false
      end
  end.

(** [dependency_source] is required by an input group that is active in
    one of the calls: a group of the call's source that the call's
    specification names. *)
Definition required_in_calls (G : AppDependencyGraph)
    (calls : list (ref * AppDeploymentSpecification))
    (dependency_source : ref) : bool :=
  existsb
    (fun '(app_source, deployment_specification) =>
       match inputGroups deployment_specification with
       | None => false
       | Some names =>
           existsb
             (fun group_name =>
                declares_required G app_source group_name dependency_source)
             (elements names)
       end)
    calls.

(** The invariant of the recursion: a source other than the root that no
    recorded call requires holds no input groups. *)
Definition specifications_inv (G : AppDependencyGraph) (state : traced) : Prop :=
  ∀ d specification,
    d ≠ _root G →
    OrderedDict.get d state.1 = Some specification →
    required_in_calls G state.2 d = false →
    inputGroups specification = Some no_input_groups.

(** Forgetting the recorded calls. *)
Definition erase_calls (r : outcome traced)
    : outcome (list (ref * AppDeploymentSpecification)) :=
  state ← r; Ok state.1.

(** The adjacency that the [_dependencies] attributes describe, and a rank
    that decreases along it: such a rank exists exactly when the
    dependencies are acyclic. *)
Definition ranked (W : World) (rank : ref → nat) : Prop :=
  ∀ a l dependency d,
    source_dependencies W !! a = Some l → (dependency, d) ∈ l → rank d < rank a.

End specifications.

Section specification_invariants.
Context `{VersionConstraint} (heap : ref → AppSource).

(** Every entry of [requirements] stems from an input group that the
    specification names and whose [requires] clause declares the entry's
    source. *)
Definition requirements_sound (G : AppDependencyGraph) (a : ref)
    (spec : AppDeploymentSpecification) (req : gmap ref (gset string)) : Prop :=
  ∀ d x, req !! d = Some x →
    ∃ names group_name, inputGroups spec = Some names ∧ group_name ∈ names ∧
      declares_required heap G a group_name d = true.

(** What a call of [_get_deployment_specifications] keeps: the invariant,
    provided the specification it is handed is empty for a source that no
    call requires; and the calls it adds start with itself. *)
Definition call_post (G : AppDependencyGraph) (a : ref)
    (spec : AppDeploymentSpecification) (st : traced) (r : outcome traced) : Prop :=
  ∀ st', r = Ok st' →
    specifications_inv heap G st →
    (a ≠ _root G →
     required_in_calls heap G (st.2 ++ [(a, spec)]) a = false →
     inputGroups spec = Some no_input_groups) →
    specifications_inv heap G st' ∧ ∃ more, st'.2 = st.2 ++ [(a, spec)] ++ more.

End specification_invariants.

(** ** [AppDeploymentPackage]: asset exclusion rules *)

(** A component of an exclusion pattern: a glob for [fnmatch], or the
    method [_exclude_conf_spec]. *)
Inductive pattern_part :=
  | Glob (pattern : string)
  | ExcludeConfSpec.

(** [AppDeploymentPackage._exclusion_rule] *)
Definition _exclusion_rule : list (list pattern_part * gset string) :=
  [ ([Glob "app.manifest"], {["forwarder"; "indexer"; "searchHead"]});
    ([Glob "appserver"], {["forwarder"; "indexer"]});
    ([Glob "lookups"], {["forwarder"; "indexer"]});
    ([Glob "static"], {["forwarder"; "indexer"]});
    ([Glob "default"; Glob "data"], {["forwarder"; "indexer"]});
    ([Glob "default"; Glob "*.conf"], {["forwarder"; "indexer"; "searchHead"]});
    ([Glob "local"; Glob "*.conf"], {["forwarder"; "indexer"; "searchHead"]});
    ([Glob "metadata"; Glob "local.meta"], {["forwarder"; "indexer"; "searchHead"]});
    ([Glob "README"; ExcludeConfSpec], {["forwarder"; "indexer"; "searchHead"]}) ].

(** The loop of [AppDeploymentPackage.__init__] that gathers the exclusion
    patterns that apply to the workload of the deployment specification. *)
Definition gather_exclusion_patterns
    (rules : list (list pattern_part * gset string)) (workload : gset string)
    : list (list pattern_part) :=
  foldl (fun exclusion_patterns '(pattern, excluded_roles) =>
           if bool_decide (size (workload ∖ excluded_roles) = 0)
           then exclusion_patterns ++ [pattern]
           else exclusion_patterns)
        [] rules.

(** ** Server classes *)

(** An installation of an app in a server class; [dependents] lists the
    ids of the installed apps that depend on it. *)
Record AppInstallation := {
  installation_id : string;
  dependents : list string;
}.

Record AppServerClass := {
  server_class_name : string;
  server_class_workload : gset string;
  (** the [AppInstallationGraph], from app id to installation *)
  apps : list (string * AppInstallation);
}.

Section server_class.
Context `{VersionConstraint}.
(** [AppInstallationGraph.remove_installation], of [slim/app/_installation.py],
    is a parameter of the embedding. *)
Variable remove_installation :
  AppInstallation → list (string * AppInstallation) → list (string * AppInstallation).

(** [AppServerClass.remove_app] *)
Definition AppServerClass_remove_app (self : AppServerClass) (W : World)
    (app_id : string) : AppServerClass * World :=
  match OrderedDict.get app_id (apps self) with
  | None => (self, W)
  | Some installation =>
      if bool_decide (0 < length (dependents installation)) then
        (self,
         set_status STATUS_ERROR_DEPENDENCY_REQUIRED
           (set_dependency_requirements (dependents installation)
              (log_error (ErrStillRequired app_id (dependents installation)) W)))
      else
        ({| server_class_name := server_class_name self;
            server_class_workload := server_class_workload self;
            apps := remove_installation installation (apps self) |}, W)
  end.

(** The body of the loop of [AppServerClassCollection.remove_app]; the
    state is the collection, the world and [app_found]. *)
Definition remove_app_step (app_id : string)
    (state : list (string * AppServerClass) * World * bool)
    (server_class_name : string)
    : outcome (list (string * AppServerClass) * World * bool) :=
  let '(collection, W, app_found) := state in
  match OrderedDict.get server_class_name collection with
  | None => Raise "KeyError"
  | Some server_class =>
      if OrderedDict.contains app_id (apps server_class) then
        let '(server_class, W) := AppServerClass_remove_app server_class W app_id in
        Ok (OrderedDict.set server_class_name server_class collection, W, true)
      else Ok (collection, W, app_found)
  end.

(** [AppServerClassCollection.remove_app] *)
Definition AppServerClassCollection_remove_app
    (collection : list (string * AppServerClass)) (W : World)
    (app_id : string) (server_classes : list string)
    : outcome (list (string * AppServerClass) * World) :=
  '(collection, W, app_found) ←
    foldlM (remove_app_step app_id) (collection, W, false) server_classes;
  Ok (collection,
      if app_found : bool then W else log_warning (WarnNotInstalled app_id) W).

End server_class.

(** ** The dependency tree that [description] draws *)

(** [''.join(lines)] *)
Definition string_concat (lines : list string) : string :=
  foldr String.append EmptyString lines.

Section tree.
Context `{VersionConstraint} (heap : ref → AppSource).

(** The line for the root. *)
Definition root_line (app_source : ref) : string :=
  "|-- " +:+ source_id (heap app_source) +:+ "@" +:+
  string_of_version (source_version (heap app_source)) +:+ nl.

(** What a line says of a dependency: [name@version (accepting range)]. *)
Definition dependency_label (app_dependency : Dependency)
    (app_dependency_source : ref) : string :=
  source_id (heap app_dependency_source) +:+
  "@" +:+ string_of_version (source_version (heap app_dependency_source)) +:+
  " (accepting " +:+ string_of_range (version app_dependency) +:+ ")" +:+ nl.

(** The line of a dependency at depth [level] as the code writes it: one
    bar, three spaces for each level, and the marker. *)
Definition entry_line (entry : nat * Dependency * ref) : string :=
  "|" +:+ string_repeat "   " entry.1.1 +:+ "|-- " +:+
  dependency_label entry.1.2 entry.2.

(** The line of a dependency at depth [level] with one ['|   '] unit for
    each level before the marker. *)
Definition entry_line_stated (entry : nat * Dependency * ref) : string :=
  string_repeat "|   " entry.1.1 +:+ "|-- " +:+
  dependency_label entry.1.2 entry.2.

(** The dependency edges below [app_source], depth first and in the order
    of declaration, each with its depth; an edge that several paths reach
    is listed once for every path. *)
Fixpoint entries_loop (recurse : ref → nat → outcome (list (nat * Dependency * ref)))
    (level : nat) (app_dependencies : list (Dependency * ref))
    : outcome (list (nat * Dependency * ref)) :=
  match app_dependencies with
  | [] => Ok []
  | (app_dependency, app_dependency_source) :: rest =>
      below ← recurse app_dependency_source (level + 1);
      others ← entries_loop recurse level rest;
      Ok ((level, app_dependency, app_dependency_source) :: below ++ others)
  end.

Fixpoint dependency_entries (fuel : nat) (W : World) (app_source : ref)
    (level : nat) : outcome (list (nat * Dependency * ref)) :=
  match fuel with
  | O => OutOfFuel
  | S fuel =>
      app_dependencies ← source_dependencies_of W app_source;
      entries_loop (dependency_entries fuel W) level app_dependencies
  end.

End tree.

(** A check of [ranked] that computes. *)
Definition rankedb `{VersionConstraint} (W : World) (rank : ref → nat) : bool :=
  forallb (fun entry : ref * list (Dependency * ref) =>
             forallb (fun e : Dependency * ref => rank e.2 <? rank entry.1) entry.2)
          (map_to_list (source_dependencies W)).

(** ** What graph construction resolves *)

Section resolution.
Context `{VersionConstraint} (heap : ref → AppSource).

(** The graph object as [__init__] sets it up, before [_add_source]. *)
Definition initial_graph (app_source : ref)
    (dependency_sources repository_sources : gmap string ref)
    (installed_packages : option (gmap string string)) (target_os : string)
    : AppDependencyGraph :=
  {| _root := app_source; _description := None; _graph := [];
     _dependents := []; _installed_packages := installed_packages;
     _dependency_sources := dependency_sources;
     _repository_sources := repository_sources;
     _target_os := target_os |}.

(** The declarations that [_get_dependencies] walks for a source. *)
Definition declared_dependencies (G : AppDependencyGraph) (a : ref)
    : list (string * Dependency) :=
  match manifest (heap a) with
  | None => []
  | Some m =>
      match dependencies m with
      | None => []
      | Some _ => get_dependencies_for_target_os (heap a) (_target_os G)
      end
  end.

(** The source that a declaration resolves to: the package is the one the
    manifest pins or, failing that, the one the installed-packages index
    gives for the name; it is looked up among the sources, and the source
    found counts when it has a manifest. *)
Definition resolve_declaration (G : AppDependencyGraph)
    (declaration : string * Dependency) : option (Dependency * ref) :=
  p ← select_package (_installed_packages G) declaration.1 declaration.2;
  d ← lookup_source (_dependency_sources G) (_repository_sources G) p;
  _ ← manifest (heap d);
  Some (declaration.2, d).

Definition resolved_dependencies (G : AppDependencyGraph) (a : ref)
    : list (Dependency * ref) :=
  omap (resolve_declaration G) (declared_dependencies G a).

(** [a] has a resolved dependency on [d]. *)
Definition depends_on (G : AppDependencyGraph) (a d : ref) : Prop :=
  d ∈ (resolved_dependencies G a).*2.

(** [a] declares a static dependency, one whose package the manifest pins,
    that resolves to [d]. *)
Definition static_dependency (G : AppDependencyGraph) (a d : ref) : Prop :=
  ∃ dependency_name dependency p,
    (dependency_name, dependency) ∈ declared_dependencies G a ∧
    package dependency = Some p ∧ truthy p = true ∧
    resolve_declaration G (dependency_name, dependency) = Some (dependency, d).

(** Every package that the construction selects for a declaration of a
    source reachable from the root is found among the sources. *)
Definition resolvable (G : AppDependencyGraph) : Prop :=
  ∀ a dependency_name dependency p,
    rtc (depends_on G) (_root G) a →
    (dependency_name, dependency) ∈ declared_dependencies G a →
    select_package (_installed_packages G) dependency_name dependency = Some p →
    is_Some (lookup_source (_dependency_sources G) (_repository_sources G) p).

(** Every declared static dependency of a source reachable from the root
    is found among the sources. *)
Definition static_resolvable (G : AppDependencyGraph) : Prop :=
  ∀ a dependency_name dependency p,
    rtc (depends_on G) (_root G) a →
    (dependency_name, dependency) ∈ declared_dependencies G a →
    package dependency = Some p → truthy p = true →
    is_Some (lookup_source (_dependency_sources G) (_repository_sources G) p).

(** Every declared version range matches the version of the source the
    declaration resolves to. *)
Definition versions_match (G : AppDependencyGraph) : Prop :=
  ∀ a dependency d m,
    rtc (depends_on G) (_root G) a →
    (dependency, d) ∈ resolved_dependencies G a →
    manifest (heap d) = Some m →
    range_match (version dependency) (info_id_version m) = true.

(** No source reachable from the root depends on itself, directly or
    through other sources. *)
Definition acyclic (G : AppDependencyGraph) : Prop :=
  ∀ a, rtc (depends_on G) (_root G) a → ¬ tc (depends_on G) a a.

(** The sources that the construction can meet. *)
Definition candidates (G : AppDependencyGraph) : list ref :=
  elements ({[_root G]} ∪ map_img (_dependency_sources G)
            ∪ map_img (_repository_sources G) : gset ref).

Definition weight (G : AppDependencyGraph) (a : ref) : nat :=
  2 + length (declared_dependencies G a).

(** Candidates that are not yet in the graph. *)
Definition remaining (G0 : AppDependencyGraph) (graph : list (ref * list ref))
    : list ref :=
  filter (fun a => a ∉ OrderedDict.keys graph) (candidates G0).

(** A bound on the iterations that are left to the loop of [_add_source]. *)
Definition iterations_left (G0 : AppDependencyGraph)
    (graph : list (ref * list ref)) (queue : list ref) : nat :=
  sum_list (weight G0 <$> remaining G0 graph) + length queue.

(** Fuel that lets the loop of [_add_source] run to its end. *)
Definition construction_fuel (G0 : AppDependencyGraph) : nat :=
  S (iterations_left G0 [] [_root G0]).

(** The configuration of the graph object that the loop leaves alone;
    [_repository_sources] grows, but never changes what a package
    resolves to. *)
Definition same_configuration (G0 G : AppDependencyGraph) : Prop :=
  _root G = _root G0 ∧
  _installed_packages G = _installed_packages G0 ∧
  _dependency_sources G = _dependency_sources G0 ∧
  _target_os G = _target_os G0 ∧
  ∀ p, lookup_source (_dependency_sources G0) (_repository_sources G) p
       = lookup_source (_dependency_sources G0) (_repository_sources G0) p.

(** The invariant of the loop of [_add_source]. *)
Definition add_source_inv (G0 : AppDependencyGraph) (errors0 : list Error)
    (queue : list ref) (G : AppDependencyGraph) (W : World) : Prop :=
  same_configuration G0 G ∧
  NoDup (OrderedDict.keys (_graph G)) ∧
  (∀ k, k ∈ OrderedDict.keys (_graph G) → rtc (depends_on G0) (_root G0) k) ∧
  (∀ q, q ∈ queue → rtc (depends_on G0) (_root G0) q) ∧
  (∀ a, a ∈ OrderedDict.keys (_graph G) →
        OrderedDict.get a (_graph G)
        = Some (OrderedSet (resolved_dependencies G0 a).*2) ∧
        source_dependencies W !! a = Some (resolved_dependencies G0 a)) ∧
  (∀ a d, a ∈ OrderedDict.keys (_graph G) → depends_on G0 a d →
          d ∈ OrderedDict.keys (_graph G) ∨ d ∈ queue) ∧
  (_root G0 ∈ OrderedDict.keys (_graph G) ∨ _root G0 ∈ queue) ∧
  errors W = errors0 ∧
  (∀ d l, (d, l) ∈ _dependents G →
          is_Some (manifest (heap d)) ∧
          ∀ dependency a, (dependency, a) ∈ l →
            rtc (depends_on G0) (_root G0) a ∧
            (dependency, d) ∈ resolved_dependencies G0 a).

(** Checks of the hypotheses of the construction theorem that compute,
    over a list [nodes] of sources that holds the root and every resolved
    dependency of its members. *)
Definition closed_check (G : AppDependencyGraph) (nodes : list ref) : bool :=
  bool_decide (_root G ∈ nodes) &&
  forallb (fun a => forallb (fun d => bool_decide (d ∈ nodes))
                            (resolved_dependencies G a).*2) nodes.

Definition resolvable_check (G : AppDependencyGraph) (nodes : list ref) : bool :=
  forallb (fun a =>
             forallb (fun declaration : string * Dependency =>
                        match select_package (_installed_packages G)
                                declaration.1 declaration.2 with
                        | None => true
                        | Some p =>
                            match lookup_source (_dependency_sources G)
                                    (_repository_sources G) p with
                            | Some _ => true
                            | None => false
                            end
                        end)
                     (declared_dependencies G a)) nodes.

Definition versions_match_check (G : AppDependencyGraph) (nodes : list ref)
    : bool :=
  forallb (fun a =>
             forallb (fun e : Dependency * ref =>
                        match manifest (heap e.2) with
                        | None => true
                        | Some m => range_match (version e.1) (info_id_version m)
                        end)
                     (resolved_dependencies G a)) nodes.

Definition acyclic_check (G : AppDependencyGraph) (nodes : list ref)
    (rank : ref → nat) : bool :=
  forallb (fun a => forallb (fun d => rank d <? rank a)
                            (resolved_dependencies G a).*2) nodes.

End resolution.

(** ** Paths ([posixpath] of Python's standard library) *)

Definition is_slash (c : ascii) : bool := bool_decide (c = "/"%char).

Definition chars (s : string) : list ascii := String.list_ascii_of_string s.
Definition text_of (l : list ascii) : string := String.string_of_list_ascii l.

(** [s.startswith(prefix)] *)
Definition startswith (s prefix : string) : bool := String.prefix prefix s.

(** [s.endswith('/')] *)
Definition endswith_slash (s : string) : bool :=
  match last (chars s) with
  | Some c => is_slash c
  | None => false
  end.

(** [posixpath.join(a, b)] *)
Definition path_join2 (a b : string) : string :=
  if startswith b "/" then b
  else if bool_decide (a = EmptyString) || endswith_slash a then a +:+ b
  else a +:+ "/" +:+ b.

(** [posixpath.join(a, *p)] *)
Definition path_join (a : string) (p : list string) : string :=
  foldl path_join2 a p.

(** [l.lstrip('/')] on the characters of a string. *)
Fixpoint lstrip_slashes (l : list ascii) : list ascii :=
  match l with
  | [] => []
  | c :: r => if is_slash c then lstrip_slashes r else l
  end.

(** On the reversed path: drops the characters after the last slash. *)
Fixpoint drop_to_slash (l : list ascii) : list ascii :=
  match l with
  | [] => []
  | c :: r => if is_slash c then l else drop_to_slash r
  end.

(** [posixpath.dirname(p)]: the part up to the last slash, without its
    trailing slashes unless it consists of slashes only. *)
Definition path_dirname (p : string) : string :=
  let head := drop_to_slash (reverse (chars p)) in
  match lstrip_slashes head with
  | [] => text_of (reverse head)
  | stripped => text_of (reverse stripped)
  end.

(** [s.split('/')] on the characters of a string; [current] holds the
    component being read, reversed. *)
Fixpoint split_slash (l current : list ascii) : list string :=
  match l with
  | [] => [text_of (reverse current)]
  | c :: r =>
      if is_slash c then text_of (reverse current) :: split_slash r []
      else split_slash r (c :: current)
  end.

(** The loop of [posixpath.normpath] over the components; [new_comps] is
    kept reversed. *)
Definition normpath_step (initial_slashes : nat) (new_comps : list string)
    (comp : string) : list string :=
  if bool_decide (comp = EmptyString) || bool_decide (comp = ".") then new_comps
  else if negb (bool_decide (comp = ".."))
          || (bool_decide (initial_slashes = 0)
              && bool_decide (new_comps = []))
          || match new_comps with
             | top :: _ => bool_decide (top = "..")
             | [] => false
             end
  then comp :: new_comps
  else match new_comps with
       | _ :: rest => rest
       | [] => []
       end.

(** ['/'.join(comps)] *)
Fixpoint join_slash (comps : list string) : string :=
  match comps with
  | [] => EmptyString
  | [c] => c
  | c :: rest => c +:+ "/" +:+ join_slash rest
  end.

(** [posixpath.normpath(path)] *)
Definition path_normpath (path : string) : string :=
  if bool_decide (path = EmptyString) then "."
  else
    let initial_slashes :=
      if startswith path "//" && negb (startswith path "///") then 2
      else if startswith path "/" then 1 else 0 in
    let comps :=
      reverse (foldl (normpath_step initial_slashes) [] (split_slash (chars path) [])) in
    let path := string_repeat "/" initial_slashes +:+ join_slash comps in
    if bool_decide (path = EmptyString) then "." else path.

(** ** [AppDeploymentPackage]: detecting an empty app *)

Section empty.
Context `{VersionConstraint} (heap : ref → AppSource).

(** The [while] loop of [_detect_is_empty] over a documentation file and
    the directories that hold it. *)
Fixpoint add_directory_chain (fuel : nat) (app_root filename : string)
    (empty_set : gset string) : outcome (gset string) :=
  match fuel with
  | O => OutOfFuel
  | S fuel =>
      if bool_decide (0 < String.length filename) then
        add_directory_chain fuel app_root (path_dirname filename)
          ({[path_normpath (path_join app_root [filename])]} ∪ empty_set)
      else Ok empty_set
  end.

(** The body of the loop over [license], [privacyPolicy] and
    [releaseNotes]. *)
Definition add_documentation (fuel : nat) (app_root : string)
    (empty_set : gset string) (item : option InfoItem) : outcome (gset string) :=
  match item with
  | None => Ok empty_set
  | Some item =>
      match text item with
      | None => Ok empty_set
      | Some t => add_directory_chain fuel app_root (path_normpath t) empty_set
      end
  end.

(** [AppDeploymentPackage._detect_is_empty]; only the number of
    configurations and the presence of [app] among them matter. *)
Definition _detect_is_empty {V} (fuel : nat) (app_source : ref)
    (asset_filenames : gset string) (configurations : list (string * V))
    : outcome bool :=
  if bool_decide (length configurations = 0)
     || (bool_decide (length configurations = 1)
         && OrderedDict.contains "app" configurations)
  then
    if bool_decide (size asset_filenames = 0) then Ok true
    else
      match manifest (heap app_source) with
      | None => Raise "AttributeError"
      | Some m =>
          let app_root := directory (heap app_source) in
          let empty_set : gset string :=
            {[path_join app_root ["metadata"];
              path_join app_root ["metadata"; "default.meta"]]} in
          let app_bin := path_join app_root ["bin"] in
          let empty_set :=
            empty_set
            ∪ filter (fun asset_file => startswith asset_file app_bin = true)
                     asset_filenames in
          empty_set ←
            foldlM (add_documentation fuel app_root) empty_set
              [info_license m; info_privacyPolicy m; info_releaseNotes m];
          Ok (bool_decide (asset_filenames ⊆ empty_set))
      end
  else Ok false.

End empty.

(** A path is relative when it does not start with a slash. *)
Definition relative (p : string) : Prop := startswith p "/" = false.

(** A file and the directories that hold it, innermost first, as
    [posixpath.dirname] lists them; [n] bounds their number. *)
Fixpoint ancestors (n : nat) (filename : string) : list string :=
  match n with
  | O => []
  | S n =>
      if bool_decide (0 < String.length filename)
      then filename :: ancestors n (path_dirname filename)
      else []
  end.

(** The entries that [_detect_is_empty] tolerates for a documentation
    item of the manifest: the file and the directories that hold it, under
    the root of the app. *)
Definition documentation_files `{VersionConstraint} (app_root : string)
    (item : option InfoItem) : list string :=
  match item with
  | None => []
  | Some item =>
      match text item with
      | None => []
      | Some t =>
          (fun filename => path_normpath (path_join app_root [filename]))
            <$> ancestors (String.length (path_normpath t)) (path_normpath t)
      end
  end.

(** ** Deployment specifications of an installation action

    [AppDeploymentSpecification.get_deployment_specifications] completes
    the list of deployment specifications that an action names. The list is
    updated in place and returned; the errors that [SlimLogger.error]
    reports for duplicate names are returned beside it, as the list of the
    names reported. *)

(** [del deployment_specifications[index]] *)
Definition list_del {A} (index : nat) (l : list A) : outcome (list A) :=
  if bool_decide (index < length l) then Ok (delete index l)
  else Raise "IndexError".

(** The body of the loop that gathers the specifications to combine: the
    state is [(input_groups, remove_list)]. *)
Definition combine_step (st : gset string * list nat)
    (entry : nat * AppDeploymentSpecification) : gset string * list nat :=
  let '(input_groups, remove_list) := st in
  let '(index, deployment_specification) := entry in
  if bool_decide (workload deployment_specification ##
                  ({[ "searchHead"; "indexer" ]} : gset string))
  then st
  else
    match inputGroups deployment_specification with
    | None => st
    | Some groups => (input_groups ∪ groups, remove_list ++ [index])
    end.

Definition search_head_indexers (input_groups : gset string)
    : AppDeploymentSpecification :=
  if bool_decide (size input_groups = 0)
  then {| name := "_search_head_indexers";
          workload := {[ "searchHead"; "indexer" ]};
          inputGroups := None |}
  else {| name := "_search_head_indexers";
          workload := {[ "searchHead"; "indexer"; "forwarder" ]};
          inputGroups := Some input_groups |}.

(** The body of the loop over the given specifications when workloads are
    kept apart; [None] is the [update_list] after [break]. *)
Definition update_step (update_list : option (gset string))
    (deployment_specification : AppDeploymentSpecification)
    : option (gset string) :=
  match update_list with
  | None => None
  | Some update_list =>
      let workload := workload deployment_specification ∩ update_list in
      let count := size workload in
      if bool_decide (count = 0) then Some update_list
      else if bool_decide (count = size update_list) then None
      else Some (update_list ∖ workload)
  end.

Definition workload_specifications (update_list : option (gset string))
    : list AppDeploymentSpecification :=
  match update_list with
  | None => []
  | Some update_list =>
      (if bool_decide ("searchHead" ∈ update_list)
       then [{| name := "_search_heads"; workload := {[ "searchHead" ]};
                inputGroups := None |}]
       else []) ++
      (if bool_decide ("indexer" ∈ update_list)
       then [{| name := "_indexers"; workload := {[ "indexer" ]};
                inputGroups := None |}]
       else []) ++
      (if bool_decide ("forwarder" ∈ update_list)
       then [{| name := "_forwarders"; workload := {[ "forwarder" ]};
                inputGroups := None |}]
       else [])
  end.

(** The loop over the final list: the state is the set [name_clashes] and
    the names reported so far. *)
Definition name_clash_step (st : gset string * list string)
    (deployment_specification : AppDeploymentSpecification)
    : gset string * list string :=
  let '(name_clashes, reported) := st in
  let name := name deployment_specification in
  (name_clashes ∪ {[ name ]},
   if bool_decide (name ∈ name_clashes) then reported ++ [name] else reported).

Definition AppDeploymentSpecification_get_deployment_specifications
    (deployment_specifications : list AppDeploymentSpecification)
    (combine_search_head_indexer_workloads : bool)
    (forwarder_deployment_specifications : option (list AppDeploymentSpecification))
    : outcome (list AppDeploymentSpecification * list string) :=
  deployment_specifications ←
    (if combine_search_head_indexer_workloads then
       if bool_decide (length deployment_specifications = 0) then
         Ok (deployment_specifications ++
             [{| name := "_search_head_indexers";
                 workload := {[ "searchHead"; "indexer" ]};
                 inputGroups := None |};
              {| name := "_forwarders"; workload := {[ "forwarder" ]};
                 inputGroups := None |}])
       else
         let '(input_groups, remove_list) :=
           foldl combine_step (∅, []) (imap pair deployment_specifications) in
         deployment_specifications ←
           foldlM (fun l index => list_del index l) deployment_specifications
             remove_list;
         Ok (deployment_specifications ++ [search_head_indexers input_groups])
     else
       let update_list :=
         if bool_decide (length deployment_specifications = 0) &&
            bool_decide (forwarder_deployment_specifications = None)
         then Some {[ "searchHead"; "indexer"; "forwarder" ]}
         else foldl update_step (Some {[ "searchHead"; "indexer" ]})
                deployment_specifications in
       let deployment_specifications :=
         deployment_specifications ++ workload_specifications update_list in
       Ok (match forwarder_deployment_specifications with
           | None => deployment_specifications
           | Some forwarders => deployment_specifications ++ forwarders
           end));
  Ok (deployment_specifications,
      (foldl name_clash_step (∅, []) deployment_specifications).2).

(** A specification that the combining loop takes up. *)
Definition combinable (s : AppDeploymentSpecification) : Prop :=
  ¬ workload s ## ({[ "searchHead"; "indexer" ]} : gset string) ∧
  is_Some (inputGroups s).

#[global] Instance combinable_dec s : Decision (combinable s).
Proof. unfold combinable. apply _. Defined.

(** ** JSON data: validation and conversion against a schema

    The values are those of a decoded JSON text, and the frozensets that
    the converters of deployment specifications make of them. Numbers are
    integers here. A [dict] is an association list in insertion order, with
    pairwise distinct keys; the elements of a frozenset are listed once
    each. *)
Inductive value : Type :=
  | VNone
  | VBool (b : bool)
  | VNumber (n : Z)
  | VString (s : string)
  | VList (l : list value)
  | VDict (d : list (string * value))
  | VFrozenset (l : list value).

(** The elements that iterating over a value yields: the characters of a
    string, the keys of a [dict]; [None] when the value is not iterable. *)
Definition iterate (v : value) : option (list value) :=
  match v with
  | VString s => Some ((fun c => VString (String c EmptyString)) <$> chars s)
  | VList l => Some l
  | VDict d => Some (VString <$> d.*1)
  | VFrozenset l => Some l
  | VNone | VBool _ | VNumber _ => None
  end.

(** [isinstance(value, Iterable)] *)
Definition is_iterable (v : value) : bool :=
  match iterate v with Some _ => true | None => false end.

(** [value.get(field_name)] on a [dict] *)
Definition dict_get (field_name : string) (d : list (string * value)) : value :=
  default VNone (OrderedDict.get field_name d).

(** [JsonDataTypeConverter.convert_from]; the converters do not look at
    the data type they are given. *)
Definition JsonDataTypeConverter := value → outcome value.

(** [JsonValue], over the type of its [data_type]; a [JsonField] is a
    [JsonValue] under the name that keys it in the fields of its object. *)
Record JsonValueOf (T : Type) := {
  data_type : T;
  converter : option JsonDataTypeConverter;
  default_value : value;
  required : bool;
}.
Arguments data_type {T} _.
Arguments converter {T} _.
Arguments default_value {T} _.
Arguments required {T} _.

Inductive JsonDataType : Type :=
  | JsonBoolean
  | JsonNumber
  | JsonString
  | JsonArray (definition : JsonValueOf JsonDataType)
  (** [fields] is [None] when the object is declared without fields,
      [any] when it is declared without the keyword [any] *)
  | JsonObject (fields : option (list (string * JsonValueOf JsonDataType)))
      (any : option (JsonValueOf JsonDataType)).

Definition JsonValue := JsonValueOf JsonDataType.

(** The property [name] of a data type *)
Fixpoint type_name (self : JsonDataType) : string :=
  match self with
  | JsonBoolean => "Boolean"
  | JsonNumber => "Number"
  | JsonString => "String"
  | JsonArray definition => "Array of " +:+ type_name (data_type definition)
  | JsonObject _ _ => "Object"
  end.

Fixpoint is_instance (self : JsonDataType) (v : value) : bool :=
  match self with
  | JsonBoolean => match v with VBool _ => true | _ => false end
  | JsonNumber => match v with VNumber _ => true | _ => false end
  | JsonString => match v with VString _ => true | _ => false end
  | JsonArray definition => is_iterable v || is_instance (data_type definition) v
  | JsonObject _ _ => match v with VDict _ => true | _ => false end
  end.

(** What is handed to [onerror]: the arguments of each of its calls. *)
Inductive message : Type :=
  (** ['A value of type ', type, ' is required for ', name] *)
  | RequiredValue (type name : string)
  (** ['Expected ', type, ' value for ', name, ', not ' + string(value)] *)
  | ExpectedValue (type name : string) (v : value)
  (** ['Illegal field name: ', name, '.', field_name] *)
  | IllegalFieldName (name field_name : string)
  (** [name, ': ', error], the error by the name of its class *)
  | ConversionError (name error : string).

Section json_data.
(** [onerror] is any callable: it acts on a state of the caller's and may
    raise. *)
Context {State : Type}.
Variable onerror : message → State → outcome State.
(** [name.format(i)] for a name that ends in ['[{0}]'], and
    [type(value)(elements)], the value's own type made of converted
    elements: these are Python's. *)
Variable str_format : string → nat → outcome string.
Variable rebuild : value → list value → outcome value.

(** [JsonDataType.validate], which [JsonArray] and [JsonObject] call as
    [super().validate] *)
Definition base_validate (self : JsonDataType) (name : string) (v : value)
    (st : State) : outcome (bool * State) :=
  if is_instance self v then Ok (true, st)
  else
    st ← onerror (ExpectedValue (type_name self) name v) st;
    Ok (false, st).

(** [JsonValue.validate], over the [validate] of data types *)
Definition JsonValue_validate_with
    (validate : JsonDataType → string → value → State → outcome (bool * State))
    (self : JsonValue) (name : string) (v : value) (st : State)
    : outcome (bool * State) :=
  match v with
  | VNone =>
      if required self then
        st ← onerror (RequiredValue (type_name (data_type self)) name) st;
        Ok (false, st)
      else Ok (true, st)
  | _ => validate (data_type self) name v st
  end.

(** [error_count += <validation> is False], for the validations of a loop;
    the state is [(error_count, st)]. *)
Definition count_errors {A} (validation : A → State → outcome (bool * State))
    (acc : nat * State) (a : A) : outcome (nat * State) :=
  '(b, st) ← validation a acc.2;
  Ok (acc.1 + (if b : bool then 0 else 1), st).

Fixpoint validate (self : JsonDataType) (name : string) (v : value) (st : State)
    {struct self} : outcome (bool * State) :=
  match self with
  | JsonBoolean | JsonNumber | JsonString => base_validate self name v st
  | JsonArray definition =>
      '(ok, st) ← base_validate self name v st;
      if negb ok then Ok (false, st)
      else if is_instance self v then
        match iterate v with
        | None => Raise "TypeError"
        | Some elements =>
            '(error_count, st) ←
              foldlM (count_errors (fun '(i, element) =>
                        JsonValue_validate_with validate definition
                          (name +:+ "[" +:+ pretty (i : nat) +:+ "]") element))
                (0, st) (imap pair elements);
            Ok (bool_decide (error_count = 0), st)
        end
      else JsonValue_validate_with validate definition name v st
  | JsonObject fields extra =>
      '(ok, st) ← base_validate self name v st;
      if negb ok then Ok (false, st)
      else
        match v with
        | VDict d =>
            match fields, extra with
            | None, None => Ok (true, st)
            | None, Some extra =>
                '(error_count, st) ←
                  foldlM (count_errors (fun field_name =>
                            JsonValue_validate_with validate extra
                              (name +:+ "." +:+ field_name) (dict_get field_name d)))
                    (0, st) d.*1;
                Ok (bool_decide (error_count = 0), st)
            | Some fields, _ =>
                '(error_count, st) ←
                  foldlM (count_errors (fun '(field_name, field_definition) =>
                            JsonValue_validate_with validate field_definition
                              (name +:+ "." +:+ field_name) (dict_get field_name d)))
                    (0, st) fields;
                '(error_count, st) ←
                  match extra with
                  | None =>
                      foldlM (fun '(error_count, st) field_name =>
                                if OrderedDict.contains field_name fields
                                then Ok (error_count, st)
                                else
                                  st ← onerror (IllegalFieldName name field_name) st;
                                  Ok (error_count + 1, st))
                        (error_count, st) d.*1
                  | Some extra =>
                      foldlM (fun acc field_name =>
                                if OrderedDict.contains field_name fields
                                then Ok acc
                                else
                                  count_errors (fun field_name =>
                                    JsonValue_validate_with validate extra
                                      (name +:+ "." +:+ field_name)
                                      (dict_get field_name d)) acc field_name)
                        (error_count, st) d.*1
                  end;
                Ok (bool_decide (error_count = 0), st)
            end
        | _ => Raise "AttributeError"
        end
  end.

(** [try: value = converter.convert_from(self, value)] with the handler of
    [TypeError] and [ValueError], which reports the error and falls back
    on [fallback]. *)
Definition try_convert (convert : JsonDataTypeConverter) (name : string)
    (v fallback : value) (st : State) : outcome (value * State) :=
  match convert v with
  | Ok v => Ok (v, st)
  | Raise error =>
      if bool_decide (error = "TypeError" ∨ error = "ValueError") then
        st ← onerror (ConversionError name error) st;
        Ok (fallback, st)
      else Raise error
  | OutOfFuel => OutOfFuel
  end.

(** [JsonValue.convert_from], over the [convert_from] of data types *)
Definition JsonValue_convert_from_with
    (convert_from : JsonDataType → string → value → option JsonDataTypeConverter →
                    value → State → outcome (value * State))
    (self : JsonValue) (name : string) (v : value) (st : State)
    : outcome (value * State) :=
  match v with
  | VNone =>
      st ← (if required self
            then onerror (RequiredValue (type_name (data_type self)) name) st
            else Ok st);
      Ok (default_value self, st)
  | _ => convert_from (data_type self) name v (converter self) (default_value self) st
  end.

(** [value[field_name] = definition.convert_from(name + '.' + field_name,
    value.get(field_name), onerror)]; the state is [(value, st)]. *)
Definition convert_field
    (convert_from : JsonDataType → string → value → option JsonDataTypeConverter →
                    value → State → outcome (value * State))
    (name : string) (acc : list (string * value) * State)
    (field_name : string) (definition : JsonValue)
    : outcome (list (string * value) * State) :=
  '(e, st) ← JsonValue_convert_from_with convert_from definition
              (name +:+ "." +:+ field_name) (dict_get field_name acc.1) acc.2;
  Ok (OrderedDict.set field_name e acc.1, st).

Fixpoint convert_from (self : JsonDataType) (name : string) (v : value)
    (converter : option JsonDataTypeConverter) (default : value) (st : State)
    {struct self} : outcome (value * State) :=
  match self with
  | JsonBoolean | JsonNumber | JsonString =>
      '(ok, st) ← validate self name v st;
      if negb ok then Ok (default, st)
      else
        match converter with
        (* [JsonString] returns [string(value)], of a string *)
        | None => Ok (v, st)
        | Some convert => try_convert convert name v default st
        end
  | JsonArray definition =>
      '(ok, st) ← validate self name v st;
      if negb ok then Ok (default, st)
      else
        '(v, st) ←
          (if is_instance (data_type definition) v then
             '(e, st) ← JsonValue_convert_from_with convert_from definition name v st;
             Ok (VList [e], st)
           else
             let name := name +:+ "[{0}]" in
             match iterate v with
             | None => Raise "TypeError"
             | Some elements =>
                 '(converted, st) ←
                   foldlM (fun acc '(i, element) =>
                             name_i ← str_format name i;
                             '(e, st) ← JsonValue_convert_from_with convert_from
                                         definition name_i element acc.2;
                             Ok (acc.1 ++ [e], st))
                     ([], st) (imap pair elements);
                 match v with
                 | VList _ => Ok (VList converted, st)
                 | _ => v ← rebuild v converted; Ok (v, st)
                 end
             end);
        match converter with
        | None => Ok (v, st)
        | Some convert => v ← convert v; Ok (v, st)
        end
  | JsonObject fields field_pack =>
      '(ok, st) ← base_validate self name v st;
      if negb ok then Ok (default, st)
      else
        match v with
        | VDict d =>
            '(d, st) ←
              match fields, field_pack with
              | None, None => Ok (d, st)
              | None, Some field_pack =>
                  foldlM (fun acc field_name =>
                            convert_field convert_from name acc field_name field_pack)
                    (d, st) d.*1
              | Some fields, _ =>
                  '(d, st) ←
                    foldlM (fun acc '(field_name, definition) =>
                              convert_field convert_from name acc field_name definition)
                      (d, st) fields;
                  match field_pack with
                  | None => Ok (d, st)
                  | Some field_pack =>
                      foldlM (fun acc field_name =>
                                if OrderedDict.contains field_name fields then Ok acc
                                else convert_field convert_from name acc field_name
                                       field_pack)
                        (d, st) d.*1
                  end
              end;
            match converter with
            | None => Ok (VDict d, st)
            | Some convert => try_convert convert name (VDict d) VNone st
            end
        (* not reached: a value that passed is a [dict] *)
        | _ => Raise "AttributeError"
        end
  end.

Definition JsonValue_validate := JsonValue_validate_with validate.
Definition JsonValue_convert_from := JsonValue_convert_from_with convert_from.

(** [JsonSchema.convert_from] with the given [onerror] *)
Definition JsonSchema_convert_from (name : string) (definition : JsonValue)
    (v : value) (st : State) : outcome (value * State) :=
  '(_, st) ← JsonValue_validate definition name v st;
  JsonValue_convert_from definition name v st.

End json_data.

(** An [onerror] that keeps the messages, in the order of the calls. *)
Definition log_message (m : message) (st : list message)
    : outcome (list message) :=
  Ok (st ++ [m]).

(** A validation that either returns, having reported what it rejects and
    nothing else, or raises [TypeError]. *)
Definition reports (run : list message → outcome (bool * list message)) : Prop :=
  ∀ st,
    (∃ b more, run st = Ok (b, st ++ more) ∧ (b = true ↔ more = [])) ∨
    run st = Raise "TypeError".

(** ** Deployment specifications of forwarder workloads

    [AppDeploymentSpecification.from_forwarder_workloads] reads a mapping
    from input groups to a server class name or a list of such names. *)

(** The closure [update], for the [input_group] and the [server_class] at
    hand; the specifications are keyed by server class. *)
Definition update (input_group server_class : string)
    (deployment_specifications : list (string * AppDeploymentSpecification))
    : outcome (list (string * AppDeploymentSpecification)) :=
  deployment_specification ←
    match OrderedDict.get server_class deployment_specifications with
    | None =>
        Ok {| name := server_class; workload := {[ "forwarder" ]};
              inputGroups := Some {[ input_group ]} |}
    | Some deployment_specification =>
        match inputGroups deployment_specification with
        | Some input_groups =>
            Ok {| name := name deployment_specification;
                  workload := workload deployment_specification;
                  inputGroups := Some (input_groups ∪ {[ input_group ]}) |}
        | None => Raise "AttributeError"
        end
    end;
  let deployment_specification :=
    if bool_decide (server_class ∈ ["_search_heads"; "_indexers"])
    then {| name := name deployment_specification;
            workload := workload deployment_specification ∪ {[ server_class ]};
            inputGroups := inputGroups deployment_specification |}
    else deployment_specification in
  Ok (OrderedDict.set server_class deployment_specification
        deployment_specifications).

Definition from_forwarder_workloads (forwarder_workloads : list (string * value))
    : outcome (list AppDeploymentSpecification) :=
  deployment_specifications ←
    foldlM (fun deployment_specifications '(input_group, server_classes) =>
              match server_classes with
              | VString server_class =>
                  update input_group server_class deployment_specifications
              | VList server_classes =>
                  foldlM (fun deployment_specifications server_class =>
                            match server_class with
                            | VString server_class =>
                                update input_group server_class
                                  deployment_specifications
                            | _ => Raise "ValueError"
                            end)
                    deployment_specifications server_classes
              | _ => Raise "ValueError"
              end)
      [] forwarder_workloads;
  Ok deployment_specifications.*2.

(** The server class names that a value of the mapping lists, when it is a
    name or a list of names. *)
Definition names_of (server_class : value) : option string :=
  match server_class with VString s => Some s | _ => None end.

Definition server_class_names (server_classes : value) : option (list string) :=
  match server_classes with
  | VString server_class => Some [server_class]
  | VList server_classes => mapM names_of server_classes
  | _ => None
  end.

(** The input group names a server class in the mapping. *)
Definition forwards_to (forwarder_workloads : list (string * value))
    (input_group server_class : string) : Prop :=
  ∃ server_classes names,
    (input_group, server_classes) ∈ forwarder_workloads ∧
    server_class_names server_classes = Some names ∧ server_class ∈ names.

(** What the specifications hold once the pairs [done] of an input group
    and a server class have been entered. *)
Definition entered (done : list (string * string))
    (specs : list (string * AppDeploymentSpecification)) : Prop :=
  NoDup specs.*1 ∧
  (∀ sc, sc ∈ specs.*1 ↔ ∃ g, (g, sc) ∈ done) ∧
  ∀ sc spec, (sc, spec) ∈ specs →
    name spec = sc ∧
    (∃ G, inputGroups spec = Some G ∧ ∀ g, g ∈ G ↔ (g, sc) ∈ done) ∧
    workload spec
    = {[ "forwarder" ]} ∪
      (if bool_decide (sc ∈ ["_search_heads"; "_indexers"]) then {[ sc ]} else ∅).

(** ** Reading the lines of a file, with one line put back

    A [FileReader] is its attributes; the input stream is the list of the
    lines that it has yet to deliver, and [next(istream)] raises
    [StopIteration] when there is none. *)
Record FileReader := {
  _filename : string;
  _istream : list string;
  _line_number : nat;
  _line : option string;
}.

(** [FileReader.__next__] *)
Definition FileReader_next (self : FileReader) : outcome (string * FileReader) :=
  let from_istream :=
    match _istream self with
    | [] => Raise "StopIteration"
    | line :: istream =>
        Ok (line, {| _filename := _filename self; _istream := istream;
                     _line_number := _line_number self + 1;
                     _line := _line self |})
    end in
  match _line self with
  | Some line =>
      if truthy line then
        Ok (line, {| _filename := _filename self; _istream := _istream self;
                     _line_number := _line_number self; _line := None |})
      else from_istream
  | None => from_istream
  end.

(** [FileReader.put_back] *)
Definition put_back (self : FileReader) (line : string) : outcome FileReader :=
  match _line self with
  | None =>
      Ok {| _filename := _filename self; _istream := _istream self;
            _line_number := _line_number self; _line := Some line |}
  | Some _ => Raise "AssertionError"
  end.

(** [line.endswith('\\\n')] and [line[:-2]] *)
Definition continues (line : string) : bool :=
  bool_decide (chars ("\" +:+ nl) `suffix_of` chars line).

Definition without_last_two (line : string) : string :=
  text_of (take (length (chars line) - 2) (chars line)).

(** [FileReader.read_continuation]: the fuel bounds the iterations of the
    loop. *)
Fixpoint read_continuation (fuel : nat) (self : FileReader) (line : string)
    : outcome (string * FileReader) :=
  if continues line then
    match fuel with
    | O => OutOfFuel
    | S fuel =>
        match FileReader_next self with
        | Ok (continuation, self) =>
            read_continuation fuel self
              (without_last_two line +:+ nl +:+ continuation)
        | Raise exn =>
            if bool_decide (exn = "StopIteration") then Ok (line, self)
            else Raise exn
        | OutOfFuel => OutOfFuel
        end
    end
  else Ok (line, self).

(** [FileReader.__iter__], as the list of the lines that the generator
    yields until it ends, and the reader it leaves. *)
Fixpoint FileReader_iter (fuel : nat) (self : FileReader)
    : outcome (list string * FileReader) :=
  match fuel with
  | O => OutOfFuel
  | S fuel =>
      match FileReader_next self with
      | Ok (line, self) =>
          if bool_decide (String.length line = 0) then Ok ([], self)
          else
            '(lines, self) ← FileReader_iter fuel self;
            Ok (line :: lines, self)
      | Raise exn =>
          if bool_decide (exn = "StopIteration") then Ok ([], self)
          else Raise exn
      | OutOfFuel => OutOfFuel
      end
  end.

(** The lines that a reader has yet to deliver: the line put back, unless
    it is empty, before those of the stream. *)
Definition pending (self : FileReader) : list string :=
  match _line self with
  | Some line => if truthy line then [line] else []
  | None => []
  end ++ _istream self.

(** A deployment specification that is [given], or that carries the name
    and the workload of [given] with a normalized set of input groups. *)
Definition derived_from (given s : AppDeploymentSpecification) : Prop :=
  name s = name given ∧ workload s = workload given ∧
  (s = given ∨ ∃ groups, inputGroups s = Some groups ∧ normalized groups).

(** ** [AppDependencyGraph.traverse] *)

Section traverse.
Context `{VersionConstraint} {State : Type}.
(** [visit] is the caller's: it is given a source, the ordered set of its
    dependencies and its dependents, acts on a state of the caller's, and
    returns the sources to go on with. *)
Variable visit :
  ref → list ref → option (list (Dependency * ref)) → State →
  outcome (list ref * State).

(** The [while] loop of [traverse]. *)
Fixpoint traverse_loop (fuel : nat) (G : AppDependencyGraph)
    (queue : list ref) (visited : gset ref) (st : State) : outcome State :=
  match fuel with
  | O => OutOfFuel
  | S fuel =>
      match deque_pop queue with
      | None => Ok st
      | Some (app_source, queue) =>
          if bool_decide (app_source ∈ visited)
          then traverse_loop fuel G queue visited st
          else
            match OrderedDict.get app_source (_graph G) with
            | None => Raise "KeyError"
            | Some dependency_sources =>
                let dependent_sources :=
                  OrderedDict.get app_source (_dependents G) in
                '(dependency_sources, st) ←
                  visit app_source dependency_sources dependent_sources st;
                traverse_loop fuel G
                  (deque_extendleft queue dependency_sources)
                  (visited ∪ {[ app_source ]}) st
            end
      end
  end.

Definition traverse (fuel : nat) (G : AppDependencyGraph) (st : State)
    : outcome (list (ref * list (Dependency * ref)) * State) :=
  st ← traverse_loop fuel G [_root G] ∅ st;
  Ok (_dependents G, st).

End traverse.

(** The number of dependencies that the graph lists for a source, and the
    iterations that are left to the loop of [traverse] once the sources
    [order] are visited. *)
Definition out_degree `{VersionConstraint} (G : AppDependencyGraph) (a : ref) : nat :=
  length (default [] (OrderedDict.get a (_graph G))).

Definition traversal_left `{VersionConstraint} (G : AppDependencyGraph)
    (order queue : list ref) : nat :=
  sum_list (out_degree G <$>
            filter (fun a => a ∉ order) (OrderedDict.keys (_graph G)))
  + length queue.

(** Fuel that lets [traverse] run to its end. *)
Definition traverse_fuel `{VersionConstraint} (G : AppDependencyGraph) : nat :=
  S (traversal_left G [] [_root G]).

(** ** The converters of a deployment specification

    Regular expressions, as far as [SafeFilenameConverter] needs them: a
    pattern is a sequence of items, each one or more characters of a set,
    taken greedily, or the anchor [$], which without [re.MULTILINE] matches
    at the end of the text and before a newline that ends the text. *)
Inductive regex_item : Type :=
  | OneOrMore (members : ascii → bool)
  | EndAnchor.

Fixpoint one_or_more (members : ascii → bool) (text : list ascii)
    (rest_matches : list ascii → bool) : bool :=
  match text with
  | [] => false
  | c :: text =>
      members c && (one_or_more members text rest_matches || rest_matches text)
  end.

(** [pattern.match(text) is not None] *)
Fixpoint re_match (pattern : list regex_item) (text : list ascii) : bool :=
  match pattern with
  | [] => true
  | OneOrMore members :: pattern => one_or_more members text (re_match pattern)
  | EndAnchor :: pattern =>
      (bool_decide (text = []) || bool_decide (text = chars nl))
      && re_match pattern text
  end.

Definition in_range (low high c : ascii) : bool :=
  bool_decide (nat_of_ascii low ≤ nat_of_ascii c ≤ nat_of_ascii high).

(** The set [[-._ a-zA-Z0-9]] *)
Definition safe_filename_char (c : ascii) : bool :=
  bool_decide (c ∈ chars "-._ ")
  || in_range "a" "z" c || in_range "A" "Z" c || in_range "0" "9" c.

(** [re.compile(r'[-._ a-zA-Z0-9]+$', re.UNICODE)] *)
Definition _safe_filename : list regex_item :=
  [OneOrMore safe_filename_char; EndAnchor].

(** [SafeFilenameConverter.convert_from] *)
Definition SafeFilenameConverter_convert_from : JsonDataTypeConverter :=
  fun v =>
    match v with
    | VString s =>
        if re_match _safe_filename (chars s) then Ok v else Raise "ValueError"
    | _ => Raise "TypeError"
    end.

(** [needle in v], for a string [needle] *)
Definition value_contains (needle : string) (v : value) : outcome bool :=
  match v with
  | VFrozenset elements | VList elements =>
      Ok (existsb (fun element =>
                     match element with
                     | VString s => bool_decide (s = needle)
                     | _ => false
                     end) elements)
  | VDict d => Ok (bool_decide (needle ∈ d.*1))
  | VString s =>
      Ok (match String.index 0 needle s with Some _ => true | None => false end)
  | VNone | VBool _ | VNumber _ => Raise "TypeError"
  end.

(** [value['workload']] and ['forwarder' in value['workload']] *)
Definition forwards (d : list (string * value)) : outcome bool :=
  workload ← match OrderedDict.get "workload" d with
             | Some workload => Ok workload
             | None => Raise "KeyError"
             end;
  value_contains "forwarder" workload.

(** [AppDeploymentSpecification.Converter.convert_from] *)
Definition Converter_convert_from : JsonDataTypeConverter :=
  fun v =>
    match v with
    | VDict d =>
        match dict_get "inputGroups" d with
        | VNone =>
            includes_forwarder ← forwards d;
            if includes_forwarder : bool
            then Ok (VDict (OrderedDict.set "inputGroups"
                              (VFrozenset [VString "*"]) d))
            else Ok v
        | _ =>
            includes_forwarder ← forwards d;
            if negb includes_forwarder then Raise "ValueError" else Ok v
        end
    | _ => Raise "AttributeError"
    end.

(** ** [AppDeploymentPackage]: the names that the exclusion patterns ignore *)

(** [s.endswith(suffix)] and [s[:-n]] *)
Definition endswith (s suffix : string) : bool :=
  bool_decide (chars suffix `suffix_of` chars s).

Definition without_last (n : nat) (s : string) : string :=
  text_of (take (length (chars s) - n) (chars s)).

Section excluded_filenames.
(** [fnmatch(filename, pattern)] is Python's; [configuration] lists the
    keys of [self._configuration]. *)
Variable fnmatch : string → string → bool.
Variable configuration : list string.

(** [AppDeploymentPackage._exclude_conf_spec] *)
Definition _exclude_conf_spec (filename : string) : bool :=
  if endswith filename ".conf.spec" then
    let configuration_name := without_last (String.length ".conf.spec") filename in
    bool_decide (configuration_name ∉ configuration)
  else false.

(** The function that [_get_match_function] returns for [pattern] *)
Definition _get_match_function (pattern : pattern_part) (filename : string)
    : bool :=
  match pattern with
  | Glob pattern => fnmatch filename pattern
  | ExcludeConfSpec => _exclude_conf_spec filename
  end.

(** The loop over [zip(reversed(root), ignore_pattern)]: [fnmatch] of a
    name and a method raises [TypeError]. *)
Fixpoint directories_match (directories : list string)
    (ignore_pattern : list pattern_part) : outcome bool :=
  match directories, ignore_pattern with
  | filename :: directories, Glob pattern :: ignore_pattern =>
      if fnmatch filename pattern
      then directories_match directories ignore_pattern
      else Ok false
  | _ :: _, ExcludeConfSpec :: _ => Raise "TypeError"
  | _, _ => Ok true
  end.

(** [AppDeploymentPackage._get_excluded_filenames]; [root] lists the
    directories from the innermost to the outermost. *)
Definition _get_excluded_filenames (root : list string) (names : list string)
    (ignore_patterns : list (list pattern_part)) : outcome (list string) :=
  let part_count := length root + 1 in
  candidates ←
    foldlM (fun candidates ignore_pattern =>
              if bool_decide (length ignore_pattern ≠ part_count)
              then Ok candidates
              else
                matches ← directories_match (reverse root) ignore_pattern;
                if matches : bool then
                  match last ignore_pattern with
                  | Some pattern => Ok (candidates ++ [pattern])
                  | None => Raise "IndexError"
                  end
                else Ok candidates)
      [] ignore_patterns;
  if bool_decide (length candidates = 0) then Ok []
  else
    Ok (filter (fun filename =>
                  existsb (fun pattern => _get_match_function pattern filename)
                    candidates = true)
          names).

End excluded_filenames.

(** The pattern applies in the directory [root]: it has one part for
    each directory and one for the name, and the directories match its
    parts from the outermost on. *)
Definition applies_in (fnmatch : string → string → bool) (root : list string)
    (ignore_pattern : list pattern_part) (last_part : pattern_part) : Prop :=
  ∃ globs,
    ignore_pattern = (Glob <$> globs) ++ [last_part] ∧
    Forall2 (fun filename pattern => fnmatch filename pattern = true)
      (reverse root) globs.

(** ** Recursion over cyclic dependencies *)

(** [b] is among the [_dependencies] of [a], and [a] reaches a source that
    depends on itself through one or more such steps. *)
Definition lists_dependency `{VersionConstraint} (W : World) (a b : ref) : Prop :=
  ∃ l dependency, source_dependencies W !! a = Some l ∧ (dependency, b) ∈ l.

Definition reaches_cycle `{VersionConstraint} (W : World) (a : ref) : Prop :=
  ∃ c, rtc (lists_dependency W) a c ∧ tc (lists_dependency W) c c.

(** ** What the propagation of deployment specifications looks up *)

(** The alias of a [requires] clause names a declared dependency whose
    package is that of a neighbour of [app_source] in the graph: the
    lookups and the assertion in the body of [for alias in aliases] pass. *)
Definition requirement_resolves `{VersionConstraint} (G : AppDependencyGraph)
    (app_source : ref) (declared : option (list (string * Dependency))) (alias : string) : bool :=
  match declared with
  | None => false
  | Some ds =>
      match OrderedDict.get alias ds with
      | None => false
      | Some dependency =>
          match package dependency with
          | None => false
          | Some p =>
              match _repository_sources G !! p,
                    OrderedDict.get app_source (_graph G) with
              | Some dependency_source, Some neighbours =>
                  bool_decide (dependency_source ∈ neighbours)
              | _, _ => false
              end
          end
      end
  end.

(** [app_source] has a manifest, and every alias that one of its input
    groups requires resolves. *)
Definition requirements_resolve `{VersionConstraint} (heap : ref → AppSource)
    (G : AppDependencyGraph) (app_source : ref) : bool :=
  match manifest (heap app_source) with
  | None => false
  | Some m =>
      match manifest_inputGroups m with
      | None => true
      | Some input_groups =>
          forallb
            (fun entry : string * InputGroup =>
               match requires entry.2 with
               | None => true
               | Some aliases =>
                   forallb (requirement_resolves G app_source (dependencies m))
                           (OrderedDict.keys aliases)
               end)
            input_groups
      end
  end.

(** Every source that the root reaches through the [_dependencies]
    attributes has this attribute, a manifest, and input groups whose
    requirements resolve: what [_add_source] leaves for a repository whose
    manifests require only what they declare. *)
Definition propagation_ready `{VersionConstraint} (heap : ref → AppSource)
    (G : AppDependencyGraph) (W : World) : Prop :=
  ∀ a, rtc (lists_dependency W) (_root G) a →
    is_Some (source_dependencies W !! a) ∧ requirements_resolve heap G a = true.

(** A check of [propagation_ready] that computes, over a list of sources
    that holds the root and the dependencies of its members. *)
Definition propagation_readyb `{VersionConstraint} (heap : ref → AppSource)
    (G : AppDependencyGraph) (W : World) (sources : list ref) : bool :=
  bool_decide (_root G ∈ sources) &&
  forallb
    (fun a =>
       match source_dependencies W !! a with
       | None => false
       | Some l =>
           requirements_resolve heap G a &&
           forallb (fun e : Dependency * ref => bool_decide (e.2 ∈ sources)) l
       end)
    sources.

(** ** A small repository, used to exercise the definitions *)

Module Example.

(** Versions [major.minor.patch] and the ranges [*] and [~major.minor.patch]. *)
Inductive range :=
  | AnyVersion
  | Tilde (major minor patch : nat).

Definition example_range_match (r : range) (v : nat * nat * nat) : bool :=
  match r with
  | AnyVersion => true
  | Tilde major minor patch =>
      bool_decide (v.1.1 = major) && bool_decide (v.1.2 = minor)
      && bool_decide (patch ≤ v.2)
  end.

Definition show_version (v : nat * nat * nat) : string :=
  pretty v.1.1 +:+ "." +:+ pretty v.1.2 +:+ "." +:+ pretty v.2.

Definition show_range (r : range) : string :=
  match r with
  | AnyVersion => "*"
  | Tilde major minor patch => "~" +:+ show_version (major, minor, patch)
  end.

#[export] Instance versions : VersionConstraint := {|
  Version := nat * nat * nat;
  VersionRange := range;
  range_match := example_range_match;
  string_of_version := show_version;
  string_of_range := show_range;
|}.

Definition static (p : string) (r : range) : Dependency :=
  {| package := Some p; version := r; optional := false |}.

Definition plain_manifest (v : nat * nat * nat)
    (declared : list (string * Dependency))
    (groups : option (list (string * InputGroup))) : AppManifest :=
  {| info_id_version := v; info_license := None; info_privacyPolicy := None;
     info_releaseNotes := None; dependencies := Some declared;
     manifest_inputGroups := groups |}.

Definition source (id : string) (v : nat * nat * nat)
    (declared : list (string * Dependency))
    (groups : option (list (string * InputGroup))) : AppSource :=
  {| source_id := id; source_version := v; source_package := id +:+ ".tgz";
     directory := "/apps/" +:+ id;
     manifest := Some (plain_manifest v declared groups);
     get_dependencies_for_target_os := fun _ => declared |}.

(** [app] depends on [a] and [b], which both depend on [c]. The input
    group [windows] of [app] requires the group [events] of [a]; nothing
    requires [b] or [c]. *)
Definition heap (r : ref) : AppSource :=
  if bool_decide (r = "app") then
    source "app" (1, 0, 0)
      [("a", static "a.tgz" (Tilde 4 7 5)); ("b", static "b.tgz" (Tilde 5 2 1))]
      (Some [("windows", {| requires := Some [("a", {["events"]})] |});
             ("unix", {| requires := None |})])
  else if bool_decide (r = "a") then
    source "a" (4, 7, 5) [("c", static "c.tgz" (Tilde 1 0 0))]
      (Some [("events", {| requires := None |})])
  else if bool_decide (r = "b") then
    source "b" (5, 2, 1) [("c", static "c.tgz" AnyVersion)] None
  else
    source "c" (1, 0, 0) [] None.

Definition dependency_sources : gmap string ref :=
  {[ "a.tgz" := "a"; "b.tgz" := "b"; "c.tgz" := "c" ]}.

Definition constructed : outcome (AppDependencyGraph * World) :=
  AppDependencyGraph_init heap 20 "app" dependency_sources ∅ None "*" empty_world.

Definition graph : AppDependencyGraph :=
  match constructed with Ok (G, _) => G | _ =>
    {| _root := "app"; _description := None; _graph := []; _dependents := [];
       _installed_packages := None; _dependency_sources := ∅;
       _repository_sources := ∅; _target_os := "*" |}
  end.

Definition world : World :=
  match constructed with Ok (_, W) => W | _ => empty_world end.

(** A specification for the forwarders that names the input group
    [windows]. *)
Definition windows_forwarders : AppDeploymentSpecification :=
  {| name := "_forwarders"; workload := {["forwarder"]};
     inputGroups := Some {["windows"]} |}.

(** The same specification with other input groups. *)
Definition forwarders_with (groups : gset string) : AppDeploymentSpecification :=
  {| name := "_forwarders"; workload := {["forwarder"]};
     inputGroups := Some groups |}.

(** What [get_deployment_specifications] returns for [windows_forwarders],
    and the calls of the recursion: [c] is reached through [a] and again
    through [b]. *)
Definition windows_result : list (ref * AppDeploymentSpecification) :=
  [("app", windows_forwarders); ("a", forwarders_with {["events"]});
   ("c", forwarders_with ∅); ("b", forwarders_with ∅)].

Definition windows_calls : list (ref * AppDeploymentSpecification) :=
  [("app", windows_forwarders); ("a", forwarders_with {["events"]});
   ("c", forwarders_with ∅); ("b", forwarders_with ∅);
   ("c", forwarders_with ∅)].

(** Two sources that depend on each other. *)
Definition two_cycle : list (ref * list ref) := [("A", ["B"]); ("B", ["A"])].

(** The scenario of the specification: [pkg-c] depends on [pkg-a] in the
    server class [_search_heads]. *)
Definition search_heads : AppServerClass :=
  {| server_class_name := "_search_heads";
     server_class_workload := {["searchHead"]};
     apps := [("pkg-a", {| installation_id := "pkg-a"; dependents := ["pkg-c"] |});
              ("pkg-c", {| installation_id := "pkg-c"; dependents := [] |})] |}.

(** A stand-in for [remove_installation]: drops the installation's entry. *)
Definition drop_installation (installation : AppInstallation)
    (graph : list (string * AppInstallation)) : list (string * AppInstallation) :=
  filter (fun entry => entry.1 ≠ installation_id installation) graph.

(** A rank that decreases along the dependencies of the example. *)
Definition rank (r : ref) : nat :=
  if bool_decide (r = "app") then 2
  else if bool_decide (r = "a") then 1
  else if bool_decide (r = "b") then 1
  else 0.

(** The description of the example graph, and the edges it lists. *)
Definition description_text : string :=
  "|-- app@1.0.0" +:+ nl +:+
  "|   |-- a@4.7.5 (accepting ~4.7.5)" +:+ nl +:+
  "|      |-- c@1.0.0 (accepting ~1.0.0)" +:+ nl +:+
  "|   |-- b@5.2.1 (accepting ~5.2.1)" +:+ nl +:+
  "|      |-- c@1.0.0 (accepting *)" +:+ nl.

Definition description_entries : list (nat * Dependency * ref) :=
  [(1, static "a.tgz" (Tilde 4 7 5), "a"); (2, static "c.tgz" (Tilde 1 0 0), "c");
   (1, static "b.tgz" (Tilde 5 2 1), "b"); (2, static "c.tgz" AnyVersion, "c")].

(** An app at [/apps/doc] whose manifest names a license file. *)
Definition documented_manifest (license : string) : AppManifest :=
  {| info_id_version := (1, 0, 0);
     info_license := Some {| text := Some license |};
     info_privacyPolicy := None; info_releaseNotes := None;
     dependencies := None; manifest_inputGroups := None |}.

Definition documented (license : string) (r : ref) : AppSource :=
  {| source_id := "doc"; source_version := (1, 0, 0);
     source_package := "doc.tgz"; directory := "/apps/doc";
     manifest := Some (documented_manifest license);
     get_dependencies_for_target_os := fun _ => [] |}.

Definition documented_assets : gset string :=
  {[ "/apps/doc/metadata"; "/apps/doc/metadata/default.meta";
     "/apps/doc/doc"; "/apps/doc/doc/LICENSE.txt"; "/apps/doc/binary" ]}.

(** A specification for search heads that forward the given input
    groups. *)
Definition on_search_heads (n : string) (groups : gset string)
    : AppDeploymentSpecification :=
  {| name := n; workload := {["searchHead"; "forwarder"]};
     inputGroups := Some groups |}.

(** What the completion returns for [windows_forwarders] followed by a
    second forwarder specification of the same name. *)
Definition repeated_forwarders : list AppDeploymentSpecification :=
  [windows_forwarders;
   {| name := "_search_heads"; workload := {["searchHead"]}; inputGroups := None |};
   {| name := "_indexers"; workload := {["indexer"]}; inputGroups := None |};
   forwarders_with {["unix"]}].

(** Stand-ins for Python's [str.format], on a template whose only braces
    are those of the final ['[{0}]'], and for the construction of a
    value's own type, here of frozensets only. *)
Definition format_index (template : string) (i : nat) : outcome string :=
  Ok (text_of (take (length (chars template) - 5) (chars template))
      +:+ "[" +:+ pretty i +:+ "]").

Definition rebuild_frozenset (v : value) (elements : list value) : outcome value :=
  match v with
  | VFrozenset _ => Ok (VFrozenset elements)
  | _ => Raise "ValueError"
  end.

(** [JsonValue(JsonString())] and [JsonValue(JsonNumber())] *)
Definition string_element : JsonValue :=
  {| data_type := JsonString; converter := None; default_value := VNone;
     required := false |}.

Definition number_element : JsonValue :=
  {| data_type := JsonNumber; converter := None; default_value := VNone;
     required := false |}.

(** The fields of an object with a required [name] and an array [w] of
    strings that defaults to ['DW']. *)
Definition named_fields : list (string * JsonValueOf JsonDataType) :=
  [("name", {| data_type := JsonString; converter := None;
               default_value := VNone; required := true |});
   ("w", {| data_type := JsonArray string_element; converter := None;
            default_value := VString "DW"; required := false |})].

(** Forwarder workloads: the input group [windows] goes to the server
    class [web], and [unix] to [web] and to the indexers. *)
Definition forwarder_workloads : list (string * value) :=
  [("windows", VString "web");
   ("unix", VList [VString "web"; VString "_indexers"])].

(** A reader at the start of a file of three lines, the first two of
    which end in a backslash. *)
Definition reader : FileReader :=
  {| _filename := "app.conf";
     _istream := ["b \" +:+ nl; "c" +:+ nl; "d" +:+ nl];
     _line_number := 0; _line := None |}.

(** A deployment specification as the fields of its object leave it: for
    forwarders, without input groups. *)
Definition forwarder_dict : list (string * value) :=
  [("name", VString "_forwarders");
   ("workload", VFrozenset [VString "forwarder"]);
   ("inputGroups", VNone)].

(** A stand-in for [fnmatch]: the pattern [*.conf] matches the names that
    end in [.conf], and any other pattern matches itself. *)
Definition fnmatch_conf (filename pattern : string) : bool :=
  if bool_decide (pattern = "*.conf") then endswith filename ".conf"
  else bool_decide (filename = pattern).

(** Two sources [A] and [B] that depend on each other, as [_add_source]
    leaves them. *)
Definition cyclic_world : World :=
  set_source_dependencies "A" [(static "B.tgz" AnyVersion, "B")]
    (set_source_dependencies "B" [(static "A.tgz" AnyVersion, "A")] empty_world).

Definition cyclic_graph : AppDependencyGraph :=
  {| _root := "A"; _description := None; _graph := two_cycle;
     _dependents := [("B", [(static "B.tgz" AnyVersion, "A")]);
                     ("A", [(static "A.tgz" AnyVersion, "B")])];
     _installed_packages := None;
     _dependency_sources := {[ "A.tgz" := "A"; "B.tgz" := "B" ]};
     _repository_sources := {[ "A.tgz" := "A"; "B.tgz" := "B" ]};
     _target_os := "*" |}.

End Example.

(** * Part II: properties *)

(** ** Ordered dictionaries *)

Module OrderedDictFacts.
Import OrderedDict.
Section od.
Context {K V : Type} `{EqDecision K}.
Implicit Types (k : K) (v : V) (d : list (K * V)).

Lemma get_set_eq k v d : get k (set k v d) = Some v.
Proof.
  induction d as [|[k' v'] d IH]; simpl.
  - by rewrite decide_True.
  - destruct (decide (k = k')) as [->|Hne]; simpl.
    + by rewrite decide_True.
    + by rewrite decide_False.
Qed.

Lemma get_set_ne k k' v d : k ≠ k' → get k' (set k v d) = get k' d.
Proof.
  intros Hne. induction d as [|[k0 v0] d IH]; simpl.
  - by rewrite decide_False.
  - destruct (decide (k = k0)) as [->|Hne0]; simpl.
    + by rewrite !decide_False.
    + by rewrite IH.
Qed.

Lemma get_Some_elem k v d : get k d = Some v → (k, v) ∈ d.
Proof.
  induction d as [|[k' v'] d IH]; simpl; [done|].
  destruct (decide (k = k')) as [->|Hne].
  - intros [= ->]. left.
  - intros H. right. auto.
Qed.

Lemma get_None k d : get k d = None ↔ k ∉ keys d.
Proof.
  unfold keys. induction d as [|[k' v'] d IH]; simpl.
  - split; [intros _; apply not_elem_of_nil | done].
  - destruct (decide (k = k')) as [->|Hne].
    + split; [done|]. intros H. destruct H. left.
    + rewrite IH, not_elem_of_cons. tauto.
Qed.

Lemma get_is_Some k d : is_Some (get k d) ↔ k ∈ keys d.
Proof.
  destruct (get k d) eqn:E.
  - split; [|eauto]. intros _.
    destruct (decide (k ∈ keys d)) as [|Hn]; [done|].
    apply get_None in Hn. congruence.
  - split; [by intros [? ?]|]. intros Hin.
    apply get_None in E. done.
Qed.

Lemma contains_true k d : contains k d = true ↔ k ∈ keys d.
Proof.
  unfold contains. destruct (get k d) eqn:E.
  - split; [intros _|done]. apply get_is_Some. rewrite E. eauto.
  - split; [done|]. intros H%get_is_Some. rewrite E in H. by destruct H.
Qed.

Lemma contains_false k d : contains k d = false ↔ k ∉ keys d.
Proof.
  rewrite <- contains_true. destruct (contains k d); split; congruence.
Qed.

Lemma keys_set_in k v d : k ∈ keys d → keys (set k v d) = keys d.
Proof.
  unfold keys. induction d as [|[k' v'] d IH]; simpl.
  - intros H. by apply elem_of_nil in H.
  - intros H. destruct (decide (k = k')) as [->|Hne]; simpl; [done|].
    f_equal. apply IH. apply elem_of_cons in H as [?|?]; done.
Qed.

Lemma keys_set_notin k v d : k ∉ keys d → keys (set k v d) = keys d ++ [k].
Proof.
  unfold keys. induction d as [|[k' v'] d IH]; simpl; [done|].
  intros H. apply not_elem_of_cons in H as [Hne Hn].
  rewrite decide_False by done. simpl. f_equal. by apply IH.
Qed.

Lemma elem_of_keys_set k k' v d :
  k' ∈ keys (set k v d) ↔ k' = k ∨ k' ∈ keys d.
Proof.
  destruct (decide (k ∈ keys d)) as [Hin|Hn].
  - rewrite keys_set_in by done. split; [auto|]. by intros [->|?].
  - rewrite keys_set_notin by done. rewrite elem_of_app, list_elem_of_singleton.
    tauto.
Qed.

Lemma NoDup_keys_set k v d : NoDup (keys d) → NoDup (keys (set k v d)).
Proof.
  intros Hnd. destruct (decide (k ∈ keys d)) as [Hin|Hn].
  - by rewrite keys_set_in.
  - rewrite keys_set_notin by done. apply NoDup_app. split_and!; [done| |].
    + intros x Hx ->%list_elem_of_singleton. done.
    + apply NoDup_singleton.
Qed.

Lemma elem_of_set k k' v v' d :
  (k', v') ∈ set k v d → (k' = k ∧ v' = v) ∨ (k', v') ∈ d.
Proof.
  induction d as [|[k0 v0] d IH]; simpl.
  - intros [= -> ->]%list_elem_of_singleton. by left.
  - destruct (decide (k = k0)) as [->|Hne].
    + intros [[= -> ->]|H]%elem_of_cons; [by left|]. right. by right.
    + intros [[= -> ->]|H]%elem_of_cons; [right; left|].
      destruct (IH H) as [?|?]; [by left|]. right. by right.
Qed.

Lemma get_elem_NoDup k v d : NoDup (keys d) → (k, v) ∈ d → get k d = Some v.
Proof.
  unfold keys. induction d as [|[k' v'] d IH]; simpl.
  - intros _ Hin. by apply elem_of_nil in Hin.
  - intros [Hk' Hnd]%NoDup_cons [[= -> ->]|Hin]%elem_of_cons.
    + by rewrite decide_True.
    + rewrite decide_False; [by apply IH|]. intros ->. apply Hk'.
      apply list_elem_of_fmap. by exists (k', v).
Qed.


Lemma keys_of_pairs_aux (l : list (K * V)) d :
  ∀ k, k ∈ keys (foldl (fun d kv => set kv.1 kv.2 d) d l) ↔ k ∈ keys d ∨ k ∈ l.*1.
Proof.
  revert d. induction l as [|[k0 v0] l IH]; intros d k; simpl.
  - rewrite elem_of_nil. tauto.
  - rewrite IH, elem_of_keys_set, elem_of_cons. tauto.
Qed.

Lemma NoDup_of_pairs_aux (l : list (K * V)) d :
  NoDup (keys d) → NoDup (keys (foldl (fun d kv => set kv.1 kv.2 d) d l)).
Proof.
  revert d. induction l as [|[k0 v0] l IH]; intros d Hd; simpl; [done|].
  by apply IH, NoDup_keys_set.
Qed.

Lemma elem_of_of_pairs_aux (l : list (K * V)) d k v :
  (k, v) ∈ foldl (fun d kv => set kv.1 kv.2 d) d l → (k, v) ∈ d ∨ (k, v) ∈ l.
Proof.
  revert d. induction l as [|[k0 v0] l IH]; intros d; simpl; [by left|].
  intros [[[-> ->]|Hd]%elem_of_set|Hl]%IH.
  - right. left.
  - by left.
  - right. by right.
Qed.

Lemma keys_of_pairs_NoDup (l : list (K * V)) :
  NoDup l.*1 → keys (of_pairs l) = l.*1.
Proof.
  unfold of_pairs. intros Hnd.
  cut (∀ d, NoDup (keys d ++ l.*1) →
            keys (foldl (fun d kv => set kv.1 kv.2 d) d l) = keys d ++ l.*1).
  { intros Hc. apply (Hc []). done. }
  clear Hnd. induction l as [|[k0 v0] l IH]; intros d Hnd; simpl.
  - by rewrite app_nil_r.
  - simpl in Hnd. rewrite IH.
    + rewrite keys_set_notin.
      * by rewrite <- app_assoc.
      * apply NoDup_app in Hnd as (_ & Hd & _). intros Hin. apply (Hd k0 Hin). left.
    + rewrite keys_set_notin.
      * by rewrite <- app_assoc.
      * apply NoDup_app in Hnd as (_ & Hd & _). intros Hin. apply (Hd k0 Hin). left.
Qed.
End od.
End OrderedDictFacts.

(** ** Input-group sets *)

Lemma union_of_all_l X : _union_of all_input_groups X = all_input_groups.
Proof. unfold _union_of, all_input_groups. rewrite bool_decide_true by set_solver. done. Qed.

Lemma union_of_all_r X : _union_of X all_input_groups = all_input_groups.
Proof.
  unfold _union_of. rewrite (bool_decide_true (_ ∈ all_input_groups)).
  - by rewrite orb_true_r.
  - unfold all_input_groups. set_solver.
Qed.

Lemma union_of_comm X Y : _union_of X Y = _union_of Y X.
Proof.
  unfold _union_of. rewrite orb_comm. destruct (_ || _); [done|].
  apply leibniz_equiv. set_solver.
Qed.

Lemma union_of_self X : _union_of X X = if bool_decide ("*" ∈ X) then all_input_groups else X.
Proof.
  unfold _union_of. destruct (bool_decide ("*" ∈ X)); simpl; [done|].
  apply leibniz_equiv. set_solver.
Qed.

(** C1 (as amended): [_union_of] absorbs [all_input_groups] on either side,
    maps two empty sets to the empty set and is commutative; it is
    idempotent on every normalized set (one without the wildcard, or the
    wildcard alone), and maps a set that holds the wildcard to
    [all_input_groups]. *)
Theorem union_of_laws (X Y : gset string) :
  _union_of all_input_groups X = all_input_groups ∧
  _union_of X all_input_groups = all_input_groups ∧
  _union_of no_input_groups no_input_groups = no_input_groups ∧
  _union_of X Y = _union_of Y X ∧
  (normalized X → _union_of X X = X) ∧
  ("*" ∈ X → _union_of X X = all_input_groups).
Proof.
  split_and!.
  - apply union_of_all_l.
  - apply union_of_all_r.
  - reflexivity.
  - apply union_of_comm.
  - intros Hn. rewrite union_of_self. case_bool_decide; [|done]. symmetry. by apply Hn.
  - intros Hin. rewrite union_of_self. by rewrite bool_decide_true.
Qed.

(** [union_of_laws] on the normalized set [{forwarders}]. *)
Lemma union_of_laws_witness :
  normalized {["forwarders"]} ∧
  _union_of {["forwarders"]} {["forwarders"]} = {["forwarders"]}.
Proof.
  assert (normalized {["forwarders"]}) as Hn.
  { intros Hin. apply elem_of_singleton in Hin. discriminate Hin. }
  split; [exact Hn|].
  exact (proj1 (proj2 (proj2 (proj2 (proj2 (union_of_laws {["forwarders"]} ∅))))) Hn).
Defined.

(** C1 as stated fails: on the set [{*, a}] the union of the set with itself
    is [all_input_groups], not the set. *)
Lemma union_of_not_idempotent :
  _union_of {["*"; "a"]} {["*"; "a"]} = all_input_groups ∧
  _union_of {["*"; "a"]} {["*"; "a"]} ≠ {["*"; "a"]}.
Proof. split; [reflexivity|]. by vm_compute. Qed.

(** ** Specifications for all input groups *)

Section same_specification.
Import OrderedDict OrderedDictFacts.

(** C2: when the specification's [inputGroups] is absent or is
    [all_input_groups], [get_deployment_specifications] returns a mapping
    whose keys are exactly the sources of the graph (in the graph's own
    order) and that maps every one of them to the specification it was
    given. *)
Theorem all_input_groups_same_specification `{VersionConstraint}
    (heap : ref → AppSource) (fuel : nat) (G : AppDependencyGraph) (W : World)
    (deployment_specification : AppDeploymentSpecification) :
  inputGroups deployment_specification = None ∨
  inputGroups deployment_specification = Some all_input_groups →
  ∃ result,
    get_deployment_specifications heap fuel G W deployment_specification = Ok result ∧
    (∀ source, source ∈ keys result ↔ source ∈ keys (_graph G)) ∧
    (∀ source, source ∈ keys (_graph G) →
               get source result = Some deployment_specification) ∧
    (NoDup (keys (_graph G)) → keys result = keys (_graph G)).
Proof.
  intros Hall.
  exists (of_pairs ((fun source => (source, deployment_specification)) <$> keys (_graph G))).
  assert (((fun source : ref => (source, deployment_specification)) <$> keys (_graph G)).*1
          = keys (_graph G)) as Hfst.
  { rewrite <- list_fmap_compose. apply list_fmap_id. }
  assert (∀ source,
    source ∈ keys (of_pairs ((fun source => (source, deployment_specification))
                               <$> keys (_graph G))) ↔ source ∈ keys (_graph G)) as Hkeys.
  { intros source. unfold of_pairs. rewrite keys_of_pairs_aux, Hfst.
    unfold keys at 1. simpl. rewrite elem_of_nil. tauto. }
  split_and!.
  - unfold get_deployment_specifications. destruct Hall as [->| ->]; [done|].
    by rewrite bool_decide_true.
  - done.
  - intros source Hin. apply Hkeys, get_is_Some in Hin as [s Hs].
    rewrite Hs. f_equal. apply get_Some_elem, elem_of_of_pairs_aux in Hs as [Hs|Hs].
    + by apply elem_of_nil in Hs.
    + apply list_elem_of_fmap in Hs as (? & [= _ ->] & _). done.
  - intros Hnd. rewrite keys_of_pairs_NoDup; rewrite Hfst; done.
Qed.

(** [all_input_groups_same_specification] on the example repository. *)
Lemma all_input_groups_same_specification_witness :
  ∃ result,
    get_deployment_specifications Example.heap 0 Example.graph Example.world
      {| name := "_forwarders"; workload := {["forwarder"]};
         inputGroups := Some all_input_groups |} = Ok result ∧
    keys result = ["app"; "a"; "b"; "c"].
Proof.
  destruct (all_input_groups_same_specification Example.heap 0 Example.graph
              Example.world
              {| name := "_forwarders"; workload := {["forwarder"]};
                 inputGroups := Some all_input_groups |} (or_intror eq_refl))
    as (result & Hrun & _ & _ & Hkeys).
  exists result. split; [exact Hrun|]. rewrite Hkeys; [reflexivity|].
  apply (bool_decide_unpack _). by vm_compute.
Defined.

End same_specification.

(** ** Cycle detection *)

Module CycleFacts.
Import OrderedDict OrderedDictFacts.
Section dfs.
Variable graph : list (ref * list ref).
Local Notation E := (edge graph).
Local Notation U := (graph_nodes graph).

Lemma edge_nodes a b : E a b → a ∈ U ∧ b ∈ U.
Proof.
  intros (ns & Hget & Hin). unfold graph_nodes. split.
  - apply elem_of_union_l, elem_of_list_to_set, get_is_Some. eauto.
  - apply elem_of_union_r, elem_of_list_to_set, list_elem_of_join.
    exists ns. split; [done|]. apply get_Some_elem in Hget.
    apply list_elem_of_fmap. by exists (a, ns).
Qed.

Lemma finished_closed_tc st u v :
  dfs_inv graph st → u ∈ finished st → tc E u v → v ∈ finished st.
Proof.
  intros (_ & Hcl & _) Hu Htc. induction Htc; eauto.
Qed.

Lemma neighbours_spec vis fuel cur :
  (∀ s st, visit_pre graph fuel st s → visit_post graph st s (vis s st)) →
  ∀ ns st,
    (∀ n, n ∈ ns → E cur n) → cur ∈ graph_path st → dfs_inv graph st →
    (∀ p, p ∈ graph_path st → rtc E p cur) →
    size (U ∖ visited st) < fuel →
    ∃ b st', visit_neighbours vis ns st = Ok (b, st') ∧
      if b : bool then cyclic graph
      else dfs_inv graph st' ∧ graph_path st' = graph_path st ∧
           visited st ⊆ visited st' ∧ ∀ n, n ∈ ns → n ∈ finished st'.
Proof.
  intros Hvis ns. induction ns as [|n ns IH]; intros st Hns Hcur Hinv Hch Hsz.
  - exists false, st. simpl. split_and!; try done. intros n Hn. by apply elem_of_nil in Hn.
  - simpl. case_bool_decide as Hn.
    + exists true, st. split; [done|]. exists n.
      eapply tc_rtc_l; [by apply Hch|]. apply tc_once, Hns. left.
    + destruct (Hvis n st) as (b & st1 & -> & Hpost).
      { split_and!; try done.
        - eapply edge_nodes, Hns. left.
        - intros p Hp. eapply rtc_r; [by apply Hch|]. apply Hns. left. }
      simpl. destruct b.
      { exists true, st1. done. }
      destruct Hpost as (Hinv1 & Hp1 & Hv1 & Hn1).
      destruct (IH st1) as (b & st2 & -> & Hpost2).
      { intros m Hm. apply Hns. by right. }
      { by rewrite Hp1. }
      { done. }
      { intros p Hp. apply Hch. by rewrite <- Hp1. }
      { eapply Nat.le_lt_trans; [|exact Hsz]. apply subseteq_size. set_solver. }
      exists b, st2. split; [done|]. destruct b; [done|].
      destruct Hpost2 as (Hinv2 & Hp2 & Hv2 & Hfin).
      split_and!; try done.
      * congruence.
      * set_solver.
      * intros m [->|Hm]%elem_of_cons; [|by apply Hfin].
        unfold finished. rewrite Hp2, Hp1. set_solver.
Qed.

Lemma visit_spec fuel s st :
  visit_pre graph fuel st s → visit_post graph st s (visit fuel graph s st).
Proof.
  revert s st. induction fuel as [|fuel IH]; intros s st (HsU & HsP & Hinv & Hch & Hsz).
  { lia. }
  simpl. case_bool_decide as Hvis.
  { exists false, st. done. }
  set (st1 := {| visited := {[s]} ∪ visited st; graph_path := {[s]} ∪ graph_path st |}).
  destruct Hinv as (Hsub & Hcl & Hac).
  assert (Hfin1 : finished st1 = finished st).
  { unfold finished, st1. simpl. set_solver. }
  destruct (neighbours_spec (visit fuel graph) fuel s IH
              (default [] (get s graph)) st1) as (b & st2 & -> & Hpost).
  { intros n Hn. destruct (get s graph) as [ns|] eqn:Hget; simpl in Hn.
    - by exists ns.
    - by apply elem_of_nil in Hn. }
  { simpl. set_solver. }
  { split_and!.
    - simpl. set_solver.
    - intros u v. rewrite Hfin1. apply Hcl.
    - intros u. rewrite Hfin1. apply Hac. }
  { simpl. intros p [->%elem_of_singleton|Hp]%elem_of_union; [done|]. by apply Hch. }
  { simpl. assert (U ∖ ({[s]} ∪ visited st) ⊂ U ∖ visited st) as Hlt by set_solver.
    apply subset_size in Hlt. lia. }
  simpl. destruct b.
  { exists true, st2. done. }
  destruct Hpost as ((Hsub2 & Hcl2 & Hac2) & Hp2 & Hv2 & Hfin).
  simpl in Hp2, Hv2. rewrite bool_decide_true by (rewrite Hp2; set_solver).
  eexists false, _. split; [done|]. simpl.
  assert (Hs2 : s ∉ finished st2).
  { unfold finished. rewrite Hp2. set_solver. }
  assert (Hsucc : ∀ v, E s v → v ∈ finished st2).
  { intros v (ns & Hget & Hv). apply Hfin. by rewrite Hget. }
  assert (Hfin3 : ∀ u, u ∈ visited st2 ∖ (graph_path st2 ∖ {[s]}) ↔
                       u = s ∨ u ∈ finished st2).
  { intros u. unfold finished. rewrite Hp2.
    destruct (decide (u = s)) as [->|]; set_solver. }
  split_and!.
  - split_and!.
    + simpl. set_solver.
    + unfold finished at 1 2. simpl. intros u v [->|Hu]%Hfin3 Huv; apply Hfin3; right.
      * by apply Hsucc.
      * by eapply Hcl2.
    + unfold finished at 1. simpl. intros u [->|Hu]%Hfin3; [|by apply Hac2].
      intros Htc. apply Hs2. inversion Htc as [? ? Hsv|? v ? Hsv Hvs]; subst.
      * by apply Hsucc.
      * eapply finished_closed_tc; [done| |exact Hvs]. by apply Hsucc.
  - rewrite Hp2. set_solver.
  - set_solver.
  - set_solver.
Qed.

Lemma any_visit_spec fuel ks st :
  size U < fuel → (∀ k, k ∈ ks → k ∈ U) → dfs_inv graph st → graph_path st = ∅ →
  ∃ b, any_visit fuel graph ks st = Ok b ∧
    if b : bool then cyclic graph
    else ∃ st', dfs_inv graph st' ∧ graph_path st' = ∅ ∧
                visited st ⊆ visited st' ∧ ∀ k, k ∈ ks → k ∈ visited st'.
Proof.
  intros Hfuel. revert st. induction ks as [|k ks IH]; intros st Hks Hinv Hp.
  - exists false. split; [done|]. exists st. split_and!; try done.
    intros k Hk. by apply elem_of_nil in Hk.
  - simpl. destruct (visit_spec fuel k st) as (b & st1 & -> & Hpost).
    { split_and!; try done.
      - apply Hks. left.
      - rewrite Hp. set_solver.
      - intros p. rewrite Hp. set_solver.
      - eapply Nat.le_lt_trans; [|exact Hfuel]. apply subseteq_size. set_solver. }
    simpl. destruct b.
    { by exists true. }
    destruct Hpost as (Hinv1 & Hp1 & Hv1 & Hk1).
    destruct (IH st1) as (b & -> & Hb).
    { intros m Hm. apply Hks. by right. }
    { done. }
    { congruence. }
    exists b. split; [done|]. destruct b; [done|].
    destruct Hb as (st2 & Hinv2 & Hp2 & Hv2 & Hfin2). exists st2.
    split_and!; try done.
    + set_solver.
    + intros m [->|Hm]%elem_of_cons; [|by apply Hfin2]. set_solver.
Qed.

Lemma cyclic_has_key a : tc E a a → a ∈ keys graph.
Proof.
  intros Htc. assert (∃ b, E a b) as (b & ns & Hget & _).
  { inversion Htc; eauto. }
  apply get_is_Some. eauto.
Qed.

Lemma is_cyclic_correct fuel :
  cyclic_fuel graph ≤ fuel →
  ∃ b, _is_cyclic fuel graph = Ok b ∧ (b = true ↔ cyclic graph).
Proof.
  intros Hfuel. unfold cyclic_fuel in Hfuel.
  destruct (any_visit_spec fuel (keys graph) {| visited := ∅; graph_path := ∅ |})
    as (b & Hrun & Hb).
  { lia. }
  { intros k Hk. unfold graph_nodes. set_solver. }
  { split_and!; unfold finished; simpl; set_solver. }
  { done. }
  exists b. split; [done|]. destruct b; [done|].
  destruct Hb as (st' & (_ & _ & Hac) & Hp & _ & Hfin).
  split; [done|]. intros (a & Htc). exfalso. apply (Hac a); [|done].
  unfold finished. rewrite Hp. apply cyclic_has_key, Hfin in Htc. set_solver.
Qed.
End dfs.
End CycleFacts.

(** ** Cycle detection: the claim *)

Section cycle_detection.
Import OrderedDict OrderedDictFacts CycleFacts.







End cycle_detection.

(** ** Propagation of deployment specifications *)

Module SpecificationFacts.
Import OrderedDict OrderedDictFacts.

Lemma foldlM_inv {A B} (P : B → Prop) (f : B → A → outcome B) l :
  (∀ b a b', a ∈ l → P b → f b a = Ok b' → P b') →
  ∀ b b', P b → foldlM f b l = Ok b' → P b'.
Proof.
  induction l as [|a l IH]; intros Hstep b b' Hb; simpl.
  - by intros [= <-].
  - destruct (f b a) as [b1| |] eqn:Hf; simpl; try done.
    apply IH.
    + intros ? ? ? ?. apply Hstep. by right.
    + eapply Hstep; [left|done..].
Qed.

Section c3.
Context `{VersionConstraint} (heap : ref → AppSource).
Variables (G : AppDependencyGraph) (W : World).

Lemma erase_loop recurse_traced recurse spec req deps :
  (∀ a s st, erase_calls (recurse_traced a s st) = recurse a s st.1) →
  ∀ st, erase_calls (specifications_loop_traced recurse_traced spec req deps st)
        = specifications_loop recurse spec req deps st.1.
Proof.
  intros Hrec. induction deps as [|[dep ds] deps IH]; intros st; simpl; [done|].
  destruct (dependency_specification spec req ds st.1) as [dspec| |]; simpl; try done.
  rewrite <- Hrec. destruct (recurse_traced ds dspec st) as [st1| |]; simpl; auto.
Qed.

Lemma erase_traced fuel a spec st :
  erase_calls (_get_deployment_specifications_traced heap fuel G W a spec st)
  = _get_deployment_specifications heap fuel G W a spec st.1.
Proof.
  revert a spec st. induction fuel as [|fuel IH]; intros a spec st; simpl; [done|].
  destruct (requirements_of heap G a spec) as [req| |]; simpl; try done.
  destruct (source_dependencies_of W a) as [deps| |]; simpl; try done.
  by rewrite (erase_loop _ (_get_deployment_specifications heap fuel G W)).
Qed.

Lemma requirements_of_sound a spec req :
  requirements_of heap G a spec = Ok req → requirements_sound heap G a spec req.
Proof.
  unfold requirements_of, requirements_sound.
  destruct (manifest (heap a)) as [m|] eqn:Hm; [|done].
  destruct (manifest_inputGroups m) as [igs|] eqn:Higs.
  2:{ intros [= <-] d x Hd. by rewrite lookup_empty in Hd. }
  destruct (inputGroups spec) as [names|] eqn:Hnames; [|done].
  intros Hfold. revert Hfold.
  apply (foldlM_inv (fun req => ∀ d x, req !! d = Some x →
     ∃ names0 gn, Some names = Some names0 ∧ gn ∈ names0 ∧
       declares_required heap G a gn d = true)).
  2:{ intros d x Hd. by rewrite lookup_empty in Hd. }
  intros req0 gn req1 Hgn%elem_of_elements Hreq0. unfold add_group_requirements.
  destruct (get gn igs) as [group|] eqn:Hgroup; [|by intros [= <-]].
  destruct (requires group) as [aliases|] eqn:Hal; [|by intros [= <-]].
  apply (foldlM_inv (fun req => ∀ d x, req !! d = Some x →
     ∃ names0 gn, Some names = Some names0 ∧ gn ∈ names0 ∧
       declares_required heap G a gn d = true)); [|done].
  intros req2 alias req3 Halias Hreq2. unfold add_requirement.
  destruct (get alias aliases) as [r|]; simpl; [|done].
  destruct (dependencies m) as [declared|] eqn:Hdecl; simpl; [|done].
  destruct (get alias declared) as [dep|] eqn:Hdep; simpl; [|done].
  destruct (package dep) as [p|] eqn:Hp; simpl; [|done].
  destruct (_repository_sources G !! p) as [ds|] eqn:Hds; simpl; [|done].
  destruct (get a (_graph G)) as [ns|]; simpl; [|done].
  case_bool_decide; [|done]. intros [= <-] d x.
  destruct (decide (ds = d)) as [->|Hne].
  - intros _. exists names, gn. split_and!; try done.
    unfold declares_required. rewrite Hm, Higs, Hdecl, Hgroup, Hal.
    apply existsb_exists. exists alias. split; [by apply list_elem_of_In|].
    rewrite Hdep, Hp. by apply bool_decide_eq_true.
  - rewrite lookup_insert_ne by done. apply Hreq2.
Qed.

Lemma required_in_calls_app calls more d :
  required_in_calls heap G (calls ++ more) d = false →
  required_in_calls heap G calls d = false.
Proof.
  unfold required_in_calls. rewrite existsb_app. by intros [? ?]%orb_false_iff.
Qed.

Lemma required_in_calls_intro calls a spec names gn d :
  (a, spec) ∈ calls → inputGroups spec = Some names → gn ∈ names →
  declares_required heap G a gn d = true →
  required_in_calls heap G calls d = true.
Proof.
  intros Hin Hn Hgn Hd. apply existsb_exists. exists (a, spec).
  split; [by apply list_elem_of_In|]. rewrite Hn. apply existsb_exists.
  exists gn. split; [|done]. by apply list_elem_of_In, elem_of_elements.
Qed.

Lemma loop_inv recurse a spec req :
  (∀ d s st, call_post heap G d s st (recurse d s st)) →
  requirements_sound heap G a spec req →
  ∀ deps st st',
    specifications_loop_traced recurse spec req deps st = Ok st' →
    specifications_inv heap G st → (a, spec) ∈ st.2 →
    specifications_inv heap G st' ∧ ∃ more, st'.2 = st.2 ++ more.
Proof.
  intros Hrec Hsound deps. induction deps as [|[dep ds] deps IH]; intros st st'; simpl.
  - intros [= <-] Hinv _. split; [done|]. exists []. by rewrite app_nil_r.
  - destruct (dependency_specification spec req ds st.1) as [dspec| |] eqn:Hds;
      simpl; try done.
    destruct (recurse ds dspec st) as [st1| |] eqn:Hcall; simpl; try done.
    intros Hloop Hinv Hin.
    destruct (Hrec ds dspec st st1 Hcall Hinv) as (Hinv1 & more1 & Hmore1).
    { intros Hne Hreq. apply required_in_calls_app in Hreq.
      assert (req !! ds = None) as Hnone.
      { destruct (req !! ds) as [x|] eqn:Hx; [|done].
        destruct (Hsound ds x Hx) as (names & gn & Hn & Hgn & Hd).
        by rewrite (required_in_calls_intro _ _ _ _ _ _ Hin Hn Hgn Hd) in Hreq. }
      unfold dependency_specification in Hds. rewrite Hnone in Hds. simpl in Hds.
      destruct (get ds st.1) as [previous|] eqn:Hprev.
      - rewrite (Hinv ds previous Hne Hprev Hreq) in Hds. simpl in Hds.
        by injection Hds as <-.
      - simpl in Hds. by injection Hds as <-. }
    destruct (IH st1 st' Hloop Hinv1) as (Hinv' & more & Hmore).
    { rewrite Hmore1. set_solver. }
    split; [done|]. exists ([(ds, dspec)] ++ more1 ++ more).
    rewrite Hmore, Hmore1, <- app_assoc. done.
Qed.

Lemma traced_inv fuel a spec st :
  call_post heap G a spec st (_get_deployment_specifications_traced heap fuel G W a spec st).
Proof.
  revert a spec st. induction fuel as [|fuel IH]; intros a spec st st'; simpl; [done|].
  destruct (requirements_of heap G a spec) as [req| |] eqn:Hreq; simpl; try done.
  destruct (source_dependencies_of W a) as [deps| |]; simpl; try done.
  intros Hloop Hinv Hpre.
  eapply (loop_inv _ a spec req IH) in Hloop as (Hinv' & more & Hmore).
  - split; [done|]. exists more. rewrite Hmore. simpl. by rewrite <- app_assoc.
  - by apply requirements_of_sound.
  - intros d sd Hne. simpl. destruct (decide (a = d)) as [->|Had].
    + rewrite get_set_eq. intros [= <-]. by apply Hpre.
    + rewrite get_set_ne by done. intros Hget Hr. eapply Hinv; [done..|].
      by eapply required_in_calls_app.
  - simpl. set_solver.
Qed.

End c3.
End SpecificationFacts.

(** ** Propagation of deployment specifications: the fuel it takes *)

Section unrequired.
Import OrderedDict OrderedDictFacts SpecificationFacts.

Section c3_top.
Context `{VersionConstraint} (heap : ref → AppSource).
Variables (G : AppDependencyGraph) (W : World).

Lemma loop_traced_fuel recurse spec req deps :
  (∀ dep d s st, (dep, d) ∈ deps → recurse d s st ≠ OutOfFuel) →
  ∀ st, specifications_loop_traced recurse spec req deps st ≠ OutOfFuel.
Proof.
  induction deps as [|[dep ds] deps IH]; intros Hrec st; simpl; [done|].
  destruct (dependency_specification spec req ds st.1) as [dspec| |] eqn:Hds;
    simpl; try done.
  - destruct (recurse ds dspec st) as [st1| |] eqn:Hcall; simpl; try done.
    + apply IH. intros ? ? ? ? ?. eapply Hrec. by right.
    + exfalso. eapply Hrec; [left|done].
  - unfold dependency_specification in Hds.
    destruct (get ds st.1) as [previous|]; simpl in Hds; [|done].
    by destruct (inputGroups previous).
Qed.

Lemma traced_fuel rank fuel a spec st :
  ranked W rank → rank a < fuel →
  _get_deployment_specifications_traced heap fuel G W a spec st ≠ OutOfFuel.
Proof.
  intros Hrank. revert a spec st.
  induction fuel as [|fuel IH]; intros a spec st Hlt; simpl; [lia|].
  destruct (requirements_of heap G a spec) as [req| |] eqn:Hreq; simpl; try done.
  - destruct (source_dependencies_of W a) as [deps| |] eqn:Hdeps; simpl; try done.
    + apply loop_traced_fuel. intros dep d s st' Hin. apply IH.
      unfold source_dependencies_of in Hdeps.
      destruct (source_dependencies W !! a) as [l|] eqn:Hl; [|done].
      injection Hdeps as ->. specialize (Hrank a deps dep d Hl Hin). lia.
    + unfold source_dependencies_of in Hdeps.
      by destruct (source_dependencies W !! a).
  - revert Hreq. unfold requirements_of.
    destruct (manifest (heap a)) as [m|]; [|done].
    destruct (manifest_inputGroups m) as [igs|]; [|done].
    destruct (inputGroups spec) as [names|]; [|done].
    generalize (elements names) (∅ : gmap ref (gset string)).
    intros l. induction l as [|gn l IHl]; intros req0; simpl; [done|].
    destruct (add_group_requirements G a (dependencies m) igs req0 gn)
      as [req1| |] eqn:Hg; simpl; try done; [by apply IHl|].
    intros _. revert Hg. unfold add_group_requirements.
    destruct (get gn igs) as [group|]; [|done].
    destruct (requires group) as [aliases|]; [|done].
    generalize (keys aliases) req0. intros l2.
    induction l2 as [|alias l2 IH2]; intros req2; simpl; [done|].
    destruct (add_requirement G a (dependencies m) aliases req2 alias)
      as [req3| |] eqn:Ha; simpl; try done; [by apply IH2|].
    intros _. revert Ha. unfold add_requirement.
    destruct (get alias aliases); simpl; [|done].
    destruct (dependencies m) as [declared|]; simpl; [|done].
    destruct (get alias declared) as [dep|]; simpl; [|done].
    destruct (package dep) as [p|]; simpl; [|done].
    destruct (_repository_sources G !! p); simpl; [|done].
    destruct (get a (_graph G)); simpl; [|done].
    by case_bool_decide.
Qed.

Lemma get_deployment_specifications_fuel rank fuel spec :
  ranked W rank → rank (_root G) < fuel →
  get_deployment_specifications heap fuel G W spec ≠ OutOfFuel.
Proof.
  intros Hrank Hlt. unfold get_deployment_specifications.
  destruct (inputGroups spec) as [names|]; [|done].
  case_bool_decide; [done|].
  pose proof (erase_traced heap G W fuel (_root G) spec ([], [])) as He.
  simpl in He. rewrite <- He.
  pose proof (traced_fuel rank fuel (_root G) spec ([], []) Hrank Hlt) as Hne.
  by destruct (_get_deployment_specifications_traced _ _ _ _ _ _ _).
Qed.

End c3_top.

End unrequired.

(** ** Asset exclusion rules *)

Section exclusion.

Lemma size_difference_0 (workload excluded_roles : gset string) :
  size (workload ∖ excluded_roles) = 0 ↔ workload ⊆ excluded_roles.
Proof.
  rewrite size_empty_iff. split.
  - intros He x Hx. destruct (decide (x ∈ excluded_roles)) as [|Hn]; [done|].
    exfalso. apply (not_elem_of_empty (C := gset string) x). apply He.
    by apply elem_of_difference.
  - intros Hs. apply elem_of_equiv_empty. intros x [Hx Hn]%elem_of_difference.
    by apply Hn, Hs.
Qed.

Lemma gather_exclusion_patterns_filter rules workload :
  gather_exclusion_patterns rules workload
  = (filter (fun rule => workload ⊆ rule.2) rules).*1.
Proof.
  unfold gather_exclusion_patterns.
  cut (∀ acc,
    foldl (fun exclusion_patterns '(pattern, excluded_roles) =>
             if bool_decide (size (workload ∖ excluded_roles) = 0)
             then exclusion_patterns ++ [pattern] else exclusion_patterns)
          acc rules
    = acc ++ (filter (fun rule => workload ⊆ rule.2) rules).*1).
  { intros Hc. apply (Hc []). }
  induction rules as [|[pattern roles] rules IH]; intros acc; simpl.
  - by rewrite app_nil_r.
  - rewrite IH, filter_cons. simpl. case_bool_decide as Hsz.
    + apply size_difference_0 in Hsz. rewrite decide_True by done.
      simpl. by rewrite <- app_assoc.
    + rewrite decide_False; [done|]. intros Hsub. by apply Hsz, size_difference_0.
Qed.

(** X1 (on claim C6): a rule's pattern is gathered exactly when the workload of the
    specification minus the rule's excluded workloads is empty, that is
    when every workload of the specification is one of the rule's excluded
    workloads. *)
Theorem exclusion_pattern_selected (workload : gset string)
    (pattern : list pattern_part) :
  (pattern ∈ gather_exclusion_patterns _exclusion_rule workload ↔
   ∃ excluded_roles,
     (pattern, excluded_roles) ∈ _exclusion_rule ∧
     size (workload ∖ excluded_roles) = 0) ∧
  (∀ excluded_roles,
     size (workload ∖ excluded_roles) = 0 ↔
     ∀ role, role ∈ workload → role ∈ excluded_roles).
Proof.
  pose proof (size_difference_0 workload) as Hsz.
  split.
  - rewrite gather_exclusion_patterns_filter, list_elem_of_fmap. split.
    + intros ([p roles] & Heq & Hf). simpl in Heq. subst p.
      apply list_elem_of_filter in Hf as [Hsub Hin].
      exists roles. split; [done|]. by apply Hsz.
    + intros (roles & Hin & Hsub). exists (pattern, roles). split; [done|].
      apply list_elem_of_filter. split; [|done]. by apply Hsz.
  - intros roles. rewrite Hsz. done.
Qed.

End exclusion.

(** ** Removing an app from a server class *)

Section removal.
Import OrderedDict OrderedDictFacts.
Context `{VersionConstraint}.
Variable remove_installation :
  AppInstallation → list (string * AppInstallation) → list (string * AppInstallation).

Lemma set_get_same {K V} `{EqDecision K} (k : K) (v : V) d :
  get k d = Some v → set k v d = d.
Proof.
  induction d as [|[k' v'] d IH]; simpl; [done|].
  destruct (decide (k = k')) as [->|Hne].
  - by intros [= ->].
  - intros Hget. by rewrite IH.
Qed.

Lemma remove_app_blocked self W app_id installation :
  get app_id (apps self) = Some installation →
  dependents installation ≠ [] →
  AppServerClass_remove_app remove_installation self W app_id
  = (self,
     set_status STATUS_ERROR_DEPENDENCY_REQUIRED
       (set_dependency_requirements (dependents installation)
          (log_error (ErrStillRequired app_id (dependents installation)) W))).
Proof.
  intros Hget Hdep. unfold AppServerClass_remove_app. rewrite Hget.
  rewrite bool_decide_true; [done|]. destruct (dependents installation); simpl; [done|lia].
Qed.

Lemma collection_remove_app_blocked collection W app_id server_classes :
  (∀ server_class_name, server_class_name ∈ server_classes →
     ∃ server_class installation,
       get server_class_name collection = Some server_class ∧
       get app_id (apps server_class) = Some installation ∧
       dependents installation ≠ []) →
  ∃ W',
    AppServerClassCollection_remove_app remove_installation collection W app_id
      server_classes = Ok (collection, W') ∧
    length (errors W') = length (errors W) + length server_classes.
Proof.
  unfold AppServerClassCollection_remove_app.
  cut (∀ W found,
    (∀ n, n ∈ server_classes →
       ∃ server_class installation,
         get n collection = Some server_class ∧
         get app_id (apps server_class) = Some installation ∧
         dependents installation ≠ []) →
    ∃ W' found',
      foldlM (remove_app_step remove_installation app_id) (collection, W, found)
        server_classes = Ok (collection, W', found') ∧
      (found' = false → found = false ∧ server_classes = []) ∧
      warnings W' = warnings W ∧
      length (errors W') = length (errors W) + length server_classes).
  { intros Hc Hall. destruct (Hc W false Hall) as (W' & found' & -> & Hf & Hw & He).
    simpl. destruct found'.
    - by exists W'.
    - by eexists. }
  induction server_classes as [|n l IH]; intros W0 found Hall; simpl.
  - exists W0, found. split_and!; try done; lia.
  - destruct (Hall n) as (sc & inst & Hsc & Hinst & Hdep); [left|].
    rewrite Hsc. unfold contains. rewrite Hinst.
    rewrite (remove_app_blocked sc W0 app_id inst Hinst Hdep).
    rewrite (set_get_same n sc collection Hsc).
    destruct (IH (set_status STATUS_ERROR_DEPENDENCY_REQUIRED
                    (set_dependency_requirements (dependents inst)
                       (log_error (ErrStillRequired app_id (dependents inst)) W0)))
                 true) as (W' & found' & Hrun & Hf & Hw & He).
    { intros m Hm. apply Hall. by right. }
    exists W', found'. split; [exact Hrun|]. split_and!.
    + intros ->. by destruct Hf.
    + by rewrite Hw.
    + rewrite He. simpl. rewrite length_app. simpl. lia.
Qed.

(** X2 (on claim C8): when the installation of the app in a server class has a
    dependent, [AppServerClass.remove_app] leaves the server class as it
    is, logs the error that lists the dependents, hands the dependents to
    the payload and sets the status; it changes the server class only for
    an installation without dependents, by [remove_installation]; and
    [AppServerClassCollection.remove_app] over server classes that all
    hold the app with a dependent leaves the collection as it is and logs
    one error for each. *)
Theorem remove_app_refused_while_dependents (self : AppServerClass) (W : World)
    (app_id : string) (installation : AppInstallation) :
  get app_id (apps self) = Some installation →
  (dependents installation ≠ [] →
     ∃ W',
       AppServerClass_remove_app remove_installation self W app_id = (self, W') ∧
       errors W' = errors W ++ [ErrStillRequired app_id (dependents installation)] ∧
       dependency_requirements W' = dependents installation ∧
       status W' = STATUS_ERROR_DEPENDENCY_REQUIRED ∧
       ∀ collection server_class_name,
         get server_class_name collection = Some self →
         ∃ W'',
           AppServerClassCollection_remove_app remove_installation collection W
             app_id [server_class_name] = Ok (collection, W'') ∧
           length (errors W'') = length (errors W) + 1) ∧
  (dependents installation = [] →
     AppServerClass_remove_app remove_installation self W app_id
     = ({| server_class_name := server_class_name self;
           server_class_workload := server_class_workload self;
           apps := remove_installation installation (apps self) |}, W)) ∧
  (apps (AppServerClass_remove_app remove_installation self W app_id).1 ≠ apps self →
     dependents installation = []).
Proof.
  intros Hget. split_and!.
  - intros Hdep. eexists. split; [by apply remove_app_blocked|]. simpl.
    split_and!; try done.
    intros collection n Hn.
    apply (collection_remove_app_blocked collection W app_id [n]).
    intros m ->%list_elem_of_singleton. by exists self, installation.
  - intros Hdep. unfold AppServerClass_remove_app. by rewrite Hget, Hdep.
  - intros Hne. destruct (dependents installation) as [|x l] eqn:Hdep; [done|].
    rewrite (remove_app_blocked self W app_id installation Hget) in Hne.
    + done.
    + by rewrite Hdep.
Qed.

End removal.

(** [remove_app_refused_while_dependents] on the scenario: [pkg-a] stays
    installed while [pkg-c] depends on it. *)
Lemma remove_app_refused_witness :
  ∃ W',
    AppServerClass_remove_app Example.drop_installation Example.search_heads
      (@empty_world Example.versions) "pkg-a" = (Example.search_heads, W') ∧
    errors W' = [ErrStillRequired "pkg-a" ["pkg-c"]].
Proof.
  destruct (remove_app_refused_while_dependents (H := Example.versions)
              Example.drop_installation
              Example.search_heads empty_world "pkg-a"
              {| installation_id := "pkg-a"; dependents := ["pkg-c"] |} eq_refl)
    as (Hblocked & _ & _).
  destruct Hblocked as (W' & Hrun & Herr & _); [discriminate|].
  exists W'. split; [exact Hrun|exact Herr].
Defined.

(** ** The description of a dependency graph *)

Module DescriptionFacts.

Lemma append_cons a s t : String a s +:+ t = String a (s +:+ t).
Proof. reflexivity. Qed.

Lemma append_assoc s t u : (s +:+ t) +:+ u = s +:+ (t +:+ u).
Proof.
  induction s as [|a s IH]; [reflexivity|]. by rewrite !append_cons, IH.
Qed.

Lemma append_nil_r s : s +:+ EmptyString = s.
Proof.
  induction s as [|a s IH]; [reflexivity|]. by rewrite append_cons, IH.
Qed.

Lemma string_concat_app l1 l2 :
  string_concat (l1 ++ l2) = string_concat l1 +:+ string_concat l2.
Proof.
  induction l1 as [|s l1 IH]; simpl; [reflexivity|].
  by rewrite IH, append_assoc.
Qed.

Lemma ranked_check `{VersionConstraint} (W : World) (rank : ref → nat) :
  rankedb W rank = true → ranked W rank.
Proof.
  unfold rankedb. intros Hall a l dep d Hl Hin.
  rewrite forallb_forall in Hall.
  specialize (Hall (a, l)). simpl in Hall.
  rewrite forallb_forall in Hall.
  apply Nat.ltb_lt, (Hall (ltac:(by apply list_elem_of_In, elem_of_map_to_list)) (dep, d)).
  by apply list_elem_of_In.
Qed.

Section describe.
Context `{VersionConstraint} (heap : ref → AppSource).
Variable W : World.

Lemma dependency_line_entry level dep d :
  dependency_line heap level dep d = entry_line heap (level, dep, d).
Proof. reflexivity. Qed.

Lemma describe_loop_entries describe recurse level deps out :
  (∀ d, describe d (level + 1)
        = es ← recurse d (level + 1); Ok (string_concat (entry_line heap <$> es))) →
  _describe_loop heap describe level deps out
  = es ← entries_loop recurse level deps;
    Ok (out +:+ string_concat (entry_line heap <$> es)).
Proof.
  intros Hrec. revert out. induction deps as [|[dep d] deps IH]; intros out; simpl.
  - by rewrite append_nil_r.
  - rewrite Hrec. destruct (recurse d (level + 1)) as [below| |]; simpl; try done.
    rewrite IH. destruct (entries_loop recurse level deps) as [others| |]; simpl;
      try done.
    f_equal. rewrite fmap_app, string_concat_app, dependency_line_entry.
    by rewrite !append_assoc.
Qed.

Lemma describe_entries fuel a level :
  1 ≤ level →
  _describe heap fuel W a level
  = es ← dependency_entries fuel W a level;
    Ok ((if bool_decide (level = 1) then root_line heap a else EmptyString)
        +:+ string_concat (entry_line heap <$> es)).
Proof.
  revert a level. induction fuel as [|fuel IH]; intros a level Hlevel; simpl; [done|].
  destruct (source_dependencies_of W a) as [deps| |]; simpl; try done.
  apply describe_loop_entries. intros d.
  rewrite IH by lia. rewrite bool_decide_false by lia. done.
Qed.

Lemma entries_loop_fuel recurse level deps :
  (∀ dep d, (dep, d) ∈ deps → recurse d (level + 1) ≠ OutOfFuel) →
  entries_loop recurse level deps ≠ OutOfFuel.
Proof.
  induction deps as [|[dep d] deps IH]; intros Hrec; simpl; [done|].
  destruct (recurse d (level + 1)) as [below| |] eqn:Hd; simpl; try done.
  - destruct (entries_loop recurse level deps) as [others| |] eqn:Ho; simpl;
      try done.
    exfalso. apply IH; [|done]. intros ? ? ?. eapply Hrec. by right.
  - exfalso. eapply Hrec; [left|done].
Qed.

Lemma dependency_entries_fuel rank fuel a level :
  ranked W rank → rank a < fuel →
  dependency_entries fuel W a level ≠ OutOfFuel.
Proof.
  intros Hrank. revert a level.
  induction fuel as [|fuel IH]; intros a level Hlt; simpl; [lia|].
  unfold source_dependencies_of.
  destruct (source_dependencies W !! a) as [deps|] eqn:Hdeps; simpl; [|done].
  apply entries_loop_fuel. intros dep d Hin. apply IH.
  specialize (Hrank a deps dep d Hdeps Hin). lia.
Qed.

End describe.
End DescriptionFacts.

Section description_claim.
Import DescriptionFacts.

(** X3 (on claim C9): the first use of [description] computes the text and
    stores it, and every later use returns the stored text. The text is
    the root's line, prefixed ['|-- '], followed by one
    [name@version (accepting range)] line for each dependency that the
    depth-first traversal meets, in declaration order, a source that is
    reached along several paths being described once for each path; the
    line of a dependency at depth [n] is one bar, [n] times three spaces,
    and the ['|-- '] marker before the label. When the dependencies are
    acyclic the traversal ends within a fuel above the rank of the root. *)
Theorem description_draws_tree `{VersionConstraint} (heap : ref → AppSource)
    (rank : ref → nat) (fuel : nat) (G : AppDependencyGraph) (W : World) :
  _description G = None →
  ranked W rank → rank (_root G) < fuel →
  description heap fuel G W ≠ OutOfFuel ∧
  ∀ text G',
    description heap fuel G W = Ok (text, G') →
    (∃ entries,
       dependency_entries fuel W (_root G) 1 = Ok entries ∧
       text = root_line heap (_root G)
              +:+ string_concat (entry_line heap <$> entries)) ∧
    (∀ level dependency source,
       entry_line heap (level, dependency, source)
       = "|" +:+ string_repeat "   " level +:+ "|-- " +:+
         dependency_label heap dependency source) ∧
    G' = with_description (Some text) G ∧
    ∀ fuel' W', description heap fuel' G' W' = Ok (text, G').
Proof.
  intros Hnone Hrank Hlt. unfold description. rewrite Hnone.
  rewrite describe_entries by done. simpl.
  pose proof (dependency_entries_fuel W rank fuel (_root G) 1 Hrank Hlt) as Hfuel.
  destruct (dependency_entries fuel W (_root G) 1) as [entries| |]; simpl;
    try done.
  split; [done|]. intros text G' [= <- <-]. split_and!.
  - by exists entries.
  - done.
  - done.
  - done.
Qed.

(** [description_draws_tree] on the example repository. *)
Lemma description_draws_tree_witness :
  description Example.heap 3 Example.graph Example.world
  = Ok (Example.description_text,
        with_description (Some Example.description_text) Example.graph) ∧
  description Example.heap 0
    (with_description (Some Example.description_text) Example.graph)
    Example.world
  = Ok (Example.description_text,
        with_description (Some Example.description_text) Example.graph).
Proof.
  assert (description Example.heap 3 Example.graph Example.world
          = Ok (Example.description_text,
                with_description (Some Example.description_text) Example.graph))
    as Hrun by (vm_compute; reflexivity).
  destruct (description_draws_tree Example.heap Example.rank 3 Example.graph
              Example.world) as (_ & Hall).
  { vm_compute; reflexivity. }
  { apply ranked_check. vm_compute. reflexivity. }
  { vm_compute. lia. }
  destruct (Hall _ _ Hrun) as (_ & _ & _ & Hcached).
  split; [exact Hrun|]. apply Hcached.
Defined.

(** On claim C9, at depth two: on the example repository the text
    differs from the one whose lines carry one ['|   '] unit for each
    level. *)
Lemma description_not_accumulating_bars :
  description Example.heap 3 Example.graph Example.world
  = Ok (Example.description_text,
        with_description (Some Example.description_text) Example.graph) ∧
  dependency_entries 3 Example.world "app" 1 = Ok Example.description_entries ∧
  Example.description_text
  = root_line Example.heap "app"
    +:+ string_concat (entry_line Example.heap <$> Example.description_entries) ∧
  Example.description_text
  ≠ root_line Example.heap "app"
    +:+ string_concat (entry_line_stated Example.heap <$> Example.description_entries).
Proof.
  split; [vm_compute; reflexivity|]. split; [vm_compute; reflexivity|].
  split; [vm_compute; reflexivity|]. vm_compute. discriminate.
Qed.

End description_claim.

(** ** Graph construction *)

Module ConstructionFacts.
Import OrderedDict OrderedDictFacts.

Lemma elem_of_OrderedSet (l : list ref) x : x ∈ OrderedSet l ↔ x ∈ l.
Proof.
  unfold OrderedSet.
  cut (∀ acc, x ∈ foldl (fun acc x => if bool_decide (x ∈ acc) then acc
                                      else acc ++ [x]) acc l ↔ x ∈ acc ∨ x ∈ l).
  { intros Hc. rewrite Hc, elem_of_nil. tauto. }
  induction l as [|y l IH]; intros acc; simpl.
  - rewrite elem_of_nil. tauto.
  - rewrite IH, elem_of_cons. case_bool_decide as Hy.
    + split; [tauto|]. intros [?|[->|?]]; tauto.
    + rewrite elem_of_app, list_elem_of_singleton. tauto.
Qed.

Lemma deque_pop_None {A} (q : list A) : deque_pop q = None → q = [].
Proof.
  unfold deque_pop. destruct (reverse q) as [|x r] eqn:Hr; [|done].
  intros _. apply (f_equal reverse) in Hr. by rewrite reverse_involutive in Hr.
Qed.

Lemma deque_pop_Some {A} (q q' : list A) x :
  deque_pop q = Some (x, q') → q = q' ++ [x].
Proof.
  unfold deque_pop. destruct (reverse q) as [|y r] eqn:Hr; [done|].
  intros [= -> <-]. apply (f_equal reverse) in Hr.
  by rewrite reverse_involutive, reverse_cons in Hr.
Qed.

Lemma sum_list_cons (x : nat) l : sum_list (x :: l) = x + sum_list l.
Proof. reflexivity. Qed.

Lemma filter_ext_in (P Q : ref → Prop)
    `{!∀ x, Decision (P x)} `{!∀ x, Decision (Q x)} (l : list ref) :
  (∀ z, z ∈ l → Q z ↔ P z) → filter Q l = filter P l.
Proof.
  induction l as [|y l IH]; intros Hext; [done|]. rewrite !filter_cons.
  rewrite IH by (intros z Hz; apply Hext; by right).
  destruct (decide (P y)) as [HP|HP].
  - rewrite decide_True; [done|]. apply Hext; [left|done].
  - rewrite decide_False; [done|]. intros HQ. apply HP, Hext; [left|done].
Qed.

Lemma sum_filter_remove (w : ref → nat) (P Q : ref → Prop)
    `{!∀ x, Decision (P x)} `{!∀ x, Decision (Q x)} (l : list ref) x :
  NoDup l → x ∈ l → P x → (∀ y, Q y ↔ P y ∧ y ≠ x) →
  sum_list (w <$> filter Q l) + w x = sum_list (w <$> filter P l).
Proof.
  intros Hnd Hin HP HQ. induction l as [|y l IH]; [by apply elem_of_nil in Hin|].
  apply NoDup_cons in Hnd as [Hy Hnd]. rewrite !filter_cons.
  apply elem_of_cons in Hin as [->|Hin].
  - rewrite decide_False by (rewrite HQ; tauto). rewrite decide_True by done.
    rewrite fmap_cons, sum_list_cons.
    assert (filter Q l = filter P l) as ->; [|apply Nat.add_comm].
    apply filter_ext_in. intros z Hz. rewrite HQ.
    split; [tauto|]. intros HPz. split; [done|]. intros ->. done.
  - specialize (IH Hnd Hin). destruct (decide (P y)) as [HPy|HPy].
    + rewrite decide_True.
      * rewrite !fmap_cons, !sum_list_cons. lia.
      * rewrite HQ. split; [done|]. intros ->. done.
    + rewrite decide_False; [done|]. rewrite HQ. tauto.
Qed.

Section construction.
Context `{VersionConstraint} (heap : ref → AppSource).
Variable G0 : AppDependencyGraph.

Local Notation R := (depends_on heap G0).
Local Notation reach := (rtc (depends_on heap G0) (_root G0)).

Lemma declared_dependencies_config G a :
  same_configuration G0 G →
  declared_dependencies heap G a = declared_dependencies heap G0 a.
Proof.
  intros (_ & _ & _ & Hos & _). unfold declared_dependencies. by rewrite Hos.
Qed.

Lemma omap_cons_option_list {A B} (f : A → option B) x l :
  omap f (x :: l) = option_list (f x) ++ omap f l.
Proof. simpl. by destruct (f x). Qed.

Lemma get_dependencies_step_spec G a n dep acc repo W :
  same_configuration G0 G →
  (∀ p, select_package (_installed_packages G0) n dep = Some p →
        is_Some (lookup_source (_dependency_sources G0) (_repository_sources G0) p)) →
  (∀ dependency d m,
     resolve_declaration heap G0 (n, dep) = Some (dependency, d) →
     manifest (heap d) = Some m →
     range_match (version dependency) (info_id_version m) = true) →
  (∀ p, lookup_source (_dependency_sources G0) repo p
        = lookup_source (_dependency_sources G0) (_repository_sources G0) p) →
  ∃ repo' W',
    _get_dependencies_step heap G a (acc, repo, W) (n, dep)
    = (acc ++ option_list (resolve_declaration heap G0 (n, dep)), repo', W') ∧
    (∀ p, lookup_source (_dependency_sources G0) repo' p
          = lookup_source (_dependency_sources G0) (_repository_sources G0) p) ∧
    errors W' = errors W ∧
    source_dependencies W' = source_dependencies W.
Proof.
  intros (_ & Hinst & Hds & _ & _) Hres Hver Hrepo.
  unfold _get_dependencies_step, resolve_declaration. simpl.
  rewrite Hinst, Hds.
  destruct (select_package (_installed_packages G0) n dep) as [p|] eqn:Hsel; simpl.
  - destruct (Hres p eq_refl) as [d Hd]. rewrite Hrepo, Hd. simpl.
    assert (∀ q, lookup_source (_dependency_sources G0) (<[p:=d]> repo) q
                 = lookup_source (_dependency_sources G0)
                     (_repository_sources G0) q) as Hrepo'.
    { intros q. rewrite <- Hrepo. unfold lookup_source.
      destruct (_dependency_sources G0 !! q) as [x|] eqn:Hq; [done|].
      destruct (decide (p = q)) as [->|Hne].
      - rewrite lookup_insert_eq. specialize (Hrepo q).
        unfold lookup_source in Hrepo, Hd. rewrite Hq in Hrepo, Hd. congruence.
      - by rewrite lookup_insert_ne. }
    destruct (manifest (heap d)) as [m|] eqn:Hm; simpl.
    + rewrite (Hver dep d m); [|unfold resolve_declaration; simpl|done].
      * by eexists _, _.
      * rewrite Hsel. simpl. rewrite Hd. simpl. by rewrite Hm.
    + eexists _, _. by rewrite app_nil_r.
  - rewrite app_nil_r. destruct (optional dep); by eexists _, _.
Qed.

Lemma get_dependencies_foldl G a l :
  same_configuration G0 G →
  (∀ dependency_name dependency p,
     (dependency_name, dependency) ∈ l →
     select_package (_installed_packages G0) dependency_name dependency = Some p →
     is_Some (lookup_source (_dependency_sources G0) (_repository_sources G0) p)) →
  (∀ declaration dependency d m,
     declaration ∈ l →
     resolve_declaration heap G0 declaration = Some (dependency, d) →
     manifest (heap d) = Some m →
     range_match (version dependency) (info_id_version m) = true) →
  ∀ acc repo W,
    (∀ p, lookup_source (_dependency_sources G0) repo p
          = lookup_source (_dependency_sources G0) (_repository_sources G0) p) →
    ∃ repo' W',
      foldl (_get_dependencies_step heap G a) (acc, repo, W) l
      = (acc ++ omap (resolve_declaration heap G0) l, repo', W') ∧
      (∀ p, lookup_source (_dependency_sources G0) repo' p
            = lookup_source (_dependency_sources G0) (_repository_sources G0) p) ∧
      errors W' = errors W ∧
      source_dependencies W' = source_dependencies W.
Proof.
  intros Hcfg. induction l as [|[n dep] l IH]; intros Hres Hver acc repo W Hrepo.
  - exists repo, W. simpl. by rewrite app_nil_r.
  - destruct (get_dependencies_step_spec G a n dep acc repo W Hcfg)
      as (repo1 & W1 & Hstep & Hrepo1 & He1 & Hs1); [| |done|].
    { intros p. apply Hres. left. }
    { intros ? ? ?. apply Hver. left. }
    destruct (IH (fun n' dep' p' Hin => Hres n' dep' p' (list_elem_of_further _ _ _ Hin))
                 (fun decl dep' d m Hin => Hver decl dep' d m (list_elem_of_further _ _ _ Hin))
                 (acc ++ option_list (resolve_declaration heap G0 (n, dep)))
                 repo1 W1 Hrepo1) as (repo' & W' & Hrun & Hrepo' & He & Hs).
    exists repo', W'. rewrite omap_cons_option_list, app_assoc.
    change (foldl (_get_dependencies_step heap G a) (acc, repo, W) ((n, dep) :: l))
      with (foldl (_get_dependencies_step heap G a)
              (_get_dependencies_step heap G a (acc, repo, W) (n, dep)) l).
    rewrite Hstep, Hrun. split_and!; [done|done|congruence|congruence].
Qed.

Lemma get_dependencies_run G W a :
  same_configuration G0 G →
  is_Some (manifest (heap a)) →
  (∀ dependency_name dependency p,
     (dependency_name, dependency) ∈ declared_dependencies heap G0 a →
     select_package (_installed_packages G0) dependency_name dependency = Some p →
     is_Some (lookup_source (_dependency_sources G0) (_repository_sources G0) p)) →
  (∀ dependency d m,
     (dependency, d) ∈ resolved_dependencies heap G0 a →
     manifest (heap d) = Some m →
     range_match (version dependency) (info_id_version m) = true) →
  ∃ repo' W',
    _get_dependencies heap G W a = Ok (resolved_dependencies heap G0 a, repo', W') ∧
    (∀ p, lookup_source (_dependency_sources G0) repo' p
          = lookup_source (_dependency_sources G0) (_repository_sources G0) p) ∧
    errors W' = errors W ∧
    source_dependencies W' = source_dependencies W.
Proof.
  intros Hcfg [m Hm] Hres Hver.
  unfold _get_dependencies, resolved_dependencies, declared_dependencies in *.
  rewrite Hm in *. destruct (dependencies m) as [decls|] eqn:Hdecl.
  - destruct (get_dependencies_foldl G a
                (get_dependencies_for_target_os (heap a) (_target_os G0)) Hcfg Hres)
      with (acc := @nil (Dependency * ref)) (repo := _repository_sources G) (W := W)
      as (repo' & W' & Hrun & Hrest).
    + intros decl dep d m' Hin Hr. apply Hver.
      apply list_elem_of_omap. by exists decl.
    + by destruct Hcfg as (_ & _ & _ & _ & Hrepo).
    + exists repo', W'. destruct Hcfg as (_ & _ & _ & -> & _).
      rewrite Hrun. done.
  - exists (_repository_sources G), W. split_and!; try done.
    by destruct Hcfg as (_ & _ & _ & _ & Hrepo).
Qed.

Lemma length_omap_le {A B} (f : A → option B) l : length (omap f l) ≤ length l.
Proof.
  induction l as [|x l IH]; [done|].
  rewrite omap_cons_option_list, length_app.
  destruct (f x); cbn; lia.
Qed.

Lemma depends_on_resolved a d :
  R a d ↔ ∃ dependency, (dependency, d) ∈ resolved_dependencies heap G0 a.
Proof.
  unfold depends_on. rewrite list_elem_of_fmap. split.
  - intros ([dep d'] & -> & Hin). by exists dep.
  - intros (dep & Hin). by exists (dep, d).
Qed.

Lemma resolved_inv a dependency d :
  (dependency, d) ∈ resolved_dependencies heap G0 a →
  is_Some (manifest (heap d)) ∧
  ∃ p, lookup_source (_dependency_sources G0) (_repository_sources G0) p = Some d.
Proof.
  unfold resolved_dependencies. intros ([n dep] & Hin & Hr)%list_elem_of_omap.
  unfold resolve_declaration in Hr. simpl in Hr.
  destruct (select_package _ n dep) as [p|]; simpl in Hr; [|done].
  destruct (lookup_source _ _ p) as [d'|] eqn:Hd; simpl in Hr; [|done].
  destruct (manifest (heap d')) as [m|] eqn:Hm; simpl in Hr; [|done].
  injection Hr as _ <-. split; [by rewrite Hm|]. by exists p.
Qed.

Lemma reach_manifest a :
  is_Some (manifest (heap (_root G0))) → reach a → is_Some (manifest (heap a)).
Proof.
  intros Hroot [<-|(y & _ & (dep & Hin)%depends_on_resolved)]%rtc_inv_r; [done|].
  by apply resolved_inv in Hin as [? _].
Qed.

Lemma reach_candidates a : reach a → a ∈ candidates G0.
Proof.
  unfold candidates. rewrite elem_of_elements.
  intros [<-|(y & _ & (dep & Hin)%depends_on_resolved)]%rtc_inv_r.
  - apply elem_of_union_l, elem_of_union_l. by apply elem_of_singleton.
  - apply resolved_inv in Hin as [_ [p Hp]]. unfold lookup_source in Hp.
    destruct (_dependency_sources G0 !! p) as [x|] eqn:Hx.
    + injection Hp as ->. apply elem_of_union_l, elem_of_union_r.
      apply elem_of_map_img. by exists p.
    + apply elem_of_union_r. apply elem_of_map_img. by exists p.
Qed.

(** What the invariant says of [_dependents]. *)
Local Notation dependents_ok deps :=
  (∀ d l, (d, l) ∈ deps →
          is_Some (manifest (heap d)) ∧
          ∀ dependency a, (dependency, a) ∈ l →
            reach a ∧ (dependency, d) ∈ resolved_dependencies heap G0 a).

Lemma add_dependents_ok x rs deps :
  reach x →
  (∀ dependency d, (dependency, d) ∈ rs →
                   (dependency, d) ∈ resolved_dependencies heap G0 x) →
  dependents_ok deps → dependents_ok (add_dependents x deps rs).
Proof.
  intros Hx. unfold add_dependents. revert deps.
  induction rs as [|[dep ds] rs IH]; intros deps Hrs Hok; simpl; [done|].
  apply IH.
  { intros ? ? ?. apply Hrs. by right. }
  intros d l [[-> ->]|Hin]%elem_of_set; [|by apply Hok].
  assert ((dep, ds) ∈ resolved_dependencies heap G0 x) as Hres by (apply Hrs; left).
  split; [by apply resolved_inv in Hres as [? _]|].
  intros dep' a [Hold|Hnew]%elem_of_app.
  2:{ apply list_elem_of_singleton in Hnew. by injection Hnew as -> ->. }
  destruct (get ds deps) as [old|] eqn:Hget; simpl in Hold.
  - apply get_Some_elem in Hget. by apply (Hok ds old).
  - by apply elem_of_nil in Hold.
Qed.

Lemma add_source_loop_spec errors0 fuel :
  is_Some (manifest (heap (_root G0))) →
  resolvable heap G0 → versions_match heap G0 →
  ∀ queue G W,
    add_source_inv heap G0 errors0 queue G W →
    iterations_left heap G0 (_graph G) queue < fuel →
    ∃ G' W',
      _add_source_loop heap fuel queue G W = Ok (G', W') ∧
      add_source_inv heap G0 errors0 [] G' W'.
Proof.
  intros Hroot Hres Hver. induction fuel as [|fuel IH]; intros queue G W Hinv Hfuel;
    [lia|].
  simpl. destruct (deque_pop queue) as [[x q']|] eqn:Hpop.
  2:{ apply deque_pop_None in Hpop as ->. by exists G, W. }
  apply deque_pop_Some in Hpop as ->.
  destruct Hinv as (Hcfg & Hnd & Hkeys & Hqueue & Hgraph & Hclosed & Hrootin & Herr & Hdeps).
  unfold iterations_left in Hfuel. rewrite length_app in Hfuel.
  change (length [x]) with 1 in Hfuel.
  destruct (contains x (_graph G)) eqn:Hx.
  - apply contains_true in Hx. apply IH.
    + split_and!; try done.
      * intros q Hq. apply Hqueue, elem_of_app. by left.
      * intros a d Ha Had.
        destruct (Hclosed a d Ha Had) as [?|[?|Hs%list_elem_of_singleton]%elem_of_app];
          subst; auto.
      * destruct Hrootin as [?|[?|Heq%list_elem_of_singleton]%elem_of_app]; auto.
        left. by rewrite Heq.
    + unfold iterations_left. lia.
  - apply contains_false in Hx.
    assert (reach x) as Hrx by (apply Hqueue, elem_of_app; right; left).
    destruct (get_dependencies_run G W x Hcfg) as (repo' & W1 & -> & Hrepo' & He1 & Hs1).
    { by apply reach_manifest. }
    { intros n dep p. by apply Hres. }
    { intros dep d m. by apply Hver. }
    simpl.
    set (rs := resolved_dependencies heap G0 x) in *.
    apply IH.
    + destruct Hcfg as (Hc1 & Hc2 & Hc3 & Hc4 & Hc5).
      split_and!; simpl.
      * unfold same_configuration. simpl. by split_and!.
      * by apply NoDup_keys_set.
      * intros k [->|Hk]%elem_of_keys_set; auto.
      * unfold deque_extendleft. intros q [Hq|Hq]%elem_of_app.
        -- rewrite elem_of_reverse in Hq. eapply rtc_r; [exact Hrx|]. exact Hq.
        -- apply Hqueue, elem_of_app. by left.
      * intros a [->|Ha]%elem_of_keys_set.
        -- rewrite get_set_eq. split; [done|]. apply lookup_insert_eq.
        -- assert (x ≠ a) as Hne by (intros ->; done).
           rewrite get_set_ne by done. rewrite lookup_insert_ne by done.
           rewrite Hs1. by apply Hgraph.
      * intros a d [->|Ha]%elem_of_keys_set Had.
        -- right. unfold deque_extendleft. apply elem_of_app. left.
           rewrite elem_of_reverse. exact Had.
        -- destruct (Hclosed a d Ha Had)
             as [?|[?|Hs%list_elem_of_singleton]%elem_of_app]; subst.
           ++ left. apply elem_of_keys_set. by right.
           ++ right. unfold deque_extendleft. apply elem_of_app. by right.
           ++ left. apply elem_of_keys_set. by left.
      * destruct Hrootin as [?|[?|Heq%list_elem_of_singleton]%elem_of_app].
        -- left. apply elem_of_keys_set. by right.
        -- right. unfold deque_extendleft. apply elem_of_app. by right.
        -- left. apply elem_of_keys_set. by left.
      * congruence.
      * by apply add_dependents_ok.
    + simpl. unfold iterations_left, remaining, deque_extendleft.
      rewrite length_app, length_reverse, length_fmap.
      pose proof (sum_filter_remove (weight heap G0)
                    (fun a => a ∉ keys (_graph G))
                    (fun a => a ∉ keys (set x (OrderedSet rs.*2) (_graph G)))
                    (candidates G0) x) as Hsum.
      unfold remaining in Hfuel. rewrite <- Hsum in Hfuel.
      * unfold weight at 2 in Hfuel.
        pose proof (length_omap_le (resolve_declaration heap G0)
                      (declared_dependencies heap G0 x)) as Hle.
        fold (resolved_dependencies heap G0 x) in Hle. fold rs in Hle.
        lia.
      * apply NoDup_elements.
      * by apply reach_candidates.
      * done.
      * intros y. rewrite elem_of_keys_set. split.
        -- intros Hn. split; [tauto|]. intros ->. tauto.
        -- intros [? ?] [?|?]; done.
Qed.

Lemma add_source_spec fuel W :
  _graph G0 = [] → _dependents G0 = [] →
  is_Some (manifest (heap (_root G0))) →
  resolvable heap G0 → versions_match heap G0 →
  construction_fuel heap G0 ≤ fuel →
  ∃ G W',
    _add_source heap fuel (_root G0) G0 W = Ok (G, W') ∧
    add_source_inv heap G0 (errors W) [] G W'.
Proof.
  intros Hg Hd Hroot Hres Hver Hfuel. unfold _add_source.
  apply add_source_loop_spec; try done.
  - split_and!.
    + by unfold same_configuration.
    + rewrite Hg. apply NoDup_nil_2.
    + rewrite Hg. intros k Hk. by apply elem_of_nil in Hk.
    + intros q ->%list_elem_of_singleton. done.
    + rewrite Hg. intros a Ha. by apply elem_of_nil in Ha.
    + rewrite Hg. intros a d Ha. by apply elem_of_nil in Ha.
    + right. left.
    + done.
    + rewrite Hd. intros d l Hin. by apply elem_of_nil in Hin.
  - rewrite Hg. unfold construction_fuel in Hfuel. lia.
Qed.

Lemma inv_keys_reach errors0 G W x :
  add_source_inv heap G0 errors0 [] G W →
  x ∈ keys (_graph G) ↔ reach x.
Proof.
  intros (_ & _ & Hkeys & _ & _ & Hclosed & Hrootin & _). split; [apply Hkeys|].
  intros Hreach. revert x Hreach. apply rtc_ind_r.
  - destruct Hrootin as [?|Hn]; [done|]. by apply elem_of_nil in Hn.
  - intros y z _ Hyz IH.
    destruct (Hclosed y z IH Hyz) as [?|Hn]; [done|]. by apply elem_of_nil in Hn.
Qed.

Lemma inv_edge errors0 queue G W a b :
  add_source_inv heap G0 errors0 queue G W →
  edge (_graph G) a b → reach a ∧ R a b.
Proof.
  intros (_ & _ & Hkeys & _ & Hgraph & _) (ns & Hget & Hb).
  assert (a ∈ keys (_graph G)) as Ha by (apply get_is_Some; eauto).
  split; [by apply Hkeys|]. destruct (Hgraph a Ha) as [Hns _].
  rewrite Hns in Hget. injection Hget as <-. rewrite elem_of_OrderedSet in Hb.
  exact Hb.
Qed.

Lemma inv_not_cyclic errors0 queue G W :
  add_source_inv heap G0 errors0 queue G W → acyclic heap G0 →
  ¬ cyclic (_graph G).
Proof.
  intros Hinv Hacyclic [a Htc].
  assert (∀ x y, edge (_graph G) x y → reach x ∧ R x y) as Hedge.
  { intros x y. by apply (inv_edge errors0 queue G W). }
  assert (reach a) as Hreach.
  { inversion Htc as [? ? He|? ? ? He _]; subst; by destruct (Hedge _ _ He). }
  apply (Hacyclic a Hreach). clear Hreach.
  assert (∀ x y, tc (edge (_graph G)) x y → tc R x y) as Hmono; [|by apply Hmono].
  intros x y Hxy. induction Hxy as [x y He|x y z He _ IH].
  - apply tc_once. by destruct (Hedge _ _ He).
  - eapply tc_l; [|exact IH]. by destruct (Hedge _ _ He).
Qed.

Lemma check_dependents_ok d m W l :
  manifest (heap d) = Some m → versions_match heap G0 →
  (∀ dependency a, (dependency, a) ∈ l →
     reach a ∧ (dependency, d) ∈ resolved_dependencies heap G0 a) →
  check_dependents d (info_id_version m) W l = W.
Proof.
  intros Hm Hver. unfold check_dependents. revert W.
  induction l as [|[dep a] l IH]; intros W Hl; simpl; [done|].
  destruct (Hl dep a) as [Hreach Hin]; [left|].
  rewrite (Hver a dep d m Hreach Hin Hm). apply IH.
  intros ? ? ?. apply Hl. by right.
Qed.

Lemma check_dependencies_ok errors0 queue G W :
  add_source_inv heap G0 errors0 queue G W → versions_match heap G0 →
  _check_dependencies heap G W = Ok W.
Proof.
  intros (_ & _ & _ & _ & _ & _ & _ & _ & Hdeps) Hver. unfold _check_dependencies.
  induction (_dependents G) as [|[d l] deps IH]; simpl; [done|].
  destruct (Hdeps d l) as [[m Hm] Hl]; [left|]. rewrite Hm. simpl.
  rewrite (check_dependents_ok d m W l Hm Hver Hl). apply IH.
  intros ? ? ?. apply Hdeps. by right.
Qed.

Lemma closed_check_reach nodes a :
  closed_check heap G0 nodes = true → reach a → a ∈ nodes.
Proof.
  unfold closed_check. intros [Hroot Hclosed]%andb_true_iff. revert a.
  apply rtc_ind_r.
  - by apply bool_decide_eq_true in Hroot.
  - intros y z _ Hyz Hy. rewrite forallb_forall in Hclosed.
    specialize (Hclosed y (proj1 (list_elem_of_In _ _) Hy)).
    rewrite forallb_forall in Hclosed.
    specialize (Hclosed z (proj1 (list_elem_of_In _ _) Hyz)).
    by apply bool_decide_eq_true in Hclosed.
Qed.

Lemma resolvable_check_sound nodes :
  closed_check heap G0 nodes = true → resolvable_check heap G0 nodes = true →
  resolvable heap G0.
Proof.
  intros Hclosed Hcheck a n dep p Hreach Hin Hsel.
  apply (closed_check_reach nodes a Hclosed) in Hreach.
  unfold resolvable_check in Hcheck. rewrite forallb_forall in Hcheck.
  specialize (Hcheck a (proj1 (list_elem_of_In _ _) Hreach)).
  rewrite forallb_forall in Hcheck.
  specialize (Hcheck (n, dep) (proj1 (list_elem_of_In _ _) Hin)). simpl in Hcheck.
  rewrite Hsel in Hcheck. by destruct (lookup_source _ _ p).
Qed.

Lemma versions_match_check_sound nodes :
  closed_check heap G0 nodes = true → versions_match_check heap G0 nodes = true →
  versions_match heap G0.
Proof.
  intros Hclosed Hcheck a dep d m Hreach Hin Hm.
  apply (closed_check_reach nodes a Hclosed) in Hreach.
  unfold versions_match_check in Hcheck. rewrite forallb_forall in Hcheck.
  specialize (Hcheck a (proj1 (list_elem_of_In _ _) Hreach)).
  rewrite forallb_forall in Hcheck.
  specialize (Hcheck (dep, d) (proj1 (list_elem_of_In _ _) Hin)). simpl in Hcheck.
  by rewrite Hm in Hcheck.
Qed.

Lemma acyclic_check_sound nodes rank :
  closed_check heap G0 nodes = true → acyclic_check heap G0 nodes rank = true →
  acyclic heap G0.
Proof.
  intros Hclosed Hcheck.
  assert (∀ x y, reach x → R x y → rank y < rank x) as Hstep.
  { intros x y Hreach Hxy. apply (closed_check_reach nodes x Hclosed) in Hreach.
    unfold acyclic_check in Hcheck. rewrite forallb_forall in Hcheck.
    specialize (Hcheck x (proj1 (list_elem_of_In _ _) Hreach)).
    rewrite forallb_forall in Hcheck.
    specialize (Hcheck y (proj1 (list_elem_of_In _ _) Hxy)).
    by apply Nat.ltb_lt in Hcheck. }
  assert (∀ x y, tc R x y → reach x → rank y < rank x ∧ reach y) as Htc.
  { intros x y Hxy. induction Hxy as [x y Hxy|x y z Hxy _ IH]; intros Hreach.
    - split; [by apply Hstep|]. by eapply rtc_r.
    - destruct IH as [Hlt Hz]; [by eapply rtc_r|].
      split; [|done]. specialize (Hstep x y Hreach Hxy). lia. }
  intros a Hreach Hcycle. destruct (Htc a a Hcycle Hreach) as [Hlt _]. lia.
Qed.

End construction.
End ConstructionFacts.

Section construction_claim.
Import OrderedDict OrderedDictFacts CycleFacts ConstructionFacts.

(** X4 (on claim C5): construction over sources that are acyclic, whose selected packages
    are all found and whose version ranges all match logs no error, and
    the graph holds exactly the root and the sources it reaches through
    resolved dependencies: those that a manifest pins and those that the
    installed-packages index resolves. Each source is mapped to the ordered
    set of its resolved dependencies, which is also what its
    [_dependencies] attribute lists. *)
Theorem construction_without_errors `{VersionConstraint} (heap : ref → AppSource)
    (fuel : nat) (root : ref) (ds repo : gmap string ref)
    (inst : option (gmap string string)) (os : string) (W : World) :
  is_Some (manifest (heap root)) →
  resolvable heap (initial_graph root ds repo inst os) →
  versions_match heap (initial_graph root ds repo inst os) →
  acyclic heap (initial_graph root ds repo inst os) →
  construction_fuel heap (initial_graph root ds repo inst os) ≤ fuel →
  ∃ G W',
    AppDependencyGraph_init heap fuel root ds repo inst os W = Ok (G, W') ∧
    errors W' = errors W ∧
    NoDup (keys (_graph G)) ∧
    (∀ x, x ∈ keys (_graph G) ↔
          rtc (depends_on heap (initial_graph root ds repo inst os)) root x) ∧
    (∀ a, a ∈ keys (_graph G) →
          get a (_graph G)
          = Some (OrderedSet
                    (resolved_dependencies heap
                       (initial_graph root ds repo inst os) a).*2) ∧
          source_dependencies W' !! a
          = Some (resolved_dependencies heap
                    (initial_graph root ds repo inst os) a)).
Proof.
  intros Hroot Hres Hver Hacyclic Hfuel.
  destruct (add_source_spec heap (initial_graph root ds repo inst os) fuel W)
    as (G & W1 & Hrun & Hinv); try done.
  unfold AppDependencyGraph_init. fold (initial_graph root ds repo inst os).
  simpl in Hrun. rewrite Hrun. simpl.
  destruct (is_cyclic_correct (_graph G) (cyclic_fuel (_graph G)))
    as (b & -> & Hb); [done|].
  simpl. destruct b.
  { exfalso. eapply inv_not_cyclic; [exact Hinv|done|]. by apply Hb. }
  rewrite (check_dependencies_ok heap _ _ _ _ _ Hinv Hver). simpl.
  exists G, W1. split; [done|].
  pose proof Hinv as (_ & Hnd & _ & _ & Hgraph & _ & _ & Herr & _).
  split_and!; try done.
  intros x. apply (inv_keys_reach heap _ _ _ _ _ Hinv).
Qed.

(** [construction_without_errors] on the example repository. *)
Lemma construction_without_errors_witness :
  ∃ G W',
    AppDependencyGraph_init Example.heap 20 "app" Example.dependency_sources ∅
      None "*" empty_world = Ok (G, W') ∧
    errors W' = [] ∧
    ("c" ∈ keys (_graph G) ↔
     rtc (depends_on Example.heap
            (initial_graph "app" Example.dependency_sources ∅ None "*"))
         "app" "c").
Proof.
  pose (G0 := initial_graph (H := Example.versions) "app"
                Example.dependency_sources ∅ None "*").
  assert (closed_check Example.heap G0 ["app"; "a"; "b"; "c"] = true) as Hclosed
    by (vm_compute; reflexivity).
  destruct (construction_without_errors Example.heap 20 "app"
              Example.dependency_sources ∅ None "*" empty_world)
    as (G & W' & Hrun & Herr & _ & Hkeys & _).
  - vm_compute. eauto.
  - apply (resolvable_check_sound Example.heap G0 ["app"; "a"; "b"; "c"] Hclosed).
    vm_compute; reflexivity.
  - apply (versions_match_check_sound Example.heap G0 ["app"; "a"; "b"; "c"] Hclosed).
    vm_compute; reflexivity.
  - apply (acyclic_check_sound Example.heap G0 ["app"; "a"; "b"; "c"] Example.rank
             Hclosed).
    vm_compute; reflexivity.
  - vm_compute. lia.
  - exists G, W'. split; [exact Hrun|]. split; [exact Herr|]. apply Hkeys.
Defined.

End construction_claim.

(** ** Detecting an empty app *)

Module PathFacts.

Lemma text_of_chars s : text_of (chars s) = s.
Proof. apply String.string_of_list_ascii_of_string. Qed.

Lemma chars_text_of l : chars (text_of l) = l.
Proof. apply String.list_ascii_of_string_of_list_ascii. Qed.

Lemma length_chars s : length (chars s) = String.length s.
Proof. induction s as [|c s IH]; simpl; [done|]. by rewrite IH. Qed.

Lemma drop_to_slash_suffix l : drop_to_slash l `suffix_of` l.
Proof.
  induction l as [|c l IH]; simpl; [done|].
  destruct (is_slash c); [done|]. by apply suffix_cons_r.
Qed.

Lemma lstrip_slashes_suffix l : lstrip_slashes l `suffix_of` l.
Proof.
  induction l as [|c l IH]; simpl; [done|].
  destruct (is_slash c); [|done]. by apply suffix_cons_r.
Qed.

Lemma suffix_last {A} (l k : list A) x :
  l `suffix_of` k → l ≠ [] → last k = Some x → last l = Some x.
Proof.
  intros [pre ->] Hne. rewrite last_app. destruct (last l) eqn:Hl; [done|].
  by apply last_None in Hl.
Qed.

Lemma drop_to_slash_last l :
  last l = Some "/"%char →
  drop_to_slash l ≠ [] ∧ last (drop_to_slash l) = Some "/"%char.
Proof.
  induction l as [|c l IH]; simpl; [done|]. intros Hlast.
  destruct (is_slash c) eqn:Hc; [done|].
  destruct l as [|c' l']; simpl in *.
  - injection Hlast as ->. done.
  - by apply IH.
Qed.

(** The directory of an absolute path is an absolute path. *)
Lemma path_dirname_absolute s : ∃ s', path_dirname (String "/" s) = String "/" s'.
Proof.
  unfold path_dirname.
  assert (last (reverse (chars (String "/" s))) = Some "/"%char) as Hlast.
  { simpl. rewrite reverse_cons. by rewrite last_snoc. }
  destruct (drop_to_slash_last _ Hlast) as [Hne Hhead].
  set (head := drop_to_slash (reverse (chars (String "/" s)))) in *.
  assert (∀ l, l ≠ [] → last l = Some "/"%char →
               ∃ s', text_of (reverse l) = String "/" s') as Hstart.
  { intros l Hl Hl'. destruct (reverse l) as [|c r] eqn:Hr.
    - apply (f_equal reverse) in Hr. rewrite reverse_involutive in Hr. done.
    - assert (c = "/"%char) as ->.
      { apply (f_equal reverse) in Hr. rewrite reverse_involutive, reverse_cons in Hr.
        rewrite Hr, last_snoc in Hl'. by injection Hl'. }
      by eexists. }
  destruct (lstrip_slashes head) as [|c r] eqn:Hstrip.
  - by apply Hstart.
  - apply Hstart; [done|]. rewrite <- Hstrip.
    apply (suffix_last _ head); [apply lstrip_slashes_suffix|by rewrite Hstrip|done].
Qed.

(** The normal form of an absolute path is an absolute path. *)
Lemma path_normpath_absolute s : ∃ s', path_normpath (String "/" s) = String "/" s'.
Proof.
  unfold path_normpath. rewrite bool_decide_false by done.
  assert (startswith (String "/" s) "/" = true) as -> by (by destruct s).
  destruct (startswith (String "/" s) "//" && negb (startswith (String "/" s) "///"));
    simpl; by eexists.
Qed.

Lemma startswith_slash_cons c p : startswith (String c p) "/" = is_slash c.
Proof.
  unfold startswith, is_slash.
  change (String.prefix "/" (String c p))
    with (if Ascii.ascii_dec "/" c then String.prefix "" p else false).
  destruct (Ascii.ascii_dec "/" c) as [<-|Hne].
  - rewrite bool_decide_true by done. by destruct p.
  - rewrite bool_decide_false; [done|]. by intros ->.
Qed.

Lemma relative_chars p :
  relative p ↔ match chars p with c :: _ => is_slash c = false | [] => True end.
Proof.
  unfold relative. destruct p as [|c p]; [done|].
  by rewrite startswith_slash_cons.
Qed.

Lemma drop_to_slash_head l :
  drop_to_slash l = [] ∨ ∃ r, drop_to_slash l = "/"%char :: r.
Proof.
  induction l as [|c l IH]; simpl; [by left|].
  destruct (is_slash c) eqn:Hc; [|done]. right. exists l.
  unfold is_slash in Hc. by apply bool_decide_eq_true in Hc as ->.
Qed.

Lemma lstrip_slashes_nil l : lstrip_slashes l = [] → Forall (fun c => is_slash c = true) l.
Proof.
  induction l as [|c l IH]; simpl; [done|].
  destruct (is_slash c) eqn:Hc; [|done]. intros Hl. constructor; auto.
Qed.

(** The characters of [posixpath.dirname(p)], reversed, are a proper
    suffix of those of a non-empty relative [p], reversed. *)
Lemma path_dirname_chars p :
  ∃ pre, chars p = chars (path_dirname p) ++ pre ∧
         (relative p → p ≠ EmptyString → pre ≠ []).
Proof.
  unfold path_dirname.
  assert (chars p = reverse (reverse (chars p))) as Hp
    by (by rewrite reverse_involutive).
  revert Hp. generalize (reverse (chars p)). intros l Hp.
  pose proof (drop_to_slash_suffix l) as [pre1 Hpre1].
  pose proof (drop_to_slash_head l) as Hhead.
  revert Hpre1 Hhead. generalize (drop_to_slash l). intros head Hpre1 Hhead.
  destruct (lstrip_slashes head) as [|c r] eqn:Hstrip.
  - rewrite chars_text_of. exists (reverse pre1). split.
    + by rewrite Hp, Hpre1, reverse_app.
    + intros Hrel Hne Hnil. apply (f_equal reverse) in Hnil.
      rewrite reverse_involutive in Hnil. simpl in Hnil. subst pre1.
      simpl in Hpre1. subst head. apply lstrip_slashes_nil in Hstrip.
      apply relative_chars in Hrel. rewrite Hp in Hrel.
      destruct (reverse l) as [|c0 r0] eqn:Hr.
      * apply Hne. rewrite <- (text_of_chars p). by rewrite Hp.
      * assert (c0 ∈ l) as Hin.
        { apply elem_of_reverse. rewrite Hr. left. }
        rewrite Forall_forall in Hstrip. rewrite (Hstrip c0 Hin) in Hrel. done.
  - rewrite chars_text_of.
    assert ((c :: r) `suffix_of` head) as [pre2 Hpre2].
    { rewrite <- Hstrip. apply lstrip_slashes_suffix. }
    exists (reverse (pre1 ++ pre2)). split.
    + rewrite Hp, Hpre1, Hpre2, app_assoc, reverse_app. done.
    + intros _ _ Hnil. apply (f_equal reverse) in Hnil.
      rewrite reverse_involutive in Hnil. simpl in Hnil.
      apply app_eq_nil in Hnil as [-> ->]. simpl in Hpre2.
      destruct Hhead as [Hh|[r' Hh]].
      * by rewrite Hh in Hstrip.
      * rewrite Hh in Hstrip. simpl in Hstrip.
        pose proof (lstrip_slashes_suffix r') as Hs. rewrite Hstrip in Hs.
        apply suffix_length in Hs. rewrite Hpre2 in Hh. injection Hh as _ <-.
        simpl in Hs. lia.
Qed.

Lemma path_dirname_relative p :
  relative p →
  relative (path_dirname p) ∧
  (p ≠ EmptyString → String.length (path_dirname p) < String.length p).
Proof.
  intros Hrel. destruct (path_dirname_chars p) as (pre & Hp & Hpre). split.
  - apply relative_chars. apply relative_chars in Hrel. rewrite Hp in Hrel.
    by destruct (chars (path_dirname p)).
  - intros Hne. rewrite <- !length_chars, Hp, length_app.
    specialize (Hpre Hrel Hne). destruct pre; [done|]. simpl. lia.
Qed.

End PathFacts.

Section empty_facts.
Import OrderedDict OrderedDictFacts PathFacts.
Context `{VersionConstraint} (heap : ref → AppSource).

Lemma add_directory_chain_absolute fuel app_root s empty_set :
  add_directory_chain fuel app_root (String "/" s) empty_set = OutOfFuel.
Proof.
  revert s empty_set. induction fuel as [|fuel IH]; intros s empty_set; [done|].
  simpl. destruct (path_dirname_absolute s) as [s' ->]. apply IH.
Qed.

Lemma add_directory_chain_no_raise fuel app_root filename empty_set e :
  add_directory_chain fuel app_root filename empty_set ≠ Raise e.
Proof.
  revert filename empty_set. induction fuel as [|fuel IH]; intros filename empty_set;
    [done|].
  simpl. case_bool_decide; [apply IH|done].
Qed.

Lemma add_documentation_no_raise fuel app_root empty_set item e :
  add_documentation fuel app_root empty_set item ≠ Raise e.
Proof.
  unfold add_documentation. destruct item as [[[t|]]|]; try done.
  apply add_directory_chain_no_raise.
Qed.

Lemma add_documentation_absolute fuel app_root empty_set item s :
  text item = Some (String "/" s) →
  add_documentation fuel app_root empty_set (Some item) = OutOfFuel.
Proof.
  intros Ht. unfold add_documentation. rewrite Ht.
  destruct (path_normpath_absolute s) as [s' ->].
  apply add_directory_chain_absolute.
Qed.

Lemma foldlM_documentation_absolute fuel app_root items empty_set item s :
  Some item ∈ items → text item = Some (String "/" s) →
  foldlM (add_documentation fuel app_root) empty_set items = OutOfFuel.
Proof.
  intros Hin Ht. revert empty_set. induction items as [|i items IH];
    intros empty_set; [by apply elem_of_nil in Hin|].
  simpl. apply elem_of_cons in Hin as [<-|Hin].
  - by rewrite (add_documentation_absolute _ _ _ _ s).
  - destruct (add_documentation fuel app_root empty_set i) as [es| |] eqn:Hi; simpl.
    + by apply IH.
    + by apply add_documentation_no_raise in Hi.
    + done.
Qed.

Lemma add_directory_chain_relative fuel n app_root filename empty_set :
  relative filename →
  String.length filename < fuel → String.length filename ≤ n →
  add_directory_chain fuel app_root filename empty_set
  = Ok (list_to_set ((fun f => path_normpath (path_join app_root [f]))
                       <$> ancestors n filename) ∪ empty_set).
Proof.
  revert n filename empty_set.
  induction fuel as [|fuel IH]; intros n filename empty_set Hrel Hfuel Hn; [lia|].
  simpl. destruct n as [|n].
  - rewrite bool_decide_false by lia. simpl. f_equal. set_solver.
  - simpl. case_bool_decide as Hlen.
    + destruct (path_dirname_relative filename Hrel) as [Hrel' Hlt].
      assert (filename ≠ EmptyString) as Hne by (intros ->; simpl in Hlen; lia).
      specialize (Hlt Hne). rewrite (IH n) by (done || lia).
      f_equal. rewrite fmap_cons, list_to_set_cons. set_solver.
    + simpl. f_equal. set_solver.
Qed.

Lemma add_documentation_relative fuel app_root empty_set item :
  (∀ i t, item = Some i → text i = Some t →
          relative (path_normpath t) ∧ String.length (path_normpath t) < fuel) →
  add_documentation fuel app_root empty_set item
  = Ok (list_to_set (documentation_files app_root item) ∪ empty_set).
Proof.
  intros Hrel. unfold add_documentation, documentation_files.
  destruct item as [i|].
  2:{ f_equal. set_solver. }
  destruct (text i) as [t|] eqn:Ht.
  2:{ f_equal. set_solver. }
  destruct (Hrel i t eq_refl Ht) as [Hr Hlt].
  by apply add_directory_chain_relative.
Qed.

(** X5 (on claim C7): when the documentation files that the manifest names have relative
    normal forms, [_detect_is_empty] returns, and it answers [True] exactly
    when the app has no configuration or only [app], and every asset is
    the metadata directory, its [default.meta], an entry whose path starts
    with the path of the [bin] directory, or a documentation file or one
    of the directories that hold it. The test on [bin] is on the text of
    the path: an entry such as [binary] next to [bin] passes it. *)
Theorem detect_is_empty_characterisation {V} (fuel : nat) (app_source : ref)
    (asset_filenames : gset string) (configurations : list (string * V))
    (m : AppManifest) :
  manifest (heap app_source) = Some m →
  (∀ item t,
     Some item ∈ [info_license m; info_privacyPolicy m; info_releaseNotes m] →
     text item = Some t →
     relative (path_normpath t) ∧ String.length (path_normpath t) < fuel) →
  ∃ b,
    _detect_is_empty heap fuel app_source asset_filenames configurations = Ok b ∧
    (b = true ↔
     (length configurations = 0 ∨
      (length configurations = 1 ∧ "app" ∈ keys configurations)) ∧
     ∀ asset_file, asset_file ∈ asset_filenames →
       asset_file = path_join (directory (heap app_source)) ["metadata"] ∨
       asset_file = path_join (directory (heap app_source))
                      ["metadata"; "default.meta"] ∨
       startswith asset_file (path_join (directory (heap app_source)) ["bin"])
       = true ∨
       ∃ item,
         item ∈ [info_license m; info_privacyPolicy m; info_releaseNotes m] ∧
         asset_file ∈ documentation_files (directory (heap app_source)) item).
Proof.
  intros Hm Hdocs. unfold _detect_is_empty.
  destruct (bool_decide (length configurations = 0)
            || bool_decide (length configurations = 1)
               && contains "app" configurations) eqn:Hconf.
  2:{ exists false. split; [done|]. split; [done|]. intros [Hc _].
      destruct Hc as [Hc|[Hc Happ]].
      - by rewrite Hc in Hconf.
      - apply contains_true in Happ. by rewrite Hc, Happ in Hconf. }
  assert (length configurations = 0 ∨
          (length configurations = 1 ∧ "app" ∈ keys configurations)) as Hc.
  { apply orb_true_iff in Hconf as [Hc|[Hc Happ]%andb_true_iff].
    - left. by apply bool_decide_eq_true in Hc.
    - right. split; [by apply bool_decide_eq_true in Hc|]. by apply contains_true. }
  destruct (bool_decide (size asset_filenames = 0)) eqn:Hsize.
  { exists true. split; [done|]. split; [|done]. intros _. split; [done|].
    apply bool_decide_eq_true, size_empty_inv in Hsize.
    intros f Hf. by apply Hsize in Hf. }
  rewrite Hm. simpl.
  rewrite add_documentation_relative.
  2:{ intros i t Hi Ht. apply (Hdocs i t); [rewrite <- Hi; left|done]. }
  simpl. rewrite add_documentation_relative.
  2:{ intros i t Hi Ht. apply (Hdocs i t); [rewrite <- Hi; right; left|done]. }
  simpl. rewrite add_documentation_relative.
  2:{ intros i t Hi Ht. apply (Hdocs i t); [rewrite <- Hi; do 2 right; left|done]. }
  simpl. eexists. split; [done|]. rewrite bool_decide_eq_true.
  split.
  - intros Hsub. split; [done|]. intros f Hf. specialize (Hsub f Hf).
    rewrite !elem_of_union, !elem_of_list_to_set, elem_of_filter in Hsub.
    rewrite !elem_of_singleton in Hsub.
    destruct_or!;
      first [ by left
            | by (right; left)
            | by (do 2 right; left; tauto)
            | by (do 3 right; eexists; split; [|eassumption];
                  first [left | right; left | do 2 right; left]) ].
  - intros [_ Hall] f Hf.
    rewrite !elem_of_union, !elem_of_list_to_set, elem_of_filter.
    rewrite !elem_of_singleton.
    destruct (Hall f Hf) as [?|[?|[?|(item & Hitem & Hin)]]].
    + tauto.
    + tauto.
    + tauto.
    + rewrite !elem_of_cons in Hitem.
      destruct Hitem as [->|[->|[->|Hn]]]; [tauto..|].
      by apply elem_of_nil in Hn.
Qed.

(** X6 (on claim C7): when the app has at most the [app] configuration and some asset, and
    the manifest names a license, privacy-policy or release-notes file by
    an absolute path, the loop over the file's directories never ends: the
    directory of ['/'] is ['/']. *)
Theorem detect_is_empty_hangs_on_absolute_documentation {V} (fuel : nat)
    (app_source : ref) (asset_filenames : gset string)
    (configurations : list (string * V)) (m : AppManifest) (item : InfoItem)
    (s : string) :
  length configurations = 0 ∨
    (length configurations = 1 ∧ "app" ∈ keys configurations) →
  asset_filenames ≠ ∅ →
  manifest (heap app_source) = Some m →
  Some item ∈ [info_license m; info_privacyPolicy m; info_releaseNotes m] →
  text item = Some (String "/" s) →
  _detect_is_empty heap fuel app_source asset_filenames configurations = OutOfFuel.
Proof.
  intros Hconf Hassets Hm Hitem Ht. unfold _detect_is_empty.
  assert (bool_decide (length configurations = 0)
          || bool_decide (length configurations = 1)
             && contains "app" configurations = true) as ->.
  { destruct Hconf as [->|[-> Happ]]; [done|].
    apply contains_true in Happ. by rewrite Happ. }
  rewrite bool_decide_false.
  2:{ intros Hsz. by apply size_empty_inv, leibniz_equiv in Hsz. }
  rewrite Hm. by rewrite (foldlM_documentation_absolute _ _ _ _ item s).
Qed.

End empty_facts.

(** [detect_is_empty_characterisation] on an app with a relative license
    file: the app is empty although it holds [binary]. *)
Lemma detect_is_empty_characterisation_witness :
  _detect_is_empty (Example.documented "doc/LICENSE.txt") 20 "doc"
    Example.documented_assets [("app", ())] = Ok true.
Proof.
  destruct (detect_is_empty_characterisation
              (Example.documented "doc/LICENSE.txt") 20 "doc"
              Example.documented_assets [("app", ())]
              (Example.documented_manifest "doc/LICENSE.txt") eq_refl)
    as (b & Hrun & _).
  - intros item t Hitem Ht. rewrite !elem_of_cons in Hitem.
    destruct Hitem as [Hi|[Hi|[Hi|Hi]]]; try discriminate Hi.
    + injection Hi as Hi. subst item. injection Ht as Ht. subst t.
      split; [reflexivity|]. vm_compute. lia.
    + by apply elem_of_nil in Hi.
  - rewrite Hrun. f_equal.
    assert (_detect_is_empty (Example.documented "doc/LICENSE.txt") 20 "doc"
              Example.documented_assets [("app", ())] = Ok true) as Hrun'
      by (vm_compute; reflexivity).
    rewrite Hrun in Hrun'. by injection Hrun'.
Defined.

(** [detect_is_empty_hangs_on_absolute_documentation] on an app whose
    license is [/LICENSE]. *)
Lemma detect_is_empty_hangs_witness :
  _detect_is_empty (Example.documented "/LICENSE") 50 "doc"
    Example.documented_assets [("app", ())] = OutOfFuel.
Proof.
  apply (detect_is_empty_hangs_on_absolute_documentation
           (Example.documented "/LICENSE") 50 "doc" Example.documented_assets
           [("app", ())] (Example.documented_manifest "/LICENSE")
           {| text := Some "/LICENSE" |} "LICENSE").
  - right. split; [reflexivity|]. left.
  - apply (bool_decide_unpack _). by vm_compute.
  - reflexivity.
  - left.
  - reflexivity.
Defined.

(** ** Deployment specifications of an installation action *)

Module WorkloadFacts.

Lemma foldl_update_None ds : foldl update_step None ds = None.
Proof. by induction ds. Qed.

(** The loop over the given specifications removes from [update_list] the
    workloads that some specification covers, and leaves [None] exactly
    when all of them are covered. *)
Lemma foldl_update_step (update_list : gset string) ds :
  update_list ≠ ∅ →
  foldl update_step (Some update_list) ds
  = if bool_decide (update_list ⊆ ⋃ (workload <$> ds)) then None
    else Some (update_list ∖ ⋃ (workload <$> ds)).
Proof.
  revert update_list. induction ds as [|s ds IH]; intros ul Hne.
  - simpl. rewrite bool_decide_eq_false_2 by set_solver.
    f_equal. set_solver.
  - rewrite fmap_cons. cbn [foldl union_list]. unfold update_step at 2.
    pose proof (subseteq_size (workload s ∩ ul) ul ltac:(set_solver)) as Hsz.
    case_bool_decide as H0.
    + apply size_empty_inv in H0. rewrite IH by done.
      assert (ul ⊆ workload s ∪ ⋃ (workload <$> ds) ↔ ul ⊆ ⋃ (workload <$> ds))
        as Hiff by set_solver.
      destruct (decide (ul ⊆ ⋃ (workload <$> ds))) as [Hs|Hs].
      * rewrite !bool_decide_eq_true_2; [done| |done]. by apply Hiff.
      * rewrite !bool_decide_eq_false_2; [|by rewrite Hiff|done].
        f_equal. set_solver.
    + case_bool_decide as H1.
      * rewrite foldl_update_None.
        assert (workload s ∩ ul ≡ ul) as Heq.
        { apply set_subseteq_size_equiv; [set_solver|lia]. }
        rewrite bool_decide_eq_true_2; [done|]. set_solver.
      * assert (ul ∖ (workload s ∩ ul) ≠ ∅) as Hne'.
        { intros Hempty.
          assert (ul ⊆ workload s ∩ ul) as Hsub.
          { intros x Hx. destruct (decide (x ∈ workload s ∩ ul)); [done|].
            assert (x ∈ ul ∖ (workload s ∩ ul)) by set_solver.
            set_solver. }
          apply subseteq_size in Hsub. lia. }
        rewrite IH by done.
        assert (ul ∖ (workload s ∩ ul) ⊆ ⋃ (workload <$> ds)
                ↔ ul ⊆ workload s ∪ ⋃ (workload <$> ds)) as Hiff.
        { split; intros Hsub x Hx.
          - destruct (decide (x ∈ workload s)); [set_solver|].
            apply elem_of_union_r, Hsub. set_solver.
          - set_solver. }
        destruct (decide (ul ⊆ workload s ∪ ⋃ (workload <$> ds))) as [Hs|Hs].
        -- rewrite !bool_decide_eq_true_2; [done|done|]. by apply Hiff.
        -- rewrite !bool_decide_eq_false_2; [|done|by rewrite Hiff].
           f_equal. set_solver.
Qed.

Lemma elem_of_union_workloads role ds :
  role ∈ ⋃ (workload <$> ds) ↔ Exists (fun s => role ∈ workload s) ds.
Proof.
  rewrite elem_of_union_list, Exists_exists. split.
  - intros (X & HX & Hr). apply list_elem_of_fmap in HX as (s & -> & Hs).
    by exists s.
  - intros (s & Hs & Hr). exists (workload s). split; [|done].
    apply list_elem_of_fmap. by exists s.
Qed.

Lemma list_del_lt {A} i (l : list A) : i < length l → list_del i l = Ok (delete i l).
Proof. intros. unfold list_del. by rewrite bool_decide_eq_true_2. Qed.

Lemma list_del_ge {A} i (l : list A) : length l ≤ i → list_del i l = Raise "IndexError".
Proof. intros. unfold list_del. rewrite bool_decide_eq_false_2; [done|lia]. Qed.

(** The deletions either all succeed, and shorten the list by their
    number, or raise [IndexError]. *)
Lemma foldlM_list_del {A} (remove_list : list nat) (l : list A) :
  (∃ l', foldlM (fun l index => list_del index l) l remove_list = Ok l' ∧
         length l' + length remove_list = length l) ∨
  foldlM (fun l index => list_del index l) l remove_list = Raise "IndexError".
Proof.
  revert l. induction remove_list as [|i r IH]; intros l.
  - left. exists l. simpl. split; [done|lia].
  - cbn [foldlM length]. destruct (decide (i < length l)) as [Hi|Hi].
    2:{ right. rewrite list_del_ge by lia. done. }
    rewrite list_del_lt by done.
    simpl. destruct (IH (delete i l)) as [(l' & Hrun & Hlen)|Hrun]; rewrite Hrun;
      [|by right].
    left. exists l'. split; [done|].
    assert (is_Some (l !! i)) as Hsome by (apply lookup_lt_is_Some_2; lia).
    rewrite (length_delete l i Hsome) in Hlen.
    apply lookup_lt_is_Some_1 in Hsome. simpl. lia.
Qed.

Lemma foldlM_app {A B} (f : B → A → outcome B) b l1 l2 :
  foldlM f b (l1 ++ l2) = (b' ← foldlM f b l1; foldlM f b' l2).
Proof.
  revert b. induction l1 as [|a l1 IH]; intros b; [done|].
  simpl. destruct (f b a); simpl; [apply IH|done..].
Qed.

Lemma combine_step_combinable g r i s groups :
  combinable s → inputGroups s = Some groups →
  combine_step (g, r) (i, s) = (g ∪ groups, r ++ [i]).
Proof.
  intros [Hw _] Hg. unfold combine_step.
  rewrite bool_decide_eq_false_2 by done. by rewrite Hg.
Qed.

Lemma combine_step_other g r i s :
  ¬ combinable s → combine_step (g, r) (i, s) = (g, r).
Proof.
  intros Hn. unfold combine_step. case_bool_decide as Hw; [done|].
  destruct (inputGroups s) eqn:Hg; [|done].
  destruct Hn. split; [done|]. by rewrite Hg.
Qed.

Lemma foldl_combine_step_others g r k ds :
  Forall (fun s => ¬ combinable s) ds →
  foldl combine_step (g, r) (imap (fun i s => (k + i, s)) ds) = (g, r).
Proof.
  revert k. induction ds as [|s ds IH]; intros k Hall; [done|].
  apply Forall_cons in Hall as [Hs Hall]. cbn [imap foldl].
  rewrite combine_step_other by done.
  rewrite (imap_ext _ (fun i s => (S k + i, s))).
  - by apply IH.
  - intros i x _. simpl. f_equal. lia.
Qed.

(** The indices that the combining loop gathers are below the length of
    the list, and there is one for each specification it takes up. *)
Lemma foldl_combine_step_indices g r k ds :
  ∃ g' r',
    foldl combine_step (g, r) (imap (fun i s => (k + i, s)) ds) = (g', r ++ r') ∧
    length r' = length (filter combinable ds) ∧
    Forall (fun i => k ≤ i < k + length ds) r'.
Proof.
  revert g r k. induction ds as [|s ds IH]; intros g r k.
  - exists g, []. simpl. by rewrite app_nil_r.
  - cbn [imap foldl]. rewrite (imap_ext _ (fun i s => (S k + i, s)))
      by (intros i x _; simpl; f_equal; lia).
    destruct (decide (combinable s)) as [Hc|Hc].
    + destruct (Hc) as [_ [groups Hg]].
      rewrite Nat.add_0_r, (combine_step_combinable _ _ _ _ groups) by done.
      destruct (IH (g ∪ groups) (r ++ [k]) (S k)) as (g' & r' & -> & Hlen & Hall).
      exists g', (k :: r'). rewrite <- app_assoc. split; [done|].
      rewrite filter_cons_True by done. simpl. split; [by rewrite Hlen|].
      constructor; [lia|]. eapply Forall_impl; [exact Hall|]. simpl. lia.
    + rewrite combine_step_other by done.
      destruct (IH g r (S k)) as (g' & r' & -> & Hlen & Hall).
      exists g', r'. split; [done|].
      rewrite filter_cons_False by done. split; [done|].
      eapply Forall_impl; [exact Hall|]. simpl. lia.
Qed.

Lemma foldl_combine_step_app g r ds1 ds2 :
  foldl combine_step (g, r) (imap pair (ds1 ++ ds2))
  = foldl combine_step (foldl combine_step (g, r) (imap pair ds1))
      (imap (fun i s => (length ds1 + i, s)) ds2).
Proof. by rewrite imap_app, foldl_app. Qed.

Lemma name_clash_steps nc reported ds :
  ∃ more,
    foldl name_clash_step (nc, reported) ds
    = (nc ∪ list_to_set (name <$> ds), reported ++ more) ∧
    (more = [] ↔ NoDup (name <$> ds) ∧ ∀ n, n ∈ (name <$> ds) → n ∉ nc) ∧
    (∀ n, n ∈ more → n ∈ (name <$> ds)) ∧
    length more + size (list_to_set (name <$> ds) ∖ nc : gset string) = length ds.
Proof.
  revert nc reported. induction ds as [|s ds IH]; intros nc reported.
  - exists []. simpl. rewrite app_nil_r. split_and!.
    + f_equal. set_solver.
    + split; [|done]. intros _. split; [constructor|]. intros n Hn.
      by apply elem_of_nil in Hn.
    + intros n Hn. by apply elem_of_nil in Hn.
    + replace ((∅ : gset string) ∖ nc) with (∅ : gset string) by set_solver.
      by rewrite size_empty.
  - rewrite fmap_cons. cbn [foldl]. unfold name_clash_step at 2.
    destruct (IH (nc ∪ {[name s]})
                (if bool_decide (name s ∈ nc) then reported ++ [name s]
                 else reported)) as (more & -> & Hnil & Hin & Hlen).
    case_bool_decide as Hs.
    + exists (name s :: more). rewrite <- app_assoc. simpl. split_and!.
      * f_equal. set_solver.
      * split; [done|]. intros [_ Hfresh]. destruct (Hfresh (name s)); [|done].
        left.
      * intros n [->|Hn]%elem_of_cons; [left|right; by apply Hin].
      * simpl. rewrite <- Hlen. f_equal. f_equal. f_equal. set_solver.
    + exists more. split_and!.
      * f_equal. set_solver.
      * rewrite Hnil, NoDup_cons. split.
        -- intros [Hnd Hfresh]. split; [split; [|done]|].
           ++ intros Hn. apply (Hfresh _ Hn). set_solver.
           ++ intros n [->|Hn]%elem_of_cons; [done|].
              specialize (Hfresh n Hn). set_solver.
        -- intros [[Hns Hnd] Hfresh]. split; [done|]. intros n Hn.
           specialize (Hfresh n ltac:(by right)).
           assert (n ≠ name s) by (by intros ->). set_solver.
      * intros n Hn. right. by apply Hin.
      * rewrite list_to_set_cons. cbn [length].
        assert (({[name s]} ∪ list_to_set (name <$> ds)) ∖ nc
                = {[name s]} ∪ (list_to_set (name <$> ds) ∖ (nc ∪ {[name s]}) : gset string))
          as -> .
        { apply set_eq. intros x. rewrite !elem_of_union, !elem_of_difference,
            !elem_of_union, !elem_of_singleton.
          destruct (decide (x = name s)) as [->|]; [tauto|]. tauto. }
        rewrite size_union by set_solver. rewrite size_singleton. simpl. lia.
Qed.

Lemma combine_step_one before taken after :
  Forall (fun s => ¬ combinable s) before →
  Forall (fun s => ¬ combinable s) after →
  from_option combinable True taken →
  foldl combine_step (∅, []) (imap pair (before ++ option_list taken ++ after))
  = (default ∅ (taken ≫= inputGroups),
     from_option (fun _ => [length before]) [] taken).
Proof.
  intros Hb Ha Ht. rewrite foldl_combine_step_app.
  change (imap pair before) with (imap (fun i s => (0 + i, s)) before).
  rewrite foldl_combine_step_others by done.
  destruct taken as [s|];
    [change (option_list (Some s)) with [s]
    |change (option_list (@None AppDeploymentSpecification))
       with (@nil AppDeploymentSpecification)];
    cbn [app imap foldl from_option].
  - destruct Ht as [Hw [groups Hg]].
    rewrite (combine_step_combinable _ _ _ _ groups) by done.
    rewrite (imap_ext _ (fun i s => (S (length before) + i, s)))
      by (intros i x _; simpl; f_equal; lia).
    rewrite foldl_combine_step_others by done.
    simpl. rewrite Hg. simpl. rewrite Nat.add_0_r. f_equal. set_solver.
  - by rewrite foldl_combine_step_others.
Qed.

End WorkloadFacts.

Section workloads.
Import WorkloadFacts.

(** X7: when the workloads are kept apart,
    [AppDeploymentSpecification.get_deployment_specifications] keeps the
    given specifications in front, appends [_search_heads] when no given
    specification has the [searchHead] workload, [_indexers] when none has
    [indexer], and [_forwarders] only when nothing at all was given, and
    puts the forwarder specifications last. Both [searchHead] and [indexer]
    are then the workload of some specification, and the function reports a
    name exactly when it occurs more than once. *)
Theorem separate_workloads_completed
    (deployment_specifications : list AppDeploymentSpecification)
    (forwarder_deployment_specifications : option (list AppDeploymentSpecification)) :
  ∃ result reported,
    AppDeploymentSpecification_get_deployment_specifications
      deployment_specifications false forwarder_deployment_specifications
    = Ok (result, reported) ∧
    result
    = deployment_specifications ++
      (if bool_decide (Exists (fun s => "searchHead" ∈ workload s)
                         deployment_specifications) then []
       else [{| name := "_search_heads"; workload := {[ "searchHead" ]};
                inputGroups := None |}]) ++
      (if bool_decide (Exists (fun s => "indexer" ∈ workload s)
                         deployment_specifications) then []
       else [{| name := "_indexers"; workload := {[ "indexer" ]};
                inputGroups := None |}]) ++
      (if bool_decide (deployment_specifications = [] ∧
                       forwarder_deployment_specifications = None)
       then [{| name := "_forwarders"; workload := {[ "forwarder" ]};
                inputGroups := None |}]
       else []) ++
      default [] forwarder_deployment_specifications ∧
    (∀ role, role ∈ ["searchHead"; "indexer"] →
       Exists (fun s => role ∈ workload s) result) ∧
    (reported = [] ↔ NoDup (name <$> result)).
Proof.
  unfold AppDeploymentSpecification_get_deployment_specifications.
  set (update_list :=
         if bool_decide (length deployment_specifications = 0) &&
            bool_decide (forwarder_deployment_specifications = None)
         then Some ({[ "searchHead"; "indexer"; "forwarder" ]} : gset string)
         else foldl update_step (Some {[ "searchHead"; "indexer" ]})
                deployment_specifications).
  set (result :=
         match forwarder_deployment_specifications with
         | None => deployment_specifications ++ workload_specifications update_list
         | Some forwarders =>
             (deployment_specifications ++ workload_specifications update_list)
             ++ forwarders
         end).
  simpl.
  destruct (name_clash_steps ∅ [] result) as (more & Hfold & Hnil & _ & _).
  exists result, (foldl name_clash_step (∅, []) result).2.
  split; [done|].
  assert (workload_specifications update_list
          = (if bool_decide (Exists (fun s => "searchHead" ∈ workload s)
                               deployment_specifications) then []
             else [{| name := "_search_heads"; workload := {[ "searchHead" ]};
                      inputGroups := None |}]) ++
            (if bool_decide (Exists (fun s => "indexer" ∈ workload s)
                               deployment_specifications) then []
             else [{| name := "_indexers"; workload := {[ "indexer" ]};
                      inputGroups := None |}]) ++
            (if bool_decide (deployment_specifications = [] ∧
                             forwarder_deployment_specifications = None)
             then [{| name := "_forwarders"; workload := {[ "forwarder" ]};
                      inputGroups := None |}]
             else [])) as Hadded.
  { unfold update_list.
    destruct (decide (deployment_specifications = [] ∧
                      forwarder_deployment_specifications = None)) as [[-> ->]|Hn].
    - simpl. rewrite !bool_decide_eq_true_2 by set_solver. done.
    - rewrite (bool_decide_eq_false_2 (_ ∧ _)) by done.
      assert (bool_decide (length deployment_specifications = 0) &&
              bool_decide (forwarder_deployment_specifications = None) = false)
        as ->.
      { apply andb_false_iff.
        destruct (decide (deployment_specifications = [])) as [->|Hd].
        - right. apply bool_decide_eq_false_2. intros ?. by apply Hn.
        - left. apply bool_decide_eq_false_2.
          by intros ?%length_zero_iff_nil. }
      rewrite foldl_update_step by set_solver.
      rewrite <- (bool_decide_ext _ _
                    (elem_of_union_workloads "searchHead" deployment_specifications)).
      rewrite <- (bool_decide_ext _ _
                    (elem_of_union_workloads "indexer" deployment_specifications)).
      set (U := ⋃ (workload <$> deployment_specifications)).
      case_bool_decide as Hsub.
      + simpl. rewrite !bool_decide_eq_true_2 by set_solver. done.
      + simpl. rewrite (bool_decide_eq_false_2 ("forwarder" ∈ _)) by set_solver.
        destruct (decide ("searchHead" ∈ U)) as [Hs|Hs];
          destruct (decide ("indexer" ∈ U)) as [Hi|Hi].
        * destruct Hsub. set_solver.
        * rewrite (bool_decide_eq_true_2 ("searchHead" ∈ U)) by done.
          rewrite (bool_decide_eq_false_2 ("indexer" ∈ U)) by done.
          rewrite (bool_decide_eq_false_2 ("searchHead" ∈ _)) by set_solver.
          rewrite (bool_decide_eq_true_2 ("indexer" ∈ _)) by set_solver. done.
        * rewrite (bool_decide_eq_false_2 ("searchHead" ∈ U)) by done.
          rewrite (bool_decide_eq_true_2 ("indexer" ∈ U)) by done.
          rewrite (bool_decide_eq_true_2 ("searchHead" ∈ _)) by set_solver.
          rewrite (bool_decide_eq_false_2 ("indexer" ∈ _)) by set_solver. done.
        * rewrite (bool_decide_eq_false_2 ("searchHead" ∈ U)) by done.
          rewrite (bool_decide_eq_false_2 ("indexer" ∈ U)) by done.
          rewrite (bool_decide_eq_true_2 ("searchHead" ∈ _)) by set_solver.
          rewrite (bool_decide_eq_true_2 ("indexer" ∈ _)) by set_solver. done. }
  assert (result = deployment_specifications ++
                   workload_specifications update_list ++
                   default [] forwarder_deployment_specifications) as Hres.
  { unfold result. destruct forwarder_deployment_specifications; simpl.
    - by rewrite <- app_assoc.
    - by rewrite app_nil_r. }
  split_and!.
  - rewrite Hres, Hadded. by rewrite <- !app_assoc.
  - intros role Hrole. rewrite Hres, Hadded.
    rewrite Exists_app.
    assert (role = "searchHead" ∨ role = "indexer") as [-> | ->] by set_solver.
    + destruct (decide (Exists (fun s => "searchHead" ∈ workload s)
                          deployment_specifications)) as [He|He]; [by left|].
      right. rewrite Exists_app. left.
      rewrite bool_decide_eq_false_2 by done. constructor. set_solver.
    + destruct (decide (Exists (fun s => "indexer" ∈ workload s)
                          deployment_specifications)) as [He|He]; [by left|].
      right. rewrite !Exists_app. left. right. left.
      rewrite bool_decide_eq_false_2 by done. constructor. set_solver.
  - rewrite Hfold. simpl. rewrite Hnil. split; [tauto|]. intros Hnd.
    split; [done|]. set_solver.
Qed.

(** X8: when the search-head and indexer workloads are combined and at
    most one of the given specifications has one of these workloads and
    carries input groups, that specification is replaced by
    [_search_head_indexers], appended at the end with its input groups and
    the three workloads; when none has, [_search_head_indexers] is
    appended without input groups. The forwarder specifications are not
    used. *)
Theorem combined_workloads_replace_one
    (before after : list AppDeploymentSpecification)
    (taken : option AppDeploymentSpecification)
    (forwarder_deployment_specifications : option (list AppDeploymentSpecification)) :
  Forall (fun s => ¬ combinable s) before →
  Forall (fun s => ¬ combinable s) after →
  from_option combinable True taken →
  before ++ option_list taken ++ after ≠ [] →
  ∃ reported,
    AppDeploymentSpecification_get_deployment_specifications
      (before ++ option_list taken ++ after) true
      forwarder_deployment_specifications
    = Ok (before ++ after ++
          [search_head_indexers (default ∅ (taken ≫= inputGroups))], reported).
Proof.
  intros Hb Ha Ht Hne.
  unfold AppDeploymentSpecification_get_deployment_specifications.
  rewrite bool_decide_eq_false_2 by (by intros ?%length_zero_iff_nil).
  rewrite (combine_step_one before taken after) by done.
  destruct taken as [s|];
    [change (option_list (Some s)) with [s]
    |change (option_list (@None AppDeploymentSpecification))
       with (@nil AppDeploymentSpecification)];
    cbn [from_option foldlM app].
  - rewrite list_del_lt by (rewrite length_app; simpl; lia).
    rewrite delete_middle. simpl. eexists. by rewrite <- app_assoc.
  - simpl. eexists. by rewrite <- app_assoc.
Qed.

(** X9: when the last of the given specifications and at least one other
    have a search-head or indexer workload and carry input groups, the
    deletions by index raise [IndexError]: the indices were gathered
    before the first deletion, and each deletion shortens the list. *)
Theorem combined_workloads_raise_IndexError
    (others : list AppDeploymentSpecification)
    (last : AppDeploymentSpecification)
    (forwarder_deployment_specifications : option (list AppDeploymentSpecification)) :
  Exists combinable others → combinable last →
  AppDeploymentSpecification_get_deployment_specifications
    (others ++ [last]) true forwarder_deployment_specifications
  = Raise "IndexError".
Proof.
  intros Hex Hlast.
  unfold AppDeploymentSpecification_get_deployment_specifications.
  rewrite bool_decide_eq_false_2
    by (rewrite length_app; simpl; lia).
  rewrite foldl_combine_step_app.
  destruct (foldl_combine_step_indices ∅ [] 0 others)
    as (g & r & Hfold & Hlen & Hall).
  change (imap (fun i s => (0 + i, s)) others) with (imap pair others) in Hfold.
  rewrite Hfold. cbn [imap foldl app].
  destruct (Hlast) as [_ [groups Hg]].
  rewrite (combine_step_combinable _ _ _ _ groups) by done.
  rewrite Nat.add_0_r. cbn [app].
  rewrite foldlM_app.
  assert (0 < length r) as Hpos.
  { rewrite Hlen. apply Exists_exists in Hex as (s & Hin & Hs).
    assert (s ∈ filter combinable others) as Hf by (by apply list_elem_of_filter).
    destruct (filter combinable others); [by apply elem_of_nil in Hf|simpl; lia]. }
  destruct (foldlM_list_del r (others ++ [last])) as [(l' & Hrun & Hl)|Hrun];
    rewrite Hrun; [|done].
  simpl. rewrite length_app in Hl. simpl in Hl.
  rewrite list_del_ge by lia. done.
Qed.

(** X10: whatever the arguments, a name is reported as a duplicate exactly
    when the returned list names two specifications alike; the number of
    reports is the number of specifications beyond the first of each
    name. *)
Theorem duplicate_names_reported
    (deployment_specifications : list AppDeploymentSpecification)
    (combine_search_head_indexer_workloads : bool)
    (forwarder_deployment_specifications : option (list AppDeploymentSpecification))
    (result : list AppDeploymentSpecification) (reported : list string) :
  AppDeploymentSpecification_get_deployment_specifications
    deployment_specifications combine_search_head_indexer_workloads
    forwarder_deployment_specifications
  = Ok (result, reported) →
  (reported = [] ↔ NoDup (name <$> result)) ∧
  (∀ n, n ∈ reported → n ∈ (name <$> result)) ∧
  length reported + size (list_to_set (name <$> result) : gset string)
  = length result.
Proof.
  unfold AppDeploymentSpecification_get_deployment_specifications.
  intros Hrun.
  match type of Hrun with
  | (mbind _ ?m) = _ => destruct m as [r| |] eqn:Hm; simpl in Hrun; try done
  end.
  injection Hrun as <- <-.
  destruct (name_clash_steps ∅ [] r) as (more & Hfold & Hnil & Hin & Hlen).
  rewrite Hfold. simpl. split_and!.
  - rewrite Hnil. split; [tauto|]. intros Hnd. split; [done|]. set_solver.
  - done.
  - rewrite <- Hlen. f_equal. f_equal. set_solver.
Qed.

End workloads.

(** [combined_workloads_replace_one] on a forwarder specification and one
    for search heads with the input group [a]. *)
Lemma combined_workloads_replace_one_witness :
  ∃ reported,
    AppDeploymentSpecification_get_deployment_specifications
      [Example.windows_forwarders; Example.on_search_heads "web" {["a"]}]
      true None
    = Ok ([Example.windows_forwarders; search_head_indexers {["a"]}], reported).
Proof.
  refine (combined_workloads_replace_one [Example.windows_forwarders] []
            (Some (Example.on_search_heads "web" {["a"]})) None _ _ _ _).
  - constructor; [|constructor]. apply (bool_decide_unpack _). by vm_compute.
  - constructor.
  - apply (bool_decide_unpack _). by vm_compute.
  - discriminate.
Defined.

(** [combined_workloads_raise_IndexError] on two specifications for search
    heads. *)
Lemma combined_workloads_raise_IndexError_witness :
  AppDeploymentSpecification_get_deployment_specifications
    [Example.on_search_heads "web" {["a"]}; Example.on_search_heads "mail" {["b"]}]
    true None
  = Raise "IndexError".
Proof.
  apply (combined_workloads_raise_IndexError
           [Example.on_search_heads "web" {["a"]}]
           (Example.on_search_heads "mail" {["b"]}) None).
  - constructor. apply (bool_decide_unpack _). by vm_compute.
  - apply (bool_decide_unpack _). by vm_compute.
Defined.

(** [duplicate_names_reported] on forwarder specifications that repeat the
    name [_forwarders]. *)
Lemma duplicate_names_reported_witness :
  (["_forwarders"] = [] ↔ NoDup (name <$> Example.repeated_forwarders)) ∧
  (∀ n, n ∈ ["_forwarders"] → n ∈ (name <$> Example.repeated_forwarders)) ∧
  length ["_forwarders"]
  + size (list_to_set (name <$> Example.repeated_forwarders) : gset string)
  = length Example.repeated_forwarders.
Proof.
  apply (duplicate_names_reported [Example.windows_forwarders] false
           (Some [Example.forwarders_with {["unix"]}])).
  vm_compute. reflexivity.
Defined.

(** ** JSON data: validation and conversion against a schema *)

Module JsonFacts.

(** Induction over data types, through the definitions they hold. *)
Lemma JsonDataType_induction (P : JsonDataType → Prop) :
  P JsonBoolean → P JsonNumber → P JsonString →
  (∀ definition, P (data_type definition) → P (JsonArray definition)) →
  (∀ fields any,
     (∀ fs, fields = Some fs → Forall (fun f => P (data_type f.2)) fs) →
     (∀ a, any = Some a → P (data_type a)) →
     P (JsonObject fields any)) →
  ∀ t, P t.
Proof.
  intros HB HN HS HA HO.
  refine (fix IH (t : JsonDataType) : P t :=
    match t with
    | JsonBoolean => HB
    | JsonNumber => HN
    | JsonString => HS
    | JsonArray definition => HA definition (IH (data_type definition))
    | JsonObject fields any =>
        HO fields any
          (match fields as o
             return ∀ fs, o = Some fs → Forall (fun f => P (data_type f.2)) fs
           with
           | None => fun fs Heq => _
           | Some fs0 => fun fs Heq =>
               eq_ind fs0 (Forall (fun f => P (data_type f.2)))
                 ((fix go (l : list (string * JsonValueOf JsonDataType))
                     : Forall (fun f => P (data_type f.2)) l :=
                     match l with
                     | [] => List.Forall_nil _
                     | f :: l => List.Forall_cons _ f l (IH (data_type f.2)) (go l)
                     end) fs0) fs _
           end)
          (match any as o return ∀ a, o = Some a → P (data_type a) with
           | None => fun a Heq => _
           | Some a0 => fun a Heq =>
               eq_ind a0 (fun a => P (data_type a)) (IH (data_type a0)) a _
           end)
    end).
  - by injection Heq.
  - discriminate Heq.
  - by injection Heq.
  - discriminate Heq.
Qed.

Lemma reports_silent b (st : list message) :
  b = true →
  (∃ b' more, Ok (b, st) = Ok (b', st ++ more) ∧ (b' = true ↔ more = [])) ∨
  Ok (b, st) = Raise (A := bool * list message) "TypeError".
Proof. intros ->. left. exists true, []. by rewrite app_nil_r. Qed.

Lemma base_reports self name v : reports (base_validate log_message self name v).
Proof.
  intros st. unfold base_validate. destruct (is_instance self v).
  - by apply reports_silent.
  - left. simpl. eexists false, [_]. split; [done|]. split; discriminate.
Qed.

Lemma value_reports (definition : JsonValue) name v :
  (∀ name v, reports (validate log_message (data_type definition) name v)) →
  reports (JsonValue_validate_with log_message (validate log_message)
             definition name v).
Proof.
  intros IH st. unfold JsonValue_validate_with.
  destruct v; try apply IH.
  destruct (required definition).
  - left. simpl. eexists false, [_]. split; [done|]. split; discriminate.
  - by apply reports_silent.
Qed.

Lemma count_errors_cons {State A}
    (validation : A → State → outcome (bool * State)) n st a l :
  foldlM (count_errors validation) (n, st) (a :: l)
  = ('(b, st') ← validation a st;
     foldlM (count_errors validation) (n + (if b : bool then 0 else 1), st') l).
Proof.
  cbn [foldlM]. unfold count_errors. simpl.
  by destruct (validation a st) as [[b st']| |].
Qed.

(** A loop that counts the failed validations returns the count it was
    given exactly when nothing was reported. *)
Lemma count_errors_reports {A}
    (validation : A → list message → outcome (bool * list message)) l :
  Forall (fun a => reports (validation a)) l →
  ∀ n st,
    (∃ n' more,
       foldlM (count_errors validation) (n, st) l = Ok (n', st ++ more) ∧
       n ≤ n' ∧ (n' = n ↔ more = [])) ∨
    foldlM (count_errors validation) (n, st) l = Raise "TypeError".
Proof.
  induction 1 as [|a l Ha _ IH]; intros n st.
  - left. exists n, []. simpl. rewrite app_nil_r. split_and!; [done|lia|done].
  - rewrite !count_errors_cons.
    destruct (Ha st) as [(b & more & Hrun & Hb)|Hrun]; rewrite Hrun; simpl;
      [|by right].
    destruct (IH (n + (if b then 0 else 1)) (st ++ more))
      as [(n' & more' & Hloop & Hle & Hn)|Hloop]; rewrite Hloop; [|by right].
    left. exists n', (more ++ more'). rewrite app_assoc. split; [done|].
    destruct b.
    + rewrite Nat.add_0_r in Hle, Hn. split; [done|].
      rewrite Hn. destruct Hb as [Hb _]. rewrite (Hb eq_refl). done.
    + split; [lia|]. split; [lia|].
      intros [Hm _]%app_eq_nil. destruct Hb as [_ Hb]. by specialize (Hb Hm).
Qed.

Lemma bind_Ok {A B} (a : A) (f : A → outcome B) : (Ok a ≫= f) = f a.
Proof. reflexivity. Qed.

Lemma bind_Raise {A B} e (f : A → outcome B) : (Raise e ≫= f) = Raise e.
Proof. reflexivity. Qed.

Lemma illegal_names_reports name
    (fields : list (string * JsonValueOf JsonDataType)) names :
  ∀ n st,
    ∃ n' more,
      foldlM (fun '(error_count, st) field_name =>
                if OrderedDict.contains field_name fields
                then Ok (error_count, st)
                else
                  st ← log_message (IllegalFieldName name field_name) st;
                  Ok (error_count + 1, st))
        (n, st) names
      = Ok (n', st ++ more) ∧
      n ≤ n' ∧ (n' = n ↔ more = []).
Proof.
  match goal with |- context [foldlM ?F _ _] => set (body := F) end.
  induction names as [|k names IH]; intros n st.
  - exists n, []. simpl. rewrite app_nil_r. split_and!; [done|lia|done].
  - cbn [foldlM].
    assert (body (n, st) k
            = if OrderedDict.contains k fields then Ok (n, st)
              else Ok (n + 1, st ++ [IllegalFieldName name k])) as ->
      by (unfold body; by destruct (OrderedDict.contains k fields)).
    destruct (OrderedDict.contains k fields); rewrite bind_Ok.
    + apply IH.
    + destruct (IH (n + 1) (st ++ [IllegalFieldName name k]))
        as (n' & more & Hloop & Hle & Hn).
      rewrite Hloop. exists n', (IllegalFieldName name k :: more).
      rewrite <- app_assoc. simpl. split; [done|]. split; [lia|].
      split; [lia|discriminate].
Qed.

Lemma extra_fields_reports
    (validation : string → list message → outcome (bool * list message))
    (fields : list (string * JsonValueOf JsonDataType)) names :
  (∀ k, reports (validation k)) →
  ∀ n st,
    (∃ n' more,
       foldlM (fun acc field_name =>
                 if OrderedDict.contains field_name fields then Ok acc
                 else count_errors validation acc field_name)
         (n, st) names
       = Ok (n', st ++ more) ∧
       n ≤ n' ∧ (n' = n ↔ more = [])) ∨
    foldlM (fun acc field_name =>
              if OrderedDict.contains field_name fields then Ok acc
              else count_errors validation acc field_name)
      (n, st) names
    = Raise "TypeError".
Proof.
  intros Hall.
  match goal with |- context [foldlM ?F _ _] => set (body := F) end.
  induction names as [|k names IH]; intros n st.
  - left. exists n, []. simpl. rewrite app_nil_r. split_and!; [done|lia|done].
  - cbn [foldlM].
    assert (body (n, st) k
            = if OrderedDict.contains k fields then Ok (n, st)
              else '(b, st') ← validation k st;
                   Ok (n + (if b : bool then 0 else 1), st')) as ->.
    { unfold body, count_errors. destruct (OrderedDict.contains k fields); [done|].
      simpl. by destruct (validation k st) as [[b st']| |]. }
    destruct (OrderedDict.contains k fields).
    + rewrite !bind_Ok. apply IH.
    + destruct (Hall k st) as [(b & more & Hrun & Hb)|Hrun]; rewrite Hrun;
        [|right; by rewrite !bind_Raise].
      rewrite !bind_Ok.
      destruct (IH (n + (if b then 0 else 1)) (st ++ more))
        as [(n' & more' & Hloop & Hle & Hn)|Hloop]; rewrite Hloop; [|by right].
      left. exists n', (more ++ more'). rewrite app_assoc. split; [done|].
      destruct b.
      * rewrite Nat.add_0_r in Hle, Hn. split; [done|].
        rewrite Hn. destruct Hb as [Hb _]. rewrite (Hb eq_refl). done.
      * split; [lia|]. split; [lia|].
        intros [Hm _]%app_eq_nil. destruct Hb as [_ Hb]. by specialize (Hb Hm).
Qed.

Lemma counted_reports n (st : list message) more :
  (n = 0 ↔ more = []) →
  (∃ b more', Ok (bool_decide (n = 0), st ++ more) = Ok (b, st ++ more') ∧
              (b = true ↔ more' = [])) ∨
  Ok (bool_decide (n = 0), st ++ more)
  = Raise (A := bool * list message) "TypeError".
Proof.
  intros Hn. left. exists (bool_decide (n = 0)), more. split; [done|].
  by rewrite bool_decide_eq_true.
Qed.

Lemma validate_reports self : ∀ name v, reports (validate log_message self name v).
Proof.
  induction self as [| | |definition IH|fields any IHf IHa]
    using JsonDataType_induction; intros name v st.
  - apply base_reports.
  - apply base_reports.
  - apply base_reports.
  - cbn [validate]. unfold base_validate.
    destruct (is_instance (JsonArray definition) v) eqn:Hinst.
    2:{ left. eexists false, [_]. split; [done|]. split; discriminate. }
    rewrite bind_Ok. cbv beta iota. cbn [negb].
    destruct (iterate v) as [elements|]; [|by right].
    match goal with
    | |- context [foldlM (count_errors ?f) _ ?l] =>
        destruct (count_errors_reports f l) with (n := 0) (st := st)
          as [(n' & more & Hloop & _ & Hn)|Hloop]
    end.
    + apply Forall_forall. intros [i element] _. by apply value_reports.
    + rewrite Hloop, bind_Ok. by apply counted_reports.
    + rewrite Hloop. by right.
  - cbn [validate]. unfold base_validate.
    destruct (is_instance (JsonObject fields any) v) eqn:Hinst.
    2:{ left. eexists false, [_]. split; [done|]. split; discriminate. }
    rewrite bind_Ok. cbv beta iota. cbn [negb].
    destruct v as [| | | | |d|]; try discriminate Hinst.
    destruct fields as [fs|]; [|destruct any as [extra|]].
    + specialize (IHf fs eq_refl).
      match goal with
      | |- context [foldlM (count_errors ?f) _ ?l] =>
          destruct (count_errors_reports f l) with (n := 0) (st := st)
            as [(n1 & more1 & Hloop & _ & Hn1)|Hloop]
      end.
      * apply Forall_forall. intros [k field] Hin. apply value_reports.
        rewrite Forall_forall in IHf. apply (IHf _ Hin).
      * rewrite Hloop, bind_Ok. cbv beta iota. destruct any as [extra|].
        -- match goal with
           | |- context [foldlM ?f _ ?l] =>
               destruct (extra_fields_reports
                           (fun field_name =>
                              JsonValue_validate_with log_message
                                (validate log_message) extra
                                (name +:+ "." +:+ field_name)
                                (dict_get field_name d)) fs l) with
                 (n := n1) (st := st ++ more1)
                 as [(n2 & more2 & Hloop2 & Hle & Hn2)|Hloop2]
           end.
           ++ intros k. apply value_reports. by apply IHa.
           ++ rewrite Hloop2, bind_Ok. cbv beta iota. rewrite <- app_assoc.
              apply counted_reports. split.
              ** intros Hn0. assert (n1 = 0) as Hn10 by lia. subst n2 n1.
                 by rewrite (proj1 Hn1 eq_refl), (proj1 Hn2 eq_refl).
              ** intros [Hm1 Hm2]%app_eq_nil.
                 destruct Hn1 as [_ Hn1]. destruct Hn2 as [_ Hn2].
                 rewrite (Hn2 Hm2). by apply Hn1.
           ++ rewrite Hloop2. by right.
        -- destruct (illegal_names_reports name fs d.*1 n1 (st ++ more1))
             as (n2 & more2 & Hloop2 & Hle & Hn2).
           rewrite Hloop2, bind_Ok. cbv beta iota. rewrite <- app_assoc.
           apply counted_reports. split.
           ** intros Hn0. assert (n1 = 0) as Hn10 by lia. subst n2 n1.
              by rewrite (proj1 Hn1 eq_refl), (proj1 Hn2 eq_refl).
           ** intros [Hm1 Hm2]%app_eq_nil.
              destruct Hn1 as [_ Hn1]. destruct Hn2 as [_ Hn2].
              rewrite (Hn2 Hm2). by apply Hn1.
      * rewrite Hloop. by right.
    + match goal with
      | |- context [foldlM (count_errors ?f) _ ?l] =>
          destruct (count_errors_reports f l) with (n := 0) (st := st)
            as [(n1 & more1 & Hloop & _ & Hn1)|Hloop]
      end.
      * apply Forall_forall. intros k _. apply value_reports. by apply IHa.
      * rewrite Hloop, bind_Ok. by apply counted_reports.
      * rewrite Hloop. by right.
    + by apply reports_silent.
Qed.

Lemma count_errors_silent {State A}
    (validation : A → State → outcome (bool * State)) l :
  (∀ a st, a ∈ l → validation a st = Ok (true, st)) →
  ∀ n st, foldlM (count_errors validation) (n, st) l = Ok (n, st).
Proof.
  induction l as [|a l IH]; intros Hall n st; [done|].
  rewrite count_errors_cons, Hall by left. rewrite bind_Ok. cbv beta iota.
  rewrite Nat.add_0_r. apply IH. intros a' st' Hin. apply Hall. by right.
Qed.

Section conversion.
Context {State : Type}.
Variable onerror : message → State → outcome State.
Variable str_format : string → nat → outcome string.
Variable rebuild : value → list value → outcome value.

Notation convert_from := (convert_from onerror str_format rebuild).

(** What assigning one field does to the [dict]. *)
Lemma convert_field_set name acc field_name (definition : JsonValue) acc' :
  convert_field onerror convert_from name acc field_name definition = Ok acc' →
  ∃ e, acc'.1 = OrderedDict.set field_name e acc.1 ∧
       (dict_get field_name acc.1 = VNone → e = default_value definition).
Proof.
  unfold convert_field, JsonValue_convert_from_with. intros Hrun.
  destruct (dict_get field_name acc.1) eqn:Hget.
  - destruct (required definition); simpl in Hrun.
    + destruct (onerror _ acc.2); simpl in Hrun; try done.
      injection Hrun as <-. by eexists.
    + injection Hrun as <-. by eexists.
  - destruct (convert_from _ _ _ _ _ _) as [[e st]| |]; simpl in Hrun; try done.
    injection Hrun as <-. by eexists.
  - destruct (convert_from _ _ _ _ _ _) as [[e st]| |]; simpl in Hrun; try done.
    injection Hrun as <-. by eexists.
  - destruct (convert_from _ _ _ _ _ _) as [[e st]| |]; simpl in Hrun; try done.
    injection Hrun as <-. by eexists.
  - destruct (convert_from _ _ _ _ _ _) as [[e st]| |]; simpl in Hrun; try done.
    injection Hrun as <-. by eexists.
  - destruct (convert_from _ _ _ _ _ _) as [[e st]| |]; simpl in Hrun; try done.
    injection Hrun as <-. by eexists.
  - destruct (convert_from _ _ _ _ _ _) as [[e st]| |]; simpl in Hrun; try done.
    injection Hrun as <-. by eexists.
Qed.

Lemma dict_get_absent k d : k ∉ d.*1 → dict_get k d = VNone.
Proof.
  intros Hk. unfold dict_get.
  by rewrite (proj2 (OrderedDictFacts.get_None k d) Hk).
Qed.

(** The loop over the declared fields: every field becomes a key, and a
    field that the [dict] lacked holds its default. *)
Lemma convert_fields_loop name (fields : list (string * JsonValueOf JsonDataType))
    acc acc' :
  NoDup fields.*1 →
  foldlM (fun acc '(field_name, definition) =>
            convert_field onerror convert_from name acc field_name definition)
    acc fields = Ok acc' →
  (∀ k, k ∈ acc'.1.*1 ↔ k ∈ acc.1.*1 ∨ k ∈ fields.*1) ∧
  (∀ k definition, (k, definition) ∈ fields → k ∉ acc.1.*1 →
     OrderedDict.get k acc'.1 = Some (default_value definition)) ∧
  (∀ k, k ∉ fields.*1 → OrderedDict.get k acc'.1 = OrderedDict.get k acc.1).
Proof.
  revert acc. induction fields as [|[k0 def0] fields IH]; intros acc Hnd Hrun.
  - injection Hrun as <-. split_and!.
    + intros k. rewrite fmap_nil, elem_of_nil. tauto.
    + intros k definition Hin. by apply elem_of_nil in Hin.
    + done.
  - cbn [foldlM] in Hrun. rewrite fmap_cons in Hnd. cbn [fst] in Hnd.
    apply NoDup_cons in Hnd as [Hk0 Hnd].
    destruct (convert_field onerror convert_from name acc k0 def0) as [acc1| |] eqn:Hstep;
      try done.
    rewrite bind_Ok in Hrun.
    apply convert_field_set in Hstep as (e & Hset & Hdefault).
    destruct (IH acc1 Hnd Hrun) as (Hkeys & Hnew & Hold).
    split_and!.
    + intros k. rewrite Hkeys, Hset.
      change ((OrderedDict.set k0 e acc.1).*1)
        with (OrderedDict.keys (OrderedDict.set k0 e acc.1)).
      rewrite OrderedDictFacts.elem_of_keys_set.
      rewrite fmap_cons, elem_of_cons. unfold OrderedDict.keys. cbn [fst]. tauto.
    + intros k definition [Heq|Hin]%elem_of_cons Hk.
      * injection Heq as -> ->. rewrite Hold by done. rewrite Hset.
        rewrite OrderedDictFacts.get_set_eq. f_equal. apply Hdefault.
        by apply dict_get_absent.
      * apply (Hnew k definition Hin). rewrite Hset.
        change ((OrderedDict.set k0 e acc.1).*1)
          with (OrderedDict.keys (OrderedDict.set k0 e acc.1)).
        rewrite OrderedDictFacts.elem_of_keys_set. intros [->|Hk']; [|done].
        apply Hk0. apply list_elem_of_fmap. by exists (k0, definition).
    + intros k Hk. rewrite fmap_cons, not_elem_of_cons in Hk. cbn [fst] in Hk.
      destruct Hk as [Hne Hk]. rewrite (Hold k Hk), Hset.
      by rewrite OrderedDictFacts.get_set_ne.
Qed.

(** The loop over the other keys of the [dict]: the keys stay, and so do
    the values of the declared fields. *)
Lemma convert_extra_loop name (fields : list (string * JsonValueOf JsonDataType))
    (field_pack : JsonValue) names acc acc' :
  (∀ k, k ∈ names → k ∈ acc.1.*1) →
  foldlM (fun acc field_name =>
            if OrderedDict.contains field_name fields then Ok acc
            else convert_field onerror convert_from name acc field_name field_pack)
    acc names = Ok acc' →
  (∀ k, k ∈ acc'.1.*1 ↔ k ∈ acc.1.*1) ∧
  (∀ k, k ∈ fields.*1 → OrderedDict.get k acc'.1 = OrderedDict.get k acc.1).
Proof.
  revert acc. induction names as [|k0 names IH]; intros acc Hin Hrun.
  - by injection Hrun as <-.
  - cbn [foldlM] in Hrun.
    destruct (OrderedDict.contains k0 fields) eqn:Hc.
    + rewrite bind_Ok in Hrun. apply (IH acc); [|done].
      intros k Hk. apply Hin. by right.
    + destruct (convert_field onerror convert_from name acc k0 field_pack)
        as [acc1| |] eqn:Hstep; try done.
      rewrite bind_Ok in Hrun.
      apply convert_field_set in Hstep as (e & Hset & _).
      assert (∀ k, k ∈ acc1.1.*1 ↔ k ∈ acc.1.*1) as Hsame.
      { intros k. rewrite Hset.
        change ((OrderedDict.set k0 e acc.1).*1)
          with (OrderedDict.keys (OrderedDict.set k0 e acc.1)).
        rewrite OrderedDictFacts.elem_of_keys_set. unfold OrderedDict.keys.
        split; [|tauto]. intros [->|?]; [|done]. apply Hin. left. }
      destruct (IH acc1) as (Hkeys & Hvalues); [|done|].
      { intros k Hk. apply Hsame, Hin. by right. }
      split.
      * intros k. by rewrite Hkeys, Hsame.
      * intros k Hk. rewrite (Hvalues k Hk), Hset.
        apply OrderedDictFacts.get_set_ne. intros ->.
        apply OrderedDictFacts.contains_false in Hc. by apply Hc.
Qed.

End conversion.

End JsonFacts.

Section json_theorems.
Import JsonFacts.

(** X11: with an [onerror] that keeps the messages, [validate] either
    raises [TypeError] or returns, and then it has only added messages and
    its answer is [True] exactly when it has added none; this holds of the
    [validate] of every data type and of [JsonValue.validate]. *)
Theorem validate_true_iff_nothing_reported (self : JsonDataType)
    (definition : JsonValue) (name : string) (v : value) :
  reports (validate log_message self name v) ∧
  reports (JsonValue_validate log_message definition name v).
Proof.
  split; [apply validate_reports|].
  apply value_reports. intros name' v'. apply validate_reports.
Qed.

Context {State : Type}.
Variable onerror : message → State → outcome State.
Variable str_format : string → nat → outcome string.
Variable rebuild : value → list value → outcome value.

(** X12: an array of strings whose elements have no converter takes a
    bare string for the array of that one string: nothing is reported,
    whatever [onerror] is, and the converter of the array, if any, is
    given the one-element list. *)
Theorem array_wraps_bare_string (element : JsonValue) (name s : string)
    (convert : option JsonDataTypeConverter) (default : value) (st : State) :
  data_type element = JsonString → converter element = None →
  convert_from onerror str_format rebuild (JsonArray element) name (VString s)
    convert default st
  = match convert with
    | None => Ok (VList [VString s], st)
    | Some convert => v ← convert (VList [VString s]); Ok (v, st)
    end.
Proof.
  intros Htype Hconv. cbn [convert_from validate]. unfold base_validate.
  cbn [is_instance is_iterable iterate orb]. rewrite bind_Ok. cbv beta iota.
  cbn [negb].
  rewrite count_errors_silent.
  2:{ intros [i e] st' Hin. apply elem_of_lookup_imap in Hin as (i' & x & Heq & Hx).
      injection Heq as -> ->. apply list_lookup_fmap_Some in Hx as (c & -> & _).
      unfold JsonValue_validate_with. rewrite Htype. reflexivity. }
  rewrite !bind_Ok. cbv beta iota. cbn [negb].
  rewrite Htype. cbn [is_instance]. unfold JsonValue_convert_from_with.
  rewrite Htype, Hconv. reflexivity.
Qed.

(** X13: a value that cannot be iterated over and that the type of the
    elements accepts, such as a number for an array of numbers, is not
    taken for an array of one element: the validation enumerates it, and
    both [validate] and [convert_from] raise [TypeError]. *)
Theorem array_of_scalar_raises_TypeError (definition : JsonValue)
    (name : string) (v : value) (convert : option JsonDataTypeConverter)
    (default : value) (st : State) :
  iterate v = None → is_instance (data_type definition) v = true →
  validate onerror (JsonArray definition) name v st = Raise "TypeError" ∧
  convert_from onerror str_format rebuild (JsonArray definition) name v
    convert default st = Raise "TypeError".
Proof.
  intros Hiter Hinst.
  assert (validate onerror (JsonArray definition) name v st = Raise "TypeError")
    as Hv.
  { cbn [validate]. unfold base_validate. cbn [is_instance]. rewrite Hinst.
    rewrite orb_true_r, bind_Ok. cbv beta iota. cbn [negb]. by rewrite Hiter. }
  split; [done|]. cbn [convert_from]. by rewrite Hv.
Qed.

(** X14: the conversion of a [dict] against an object with declared fields
    and no converter returns the [dict] with every declared field for a
    key, beside the keys it had; a declared field that the [dict] lacked
    holds the default of the field. *)
Theorem object_conversion_sets_fields
    (fields : list (string * JsonValueOf JsonDataType)) (any : option JsonValue)
    (name : string) (d : list (string * value)) (default : value) (st : State)
    (v' : value) (st' : State) :
  NoDup fields.*1 →
  convert_from onerror str_format rebuild (JsonObject (Some fields) any) name
    (VDict d) None default st = Ok (v', st') →
  ∃ d', v' = VDict d' ∧
    (∀ k, k ∈ d'.*1 ↔ k ∈ d.*1 ∨ k ∈ fields.*1) ∧
    (∀ k definition, (k, definition) ∈ fields → k ∉ d.*1 →
       OrderedDict.get k d' = Some (default_value definition)).
Proof.
  intros Hnd. cbn [convert_from]. unfold base_validate. cbn [is_instance].
  rewrite bind_Ok. cbv beta iota. cbn [negb]. intros Hrun.
  match type of Hrun with
  | context [foldlM ?f (d, st) fields] =>
      destruct (foldlM f (d, st) fields) as [[d1 st1]| |] eqn:Hloop
  end; try done.
  apply (convert_fields_loop onerror str_format rebuild) in Hloop
    as (Hkeys & Hnew & Hold); [|done].
  rewrite bind_Ok in Hrun. cbv beta iota in Hrun.
  destruct any as [field_pack|].
  - match type of Hrun with
    | context [foldlM ?f (d1, st1) ?l] =>
        destruct (foldlM f (d1, st1) l) as [[d2 st2]| |] eqn:Hloop2
    end; try done.
    apply (convert_extra_loop onerror str_format rebuild) in Hloop2
      as (Hkeys2 & Hvalues); [|done].
    rewrite !bind_Ok in Hrun. cbv beta iota in Hrun.
    injection Hrun as <- <-. exists d2. split; [done|]. split.
    + intros k. rewrite Hkeys2. apply Hkeys.
    + intros k definition Hin Hk. cbn [fst] in *. rewrite Hvalues.
      * by apply (Hnew k definition).
      * apply list_elem_of_fmap. by exists (k, definition).
  - rewrite !bind_Ok in Hrun. cbv beta iota in Hrun.
    injection Hrun as <- <-. exists d1. split; [done|]. split; [apply Hkeys|].
    apply Hnew.
Qed.

End json_theorems.

(** [array_wraps_bare_string] on the workload ["forwarder"] of a
    deployment specification. *)
Lemma array_wraps_bare_string_witness :
  convert_from log_message Example.format_index Example.rebuild_frozenset
    (JsonArray Example.string_element) "workload" (VString "forwarder") None
    VNone []
  = Ok (VList [VString "forwarder"], []).
Proof.
  apply (array_wraps_bare_string log_message Example.format_index
           Example.rebuild_frozenset Example.string_element "workload"
           "forwarder" None VNone []); reflexivity.
Defined.

(** [array_of_scalar_raises_TypeError] on the number [5] and an array of
    numbers. *)
Lemma array_of_scalar_raises_TypeError_witness :
  validate log_message (JsonArray Example.number_element) "n" (VNumber 5) []
  = Raise "TypeError" ∧
  convert_from log_message Example.format_index Example.rebuild_frozenset
    (JsonArray Example.number_element) "n" (VNumber 5) None VNone []
  = Raise "TypeError".
Proof.
  apply (array_of_scalar_raises_TypeError log_message Example.format_index
           Example.rebuild_frozenset Example.number_element "n" (VNumber 5)
           None VNone []); reflexivity.
Defined.

(** [object_conversion_sets_fields] on a [dict] that lacks the field [w]. *)
Lemma object_conversion_sets_fields_witness :
  ∃ d', VDict [("name", VString "x"); ("w", VString "DW")] = VDict d' ∧
    (∀ k, k ∈ d'.*1 ↔ k ∈ [("name", VString "x")].*1 ∨ k ∈ Example.named_fields.*1) ∧
    (∀ k definition, (k, definition) ∈ Example.named_fields →
       k ∉ [("name", VString "x")].*1 →
       OrderedDict.get k d' = Some (default_value definition)).
Proof.
  apply (object_conversion_sets_fields log_message Example.format_index
           Example.rebuild_frozenset Example.named_fields None "o"
           [("name", VString "x")] VNone [] _ []).
  - apply (bool_decide_unpack _). by vm_compute.
  - vm_compute. reflexivity.
Defined.

(** ** Deployment specifications of forwarder workloads *)

Module ForwarderFacts.
Import JsonFacts.

Lemma elem_of_set_ne {V} (k k' : string) (v v' : V) d :
  NoDup d.*1 → (k', v') ∈ OrderedDict.set k v d →
  (k' = k ∧ v' = v) ∨ (k' ≠ k ∧ (k', v') ∈ d).
Proof.
  intros Hnd Hin.
  apply OrderedDictFacts.get_elem_NoDup in Hin;
    [|by apply OrderedDictFacts.NoDup_keys_set].
  destruct (decide (k' = k)) as [->|Hne].
  - rewrite OrderedDictFacts.get_set_eq in Hin. injection Hin as ->. by left.
  - rewrite OrderedDictFacts.get_set_ne in Hin by done.
    right. split; [done|]. by apply OrderedDictFacts.get_Some_elem.
Qed.

Lemma update_entered done specs g sc :
  entered done specs →
  ∃ specs', update g sc specs = Ok specs' ∧ entered (done ++ [(g, sc)]) specs'.
Proof.
  intros (Hnd & Hkeys & Hspecs). unfold update.
  destruct (OrderedDict.get sc specs) as [spec|] eqn:Hget.
  - apply OrderedDictFacts.get_Some_elem in Hget as Hin.
    destruct (Hspecs sc spec Hin) as (Hname & (G & HG & HGm) & Hw).
    rewrite HG, bind_Ok. eexists. split; [done|].
    set (spec' := if bool_decide (sc ∈ ["_search_heads"; "_indexers"]) then _ else _).
    assert (name spec' = sc ∧ inputGroups spec' = Some (G ∪ {[g]}) ∧
            workload spec' = workload spec) as (Hn' & Hg' & Hw').
    { unfold spec'. case_bool_decide as Hsc; simpl; [|done].
      split_and!; [done..|]. rewrite Hw. set_solver. }
    split_and!.
    + by apply OrderedDictFacts.NoDup_keys_set.
    + intros sc'. change ((OrderedDict.set sc spec' specs).*1)
        with (OrderedDict.keys (OrderedDict.set sc spec' specs)).
      rewrite OrderedDictFacts.elem_of_keys_set. unfold OrderedDict.keys.
      rewrite Hkeys. split.
      * intros [->|[g' Hg]]; [exists g|exists g']; set_solver.
      * intros [g' Hg]. apply elem_of_app in Hg as [Hg|Hg];
          [right; by exists g'|left].
        apply list_elem_of_singleton in Hg. by injection Hg.
    + intros sc' s' Hin'.
      apply elem_of_set_ne in Hin' as [[Hk' Hv']|[Hne Hin']]; [subst sc' s'| |done].
      * split; [done|]. split; [|by rewrite Hw'].
        exists (G ∪ {[g]}). split; [done|]. intros g'.
        rewrite elem_of_union, HGm, elem_of_app, elem_of_singleton,
          list_elem_of_singleton. split; [intros [?| ->]; auto|].
        intros [?|[= ->]]; auto.
      * destruct (Hspecs sc' s' Hin') as (Hn1 & (G1 & HG1 & HGm1) & Hw1).
        split; [done|]. split; [|done]. exists G1. split; [done|].
        intros g'. rewrite HGm1, elem_of_app, list_elem_of_singleton.
        split; [auto|]. intros [?|[= _ ->]]; [done|]. by destruct Hne.
  - rewrite bind_Ok. eexists. split; [done|].
    apply OrderedDictFacts.get_None in Hget. unfold OrderedDict.keys in Hget.
    set (spec' := if bool_decide (sc ∈ ["_search_heads"; "_indexers"]) then _ else _).
    assert (name spec' = sc ∧ inputGroups spec' = Some {[g]} ∧
            workload spec'
            = {[ "forwarder" ]} ∪
              (if bool_decide (sc ∈ ["_search_heads"; "_indexers"])
               then {[ sc ]} else ∅)) as (Hn' & Hg' & Hw').
    { unfold spec'. case_bool_decide as Hsc; simpl; [done|].
      split_and!; [done..|]. set_solver. }
    split_and!.
    + by apply OrderedDictFacts.NoDup_keys_set.
    + intros sc'. change ((OrderedDict.set sc spec' specs).*1)
        with (OrderedDict.keys (OrderedDict.set sc spec' specs)).
      rewrite OrderedDictFacts.elem_of_keys_set. unfold OrderedDict.keys.
      rewrite Hkeys. split.
      * intros [->|[g' Hg]]; [exists g|exists g']; set_solver.
      * intros [g' Hg]. apply elem_of_app in Hg as [Hg|Hg];
          [right; by exists g'|left].
        apply list_elem_of_singleton in Hg. by injection Hg.
    + intros sc' s' Hin'.
      apply elem_of_set_ne in Hin' as [[Hk' Hv']|[Hne Hin']]; [subst sc' s'| |done].
      * split; [done|]. split; [|done].
        exists {[g]}. split; [done|]. intros g'.
        rewrite elem_of_singleton, elem_of_app, list_elem_of_singleton. split.
        -- intros ->. by right.
        -- intros [Hd|[= ->]]; [|done]. destruct Hget. apply Hkeys. by exists g'.
      * destruct (Hspecs sc' s' Hin') as (Hn1 & (G1 & HG1 & HGm1) & Hw1).
        split; [done|]. split; [|done]. exists G1. split; [done|].
        intros g'. rewrite HGm1, elem_of_app, list_elem_of_singleton.
        split; [auto|]. intros [?|[= _ ->]]; [done|]. by destruct Hne.
Qed.

Lemma entered_nil : entered [] [].
Proof.
  split_and!.
  - constructor.
  - intros sc. split; [by intros ?%elem_of_nil|].
    intros [g Hg]. by apply elem_of_nil in Hg.
  - intros sc spec Hin. by apply elem_of_nil in Hin.
Qed.

Lemma inner_loop g l :
  ∀ done specs, entered done specs →
    match mapM names_of l with
    | Some names =>
        ∃ specs',
          foldlM (fun deployment_specifications server_class =>
                    match server_class with
                    | VString server_class =>
                        update g server_class deployment_specifications
                    | _ => Raise "ValueError"
                    end) specs l = Ok specs' ∧
          entered (done ++ (pair g <$> names)) specs'
    | None =>
        foldlM (fun deployment_specifications server_class =>
                  match server_class with
                  | VString server_class =>
                      update g server_class deployment_specifications
                  | _ => Raise "ValueError"
                  end) specs l = Raise "ValueError"
    end.
Proof.
  induction l as [|x l IH]; intros done specs Hent.
  - simpl. exists specs. by rewrite app_nil_r.
  - cbn [foldlM mapM].
    destruct x as [| | |sc| | |]; try done. cbn [names_of]. simpl.
    destruct (update_entered done specs g sc Hent) as (specs1 & -> & Hent1).
    rewrite bind_Ok. specialize (IH _ _ Hent1).
    destruct (mapM names_of l) as [names|]; simpl; [|done].
    destruct IH as (specs' & Hrun & Hent'). exists specs'. split; [done|].
    by rewrite <- app_assoc in Hent'.
Qed.

(** The pairs of an input group and a server class that the mapping
    lists, in order; [None] when some value is neither a name nor a list
    of names. *)
Lemma outer_loop fw :
  ∀ done specs, entered done specs →
    (Forall (fun entry => is_Some (server_class_names entry.2)) fw →
     ∃ specs' done',
       foldlM (fun deployment_specifications '(input_group, server_classes) =>
                 match server_classes with
                 | VString server_class =>
                     update input_group server_class deployment_specifications
                 | VList server_classes =>
                     foldlM (fun deployment_specifications server_class =>
                               match server_class with
                               | VString server_class =>
                                   update input_group server_class
                                     deployment_specifications
                               | _ => Raise "ValueError"
                               end)
                       deployment_specifications server_classes
                 | _ => Raise "ValueError"
                 end) specs fw = Ok specs' ∧
       entered (done ++ done') specs' ∧
       ∀ g sc, (g, sc) ∈ done' ↔ forwards_to fw g sc) ∧
    (Exists (fun entry => server_class_names entry.2 = None) fw →
     foldlM (fun deployment_specifications '(input_group, server_classes) =>
               match server_classes with
               | VString server_class =>
                   update input_group server_class deployment_specifications
               | VList server_classes =>
                   foldlM (fun deployment_specifications server_class =>
                             match server_class with
                             | VString server_class =>
                                 update input_group server_class
                                   deployment_specifications
                             | _ => Raise "ValueError"
                             end)
                     deployment_specifications server_classes
               | _ => Raise "ValueError"
               end) specs fw = Raise "ValueError").
Proof.
  match goal with |- context [foldlM ?F _ _] => set (step := F) end.
  assert (∀ done specs g v, entered done specs →
            match server_class_names v with
            | Some names =>
                ∃ specs', step specs (g, v) = Ok specs' ∧
                          entered (done ++ (pair g <$> names)) specs'
            | None => step specs (g, v) = Raise "ValueError"
            end) as Hstep.
  { intros done specs g v Hent. unfold step.
    destruct v as [| | |sc|l| |]; try done.
    - simpl. apply (update_entered done specs g sc Hent).
    - apply (inner_loop g l done specs Hent). }
  induction fw as [|[g v] fw IH]; intros done specs Hent.
  - split; [|by intros ?%Exists_nil]. intros _. exists specs, [].
    rewrite app_nil_r. split_and!; [done..|].
    intros g sc. split; [by intros ?%elem_of_nil|].
    intros (v & names & Hin & _). by apply elem_of_nil in Hin.
  - cbn [foldlM]. specialize (Hstep done specs g v Hent).
    destruct (server_class_names v) as [names|] eqn:Hv.
    + destruct Hstep as (specs1 & -> & Hent1). rewrite bind_Ok.
      destruct (IH _ _ Hent1) as [IHok IHbad]. split.
      * intros [_ Hall]%Forall_cons.
        destruct (IHok Hall) as (specs' & done' & Hrun & Hent' & Hdone).
        exists specs', ((pair g <$> names) ++ done'). rewrite app_assoc.
        split_and!; [done..|]. intros g' sc. rewrite elem_of_app, Hdone. split.
        -- intros [Hin|(v' & names' & Hin & Hn & Hsc)].
           ++ apply list_elem_of_fmap in Hin as (sc' & [= -> ->] & Hsc).
              exists v, names. split_and!; [left|done..].
           ++ exists v', names'. split_and!; [by right|done..].
        -- intros (v' & names' & [[= -> ->]|Hin]%elem_of_cons & Hn & Hsc).
           ++ left. rewrite Hv in Hn. injection Hn as ->.
              apply list_elem_of_fmap. by exists sc.
           ++ right. by exists v', names'.
      * intros [Hbad|Hbad]%Exists_cons; [simpl in Hbad; congruence|].
        by apply IHbad.
    + rewrite Hstep. split; [|done].
      intros [[x Hx] _]%Forall_cons. simpl in Hx. congruence.
Qed.

Lemma names_of_values (specs : list (string * AppDeploymentSpecification)) :
  (∀ sc spec, (sc, spec) ∈ specs → name spec = sc) →
  name <$> specs.*2 = specs.*1.
Proof.
  induction specs as [|[sc spec] specs IH]; intros Hall; [done|].
  rewrite !fmap_cons. simpl. f_equal.
  - apply Hall. left.
  - apply IH. intros sc' spec' Hin. apply Hall. by right.
Qed.

End ForwarderFacts.

(** X15: [from_forwarder_workloads] returns when every value of the
    mapping is a server class name or a list of such names, and raises
    [ValueError] otherwise. It returns one specification for each server
    class named, under pairwise distinct names: its input groups are
    those that name the server class, and its workload is [forwarder],
    with the name of the server class itself for [_search_heads] and
    [_indexers]. *)
Theorem forwarder_workloads_specifications
    (forwarder_workloads : list (string * value)) :
  (Forall (fun entry => is_Some (server_class_names entry.2)) forwarder_workloads →
   ∃ specs,
     from_forwarder_workloads forwarder_workloads = Ok specs ∧
     NoDup (name <$> specs) ∧
     (∀ server_class, server_class ∈ (name <$> specs) ↔
        ∃ input_group, forwards_to forwarder_workloads input_group server_class) ∧
     ∀ spec, spec ∈ specs →
       (∃ groups, inputGroups spec = Some groups ∧
          ∀ input_group, input_group ∈ groups ↔
            forwards_to forwarder_workloads input_group (name spec)) ∧
       workload spec
       = {[ "forwarder" ]} ∪
         (if bool_decide (name spec ∈ ["_search_heads"; "_indexers"])
          then {[ name spec ]} else ∅)) ∧
  (Exists (fun entry => server_class_names entry.2 = None) forwarder_workloads →
   from_forwarder_workloads forwarder_workloads = Raise "ValueError").
Proof.
  unfold from_forwarder_workloads.
  destruct (ForwarderFacts.outer_loop forwarder_workloads [] []
              ForwarderFacts.entered_nil) as [Hok Hbad].
  split.
  - intros Hall. destruct (Hok Hall) as (specs & done & Hrun & Hent & Hdone).
    rewrite Hrun. simpl in Hent. destruct Hent as (Hnd & Hkeys & Hspecs).
    assert (name <$> specs.*2 = specs.*1) as Hnames.
    { apply ForwarderFacts.names_of_values. intros sc spec Hin.
      by destruct (Hspecs sc spec Hin). }
    exists specs.*2. rewrite Hnames. split_and!; [done..| |].
    + intros sc. rewrite Hkeys. by setoid_rewrite Hdone.
    + intros spec Hin. apply list_elem_of_fmap in Hin as ([sc spec'] & -> & Hin).
      destruct (Hspecs sc spec' Hin) as (Hn & (G & HG & HGm) & Hw). simpl.
      rewrite Hn. split; [|done]. exists G. split; [done|].
      intros g. by rewrite HGm, Hdone.
  - intros Hex. by rewrite (Hbad Hex).
Qed.

(** [forwarder_workloads_specifications] on a mapping of two input groups,
    and on one that maps an input group to a number. *)
Lemma forwarder_workloads_specifications_witness :
  (∃ specs,
     from_forwarder_workloads Example.forwarder_workloads = Ok specs ∧
     NoDup (name <$> specs) ∧
     ∀ server_class, server_class ∈ (name <$> specs) ↔
       ∃ input_group,
         forwards_to Example.forwarder_workloads input_group server_class) ∧
  from_forwarder_workloads [("windows", VNumber 1)] = Raise "ValueError".
Proof.
  split.
  - destruct (proj1 (forwarder_workloads_specifications
                       Example.forwarder_workloads))
      as (specs & Hrun & Hnd & Hnames & _).
    + apply (bool_decide_unpack _). by vm_compute.
    + by exists specs.
  - apply (proj2 (forwarder_workloads_specifications [("windows", VNumber 1)])).
    constructor. reflexivity.
Defined.

(** X16: when the first two of the given specifications have a search-head
    or indexer workload and carry input groups, and no later one has, the
    second deletion meets a list that the first has shortened: the second
    specification stays and the third is deleted in its place. *)
Theorem combined_workloads_delete_shifted
    (first second third : AppDeploymentSpecification)
    (others : list AppDeploymentSpecification)
    (forwarder_deployment_specifications : option (list AppDeploymentSpecification))
    (groups_1 groups_2 : gset string) :
  ¬ workload first ## ({[ "searchHead"; "indexer" ]} : gset string) →
  inputGroups first = Some groups_1 →
  ¬ workload second ## ({[ "searchHead"; "indexer" ]} : gset string) →
  inputGroups second = Some groups_2 →
  Forall (fun s => ¬ combinable s) (third :: others) →
  ∃ reported,
    AppDeploymentSpecification_get_deployment_specifications
      (first :: second :: third :: others) true
      forwarder_deployment_specifications
    = Ok (second :: others ++ [search_head_indexers (groups_1 ∪ groups_2)],
          reported).
Proof.
  intros Hw1 Hg1 Hw2 Hg2 Hrest.
  unfold AppDeploymentSpecification_get_deployment_specifications.
  rewrite bool_decide_eq_false_2 by (simpl; lia).
  cbn [imap foldl compose].
  rewrite (WorkloadFacts.combine_step_combinable _ _ _ _ groups_1)
    by first [exact Hg1|split; [done|by rewrite Hg1]].
  rewrite (WorkloadFacts.combine_step_combinable _ _ _ _ groups_2)
    by first [exact Hg2|split; [done|by rewrite Hg2]].
  apply Forall_cons in Hrest as [Hthird Hothers].
  rewrite WorkloadFacts.combine_step_other by done.
  rewrite (imap_ext _ (fun i s => (3 + i, s)) others)
    by (intros i x _; reflexivity).
  rewrite WorkloadFacts.foldl_combine_step_others by done.
  cbn [app foldlM].
  rewrite WorkloadFacts.list_del_lt by (simpl; lia).
  rewrite JsonFacts.bind_Ok.
  rewrite WorkloadFacts.list_del_lt by (simpl; lia).
  rewrite (left_id_L ∅ (∪) groups_1). simpl. by eexists.
Qed.

(** [combined_workloads_delete_shifted] on two specifications for search
    heads before one for forwarders. *)
Lemma combined_workloads_delete_shifted_witness :
  ∃ reported,
    AppDeploymentSpecification_get_deployment_specifications
      [Example.on_search_heads "web" {["a"]};
       Example.on_search_heads "mail" {["b"]}; Example.windows_forwarders]
      true None
    = Ok ([Example.on_search_heads "mail" {["b"]};
           search_head_indexers ({["a"]} ∪ {["b"]})], reported).
Proof.
  refine (combined_workloads_delete_shifted
            (Example.on_search_heads "web" {["a"]})
            (Example.on_search_heads "mail" {["b"]})
            Example.windows_forwarders [] None {["a"]} {["b"]} _ _ _ _ _).
  - apply (bool_decide_unpack _). by vm_compute.
  - reflexivity.
  - apply (bool_decide_unpack _). by vm_compute.
  - reflexivity.
  - constructor; [|constructor]. apply (bool_decide_unpack _). by vm_compute.
Defined.

(** ** Reading the lines of a file, with one line put back *)

Module FileReaderFacts.

Lemma truthy_true s : truthy s = true ↔ s ≠ EmptyString.
Proof. unfold truthy. destruct s; simpl; split; try done. Qed.

(** [__next__] delivers the first of the pending lines, and counts a line
    when it comes from the stream. *)
Lemma next_pending self :
  match pending self with
  | [] => FileReader_next self = Raise "StopIteration"
  | line :: rest =>
      ∃ self', FileReader_next self = Ok (line, self') ∧ pending self' = rest ∧
        _istream self' `suffix_of` _istream self ∧
        _line_number self' + length (_istream self')
        = _line_number self + length (_istream self)
  end.
Proof.
  unfold pending, FileReader_next.
  destruct (_line self) as [held|] eqn:Hheld.
  - destruct (truthy held) eqn:Ht; simpl.
    + eexists. split; [done|]. simpl. split_and!; [done..|lia].
    + destruct (_istream self) as [|line istream] eqn:Hs; [done|].
      eexists. split; [done|]. unfold pending. simpl. rewrite ?Hheld, Ht.
      split_and!; [done| |lia]. by apply suffix_cons_r.
  - simpl. destruct (_istream self) as [|line istream] eqn:Hs; [done|].
    eexists. split; [done|]. unfold pending. simpl. rewrite ?Hheld.
    split_and!; [done| |lia]. by apply suffix_cons_r.
Qed.

Lemma read_continuation_spec fuel :
  ∀ self line, length (pending self) < fuel →
    ∃ line' self',
      read_continuation fuel self line = Ok (line', self') ∧
      pending self' `suffix_of` pending self ∧
      _istream self' `suffix_of` _istream self ∧
      _line_number self' + length (_istream self')
      = _line_number self + length (_istream self) ∧
      (continues line' = true → pending self' = []) ∧
      (continues line = false → line' = line ∧ self' = self).
Proof.
  induction fuel as [|fuel IH]; intros self line Hfuel; [lia|].
  cbn [read_continuation]. destruct (continues line) eqn:Hc.
  2:{ exists line, self. split_and!; try done. by rewrite Hc. }
  pose proof (next_pending self) as Hnext.
  destruct (pending self) as [|first rest] eqn:Hp.
  - rewrite Hnext. rewrite bool_decide_eq_true_2 by done.
    exists line, self. rewrite Hp. split_and!; done.
  - destruct Hnext as (self1 & -> & Hp1 & Hs1 & Hn1).
    destruct (IH self1 (without_last_two line +:+ nl +:+ first))
      as (line' & self' & Hrun & Hp' & Hs' & Hn' & Hend & _).
    { rewrite Hp1. simpl in Hfuel. lia. }
    exists line', self'. split_and!; [done| | |lia|done|done].
    + rewrite Hp1 in Hp'. by apply suffix_cons_r.
    + by etrans.
Qed.

Lemma iter_spec fuel :
  ∀ self, length (pending self) < fuel →
    ∃ lines self',
      FileReader_iter fuel self = Ok (lines, self') ∧
      Forall (fun line => line ≠ EmptyString) lines ∧
      (pending self = lines ++ EmptyString :: pending self' ∨
       pending self = lines ∧ pending self' = []) ∧
      _line_number self' + length (_istream self')
      = _line_number self + length (_istream self).
Proof.
  induction fuel as [|fuel IH]; intros self Hfuel; [lia|].
  cbn [FileReader_iter]. pose proof (next_pending self) as Hnext.
  destruct (pending self) as [|first rest] eqn:Hp.
  - rewrite Hnext, bool_decide_eq_true_2 by done.
    exists [], self. rewrite Hp. split_and!; [done|constructor|by right|done].
  - destruct Hnext as (self1 & -> & Hp1 & Hs1 & Hn1).
    case_bool_decide as Hlen.
    + exists [], self1. assert (first = EmptyString) as -> by (by destruct first).
      rewrite Hp1. split_and!; [done|constructor|by left|done].
    + destruct (IH self1) as (lines & self' & -> & Hall & Hrest & Hn').
      { rewrite Hp1. simpl in Hfuel. lia. }
      exists (first :: lines), self'. split_and!; [done| | |lia].
      * constructor; [|done]. intros ->. by apply Hlen.
      * rewrite Hp1 in Hrest. destruct Hrest as [->|[-> Hrest]]; [by left|by right].
Qed.

End FileReaderFacts.

(** X17: a line that is put back on a reader that holds none is the next
    line delivered, and the reader is then as it was; an empty line that is
    put back is not delivered, and it stays held: the next line comes from
    the stream, and a later [put_back] fails its assertion. *)
Theorem put_back_then_next (self : FileReader) (line : string) :
  _line self = None →
  ∃ held,
    put_back self line = Ok held ∧
    (line ≠ EmptyString → FileReader_next held = Ok (line, self)) ∧
    (line = EmptyString →
     ∀ first rest, _istream self = first :: rest →
       ∃ after,
         FileReader_next held = Ok (first, after) ∧
         _istream after = rest ∧
         _line_number after = _line_number self + 1 ∧
         ∀ other, put_back after other = Raise "AssertionError").
Proof.
  intros Hnone. unfold put_back. rewrite Hnone. eexists. split; [done|].
  unfold FileReader_next. simpl. split.
  - intros Hne. apply FileReaderFacts.truthy_true in Hne. rewrite Hne.
    destruct self. simpl in *. by subst.
  - intros -> first rest Hs. simpl. rewrite Hs. eexists. split; [done|].
    split_and!; done.
Qed.

(** X18: [read_continuation] returns within a fuel above the number of
    pending lines. The lines it has taken come off the front of the
    stream, and the line number has advanced by their number; the line it
    returns ends in a backslash and a newline only when no line is left,
    and a line that does not end so is returned as it is, the reader
    untouched. *)
Theorem read_continuation_joins (fuel : nat) (self : FileReader) (line : string) :
  length (pending self) < fuel →
  ∃ line' self',
    read_continuation fuel self line = Ok (line', self') ∧
    pending self' `suffix_of` pending self ∧
    _istream self' `suffix_of` _istream self ∧
    _line_number self' + length (_istream self')
    = _line_number self + length (_istream self) ∧
    (continues line' = true → pending self' = []) ∧
    (continues line = false → line' = line ∧ self' = self).
Proof. apply FileReaderFacts.read_continuation_spec. Qed.

(** X19: iterating over a reader returns within a fuel above the number of
    pending lines; it yields the pending lines up to the first empty one,
    which it takes without yielding it, or all of them when none is
    empty, and the line number advances by the number of lines taken from
    the stream. *)
Theorem iter_yields_lines_before_empty (fuel : nat) (self : FileReader) :
  length (pending self) < fuel →
  ∃ lines self',
    FileReader_iter fuel self = Ok (lines, self') ∧
    Forall (fun line => line ≠ EmptyString) lines ∧
    (pending self = lines ++ EmptyString :: pending self' ∨
     pending self = lines ∧ pending self' = []) ∧
    _line_number self' + length (_istream self')
    = _line_number self + length (_istream self).
Proof. apply FileReaderFacts.iter_spec. Qed.

(** [put_back_then_next] on a reader of three lines and the line [x]. *)
Lemma put_back_then_next_witness :
  ∃ held,
    put_back Example.reader "x" = Ok held ∧
    FileReader_next held = Ok ("x", Example.reader).
Proof.
  destruct (put_back_then_next Example.reader "x" eq_refl)
    as (held & Hput & Hnext & _).
  exists held. split; [done|]. by apply Hnext.
Defined.

(** [read_continuation_joins] on a first line that two lines continue. *)
Lemma read_continuation_joins_witness :
  ∃ self',
    read_continuation 4 Example.reader ("a \" +:+ nl)
    = Ok ("a " +:+ nl +:+ "b " +:+ nl +:+ "c" +:+ nl, self') ∧
    _line_number self' = 2 ∧ _istream self' = ["d" +:+ nl].
Proof.
  destruct (read_continuation_joins 4 Example.reader ("a \" +:+ nl))
    as (line' & self' & Hrun & _).
  { vm_compute. lia. }
  exists self'.
  assert (read_continuation 4 Example.reader ("a \" +:+ nl)
          = Ok ("a " +:+ nl +:+ "b " +:+ nl +:+ "c" +:+ nl,
                {| _filename := "app.conf"; _istream := ["d" +:+ nl];
                   _line_number := 2; _line := None |})) as Hvalue
    by (vm_compute; reflexivity).
  rewrite Hrun in Hvalue. injection Hvalue as -> ->. by rewrite Hrun.
Defined.

(** [iter_yields_lines_before_empty] on the same reader, which holds no
    empty line. *)
Lemma iter_yields_lines_before_empty_witness :
  ∃ self',
    FileReader_iter 4 Example.reader = Ok (_istream Example.reader, self') ∧
    pending self' = [] ∧ _line_number self' = 3.
Proof.
  destruct (iter_yields_lines_before_empty 4 Example.reader)
    as (lines & self' & Hrun & _).
  { vm_compute. lia. }
  exists self'.
  assert (FileReader_iter 4 Example.reader
          = Ok (_istream Example.reader,
                {| _filename := "app.conf"; _istream := [];
                   _line_number := 3; _line := None |})) as Hvalue
    by (vm_compute; reflexivity).
  rewrite Hrun in Hvalue. injection Hvalue as -> ->. by rewrite Hrun.
Defined.

(** ** Input-group sets under union *)

(** X20: [_union_of] always returns a normalized set, whatever it is
    given, and so does [InputGroupsConverter.convert_from]; [_union_of] is
    associative on all sets, and the empty set is its unit on normalized
    sets. *)
Theorem union_of_normalized (X Y Z : gset string) (value : list string) :
  normalized (_union_of X Y) ∧
  normalized (InputGroupsConverter_convert_from value) ∧
  _union_of (_union_of X Y) Z = _union_of X (_union_of Y Z) ∧
  (normalized X → _union_of no_input_groups X = X ∧ _union_of X no_input_groups = X).
Proof.
  unfold normalized, _union_of, InputGroupsConverter_convert_from,
    all_input_groups, no_input_groups.
  split_and!.
  - repeat case_bool_decide; simpl; try done; set_solver.
  - repeat case_bool_decide; try done; set_solver.
  - destruct (decide ("*" ∈ X)) as [HX|HX]; destruct (decide ("*" ∈ Y)) as [HY|HY];
      destruct (decide ("*" ∈ Z)) as [HZ|HZ];
      repeat (rewrite ?(bool_decide_eq_true_2 _ HX), ?(bool_decide_eq_true_2 _ HY),
                ?(bool_decide_eq_true_2 _ HZ), ?(bool_decide_eq_false_2 _ HX),
                ?(bool_decide_eq_false_2 _ HY), ?(bool_decide_eq_false_2 _ HZ);
              simpl);
      try (rewrite !bool_decide_eq_true_2 by set_solver; simpl);
      try done.
    + rewrite orb_true_r. done.
    + rewrite !(bool_decide_eq_false_2 ("*" ∈ _ ∪ _)) by set_solver. simpl.
      set_solver.
  - intros Hn. rewrite (bool_decide_eq_false_2 ("*" ∈ ∅)) by set_solver. simpl.
    rewrite orb_false_r. case_bool_decide as HX.
    + by rewrite (Hn HX).
    + set_solver.
Qed.

(** ** The specifications handed to dependencies *)

Module DerivedFacts.
Import OrderedDict OrderedDictFacts SpecificationFacts.

Lemma union_of_is_normalized X Y : normalized (_union_of X Y).
Proof.
  unfold normalized, _union_of, all_input_groups.
  repeat case_bool_decide; simpl; try done; set_solver.
Qed.

Section derived.
Context `{VersionConstraint} (heap : ref → AppSource).
Variable G : AppDependencyGraph.
Variable W : World.
Variable given : AppDeploymentSpecification.

Lemma requirements_normalized a spec req :
  requirements_of heap G a spec = Ok req →
  map_Forall (fun _ groups => normalized groups) req.
Proof.
  unfold requirements_of.
  destruct (manifest (heap a)) as [m|]; [|done].
  destruct (manifest_inputGroups m) as [input_groups|].
  2:{ intros [= <-]. apply map_Forall_empty. }
  destruct (inputGroups spec) as [names|]; [|done].
  apply foldlM_inv; [|apply map_Forall_empty].
  intros req0 group_name req1 _ Hreq0. unfold add_group_requirements.
  destruct (get group_name input_groups) as [group|]; [|by intros [= <-]].
  destruct (requires group) as [aliases|]; [|by intros [= <-]].
  apply foldlM_inv; [|done].
  intros req2 alias req3 _ Hreq2. unfold add_requirement.
  destruct (get alias aliases); simpl; [|done].
  destruct (dependencies m) as [ds|]; simpl; [|done].
  destruct (get alias ds) as [d|]; simpl; [|done].
  destruct (package d) as [p|]; simpl; [|done].
  destruct (_repository_sources G !! p) as [source|]; simpl; [|done].
  destruct (get a (_graph G)); simpl; [|done].
  case_bool_decide; [|done]. intros [= <-].
  apply map_Forall_insert_2; [|done]. apply union_of_is_normalized.
Qed.

Lemma dependency_specification_derived spec req source result spec' :
  name spec = name given → workload spec = workload given →
  map_Forall (fun _ groups => normalized groups) req →
  dependency_specification spec req source result = Ok spec' →
  derived_from given spec'.
Proof.
  intros Hn Hw Hreq. unfold dependency_specification.
  destruct (get source result) as [previous|].
  - destruct (inputGroups previous) as [groups|]; [|done]. simpl.
    intros [= <-]. split_and!; [done..|]. right. eexists. split; [done|].
    apply union_of_is_normalized.
  - simpl. intros [= <-]. split_and!; [done..|]. right. eexists. split; [done|].
    destruct (req !! source) as [groups|] eqn:Hs; simpl.
    + by apply (Hreq source).
    + unfold normalized, no_input_groups. set_solver.
Qed.

Lemma loop_derived recurse spec req deps :
  (∀ a s r r', derived_from given s →
     (∀ a' s', (a', s') ∈ r → derived_from given s') →
     recurse a s r = Ok r' →
     ∀ a' s', (a', s') ∈ r' → derived_from given s') →
  name spec = name given → workload spec = workload given →
  map_Forall (fun _ groups => normalized groups) req →
  ∀ r r', (∀ a' s', (a', s') ∈ r → derived_from given s') →
    specifications_loop recurse spec req deps r = Ok r' →
    ∀ a' s', (a', s') ∈ r' → derived_from given s'.
Proof.
  intros Hrec Hn Hw Hreq. induction deps as [|[d source] deps IH]; intros r r' Hr.
  - by intros [= <-].
  - cbn [specifications_loop].
    destruct (dependency_specification spec req source r) as [spec'| |] eqn:Hspec;
      simpl; try done.
    apply (dependency_specification_derived _ _ _ _ _ Hn Hw Hreq) in Hspec.
    destruct (recurse source spec' r) as [r1| |] eqn:Hrun; simpl; try done.
    apply IH. by apply (Hrec _ _ _ _ Hspec Hr Hrun).
Qed.

Lemma specifications_derived fuel :
  ∀ a s r r', derived_from given s →
    (∀ a' s', (a', s') ∈ r → derived_from given s') →
    _get_deployment_specifications heap fuel G W a s r = Ok r' →
    ∀ a' s', (a', s') ∈ r' → derived_from given s'.
Proof.
  induction fuel as [|fuel IH]; intros a s r r' Hs Hr; [done|].
  cbn [_get_deployment_specifications].
  destruct (requirements_of heap G a s) as [req| |] eqn:Hreq; simpl; try done.
  destruct (source_dependencies_of W a) as [deps| |]; simpl; try done.
  assert (∀ a' s', (a', s') ∈ set a s r → derived_from given s') as Hset.
  { intros a' s' [[-> ->]|Hin]%elem_of_set; [done|]. by apply (Hr a'). }
  destruct Hs as (Hn & Hw & Hg). intros Hrun.
  exact (loop_derived _ _ _ _ IH Hn Hw (requirements_normalized _ _ _ Hreq)
           _ _ Hset Hrun).
Qed.

End derived.
End DerivedFacts.

(** X21: every specification that
    [AppDependencyGraph.get_deployment_specifications] returns carries the
    name and the workload of the specification it was given, and is either
    that specification or has a normalized set of input groups: the
    wildcard never sits next to other names in it. *)
Theorem deployment_specifications_derived `{VersionConstraint}
    (heap : ref → AppSource) (fuel : nat) (G : AppDependencyGraph) (W : World)
    (deployment_specification : AppDeploymentSpecification)
    (result : list (ref * AppDeploymentSpecification)) :
  get_deployment_specifications heap fuel G W deployment_specification = Ok result →
  ∀ source specification, (source, specification) ∈ result →
    derived_from deployment_specification specification.
Proof.
  unfold get_deployment_specifications.
  assert (∀ source specification,
            (source, specification) ∈
              OrderedDict.of_pairs
                ((fun source => (source, deployment_specification)) <$>
                   OrderedDict.keys (_graph G)) →
            derived_from deployment_specification specification) as Hsame.
  { intros source specification
      [Hin|Hin]%OrderedDictFacts.elem_of_of_pairs_aux;
      [by apply elem_of_nil in Hin|].
    apply list_elem_of_fmap in Hin as (a & [= -> ->] & _).
    split_and!; [done..|by left]. }
  destruct (inputGroups deployment_specification) as [groups|] eqn:Hg.
  - case_bool_decide.
    + intros [= <-]. apply Hsame.
    + intros Hrun source specification.
      apply (DerivedFacts.specifications_derived heap G W deployment_specification
               fuel (_root G) deployment_specification [] result);
        [|by intros ? ? ?%elem_of_nil|done].
      split_and!; [done..|by left].
  - intros [= <-]. apply Hsame.
Qed.

(** [deployment_specifications_derived] on the example repository and the
    specification [windows_forwarders]. *)
Lemma deployment_specifications_derived_witness :
  get_deployment_specifications Example.heap 4 Example.graph Example.world
    Example.windows_forwarders = Ok Example.windows_result ∧
  derived_from Example.windows_forwarders (Example.forwarders_with {["events"]}).
Proof.
  assert (get_deployment_specifications Example.heap 4 Example.graph
            Example.world Example.windows_forwarders
          = Ok Example.windows_result) as Hrun by (vm_compute; reflexivity).
  split; [exact Hrun|].
  apply (deployment_specifications_derived Example.heap 4 Example.graph
           Example.world Example.windows_forwarders Example.windows_result
           Hrun "a").
  right; left.
Defined.

(** ** [AppDependencyGraph.traverse] *)

Module TraverseFacts.
Import OrderedDict OrderedDictFacts ConstructionFacts.

Section traverse_facts.
Context `{VersionConstraint} {State : Type}.
Variable G : AppDependencyGraph.
Variable step : ref → list ref → option (list (Dependency * ref)) → State → State.

Notation visit := (fun a deps dependents st => Ok (deps, step a deps dependents st)).
Notation visited_by :=
  (fun st a => step a (default [] (get a (_graph G))) (get a (_dependents G)) st).

Hypothesis keys_NoDup : NoDup (keys (_graph G)).
Hypothesis closed :
  ∀ a b, edge (_graph G) a b → b ∈ keys (_graph G).

Lemma traverse_loop_spec fuel :
  ∀ queue order st,
    NoDup order →
    (∀ x, x ∈ queue → x ∈ keys (_graph G)) →
    (∀ v n, v ∈ order → edge (_graph G) v n → n ∈ order ∨ n ∈ queue) →
    traversal_left G order queue < fuel →
    ∃ more,
      traverse_loop visit fuel G queue (list_to_set order) st
      = Ok (foldl visited_by st more) ∧
      NoDup (order ++ more) ∧
      (∀ x, x ∈ queue → x ∈ order ++ more) ∧
      (∀ v n, v ∈ order ++ more → edge (_graph G) v n → n ∈ order ++ more) ∧
      (∀ x, x ∈ more → ∃ q, q ∈ queue ∧ rtc (edge (_graph G)) q x) ∧
      (∀ x queue', queue = queue' ++ [x] → x ∉ order → head more = Some x).
Proof.
  induction fuel as [|fuel IH]; intros queue order st Hnd Hq Hclosed Hfuel; [lia|].
  cbn [traverse_loop]. destruct (deque_pop queue) as [[x queue']|] eqn:Hpop.
  2:{ apply deque_pop_None in Hpop as ->. exists []. rewrite app_nil_r.
      split_and!.
      - done.
      - done.
      - intros x Hx. by apply elem_of_nil in Hx.
      - intros v n Hv He. destruct (Hclosed v n Hv He) as [?|Hn]; [done|].
        by apply elem_of_nil in Hn.
      - intros x Hx. by apply elem_of_nil in Hx.
      - intros x queue' Heq. by destruct queue'. }
  apply deque_pop_Some in Hpop as ->.
  unfold traversal_left in Hfuel. rewrite length_app in Hfuel. simpl in Hfuel.
  case_bool_decide as Hx.
  - apply elem_of_list_to_set in Hx.
    destruct (IH queue' order st) as (more & Hrun & Hnd' & Hq' & Hcl' & Hreach & _).
    + done.
    + intros y Hy. apply Hq, elem_of_app. by left.
    + intros v n Hv He. destruct (Hclosed v n Hv He) as [?|Hn]; [by left|].
      apply elem_of_app in Hn as [?|Hn]; [by right|].
      apply list_elem_of_singleton in Hn as ->. by left.
    + unfold traversal_left. lia.
    + exists more. split_and!.
      * done.
      * done.
      * intros y [Hy|Hy]%elem_of_app; [by apply Hq'|].
        apply list_elem_of_singleton in Hy as ->. apply elem_of_app. by left.
      * done.
      * intros y Hy. destruct (Hreach y Hy) as (q & Hqin & Hrtc).
        exists q. split; [|done]. apply elem_of_app. by left.
      * intros y queue2 Heq Hy. apply app_inj_tail in Heq as [_ ->]. done.
  - rewrite elem_of_list_to_set in Hx.
    assert (x ∈ keys (_graph G)) as Hkey.
    { apply Hq, elem_of_app. right. left. }
    destruct (get x (_graph G)) as [ns|] eqn:Hget.
    2:{ apply get_None in Hget. done. }
    rewrite JsonFacts.bind_Ok. cbv beta iota.
    assert (list_to_set order ∪ {[x]} = (list_to_set (order ++ [x]) : gset ref))
      as ->.
    { rewrite list_to_set_app_L. simpl. by rewrite (right_id_L ∅ (∪)). }
    destruct (IH (deque_extendleft queue' ns) (order ++ [x])
                (step x ns (get x (_dependents G)) st))
      as (more & Hrun & Hnd' & Hq' & Hcl' & Hreach & _).
    + apply NoDup_app. split_and!; [done| |apply NoDup_singleton].
      intros y Hy ->%list_elem_of_singleton. done.
    + intros y [Hy|Hy]%elem_of_app.
      * rewrite elem_of_reverse in Hy. apply (closed x y). by exists ns.
      * apply Hq, elem_of_app. by left.
    + intros v n [Hv|Hv]%elem_of_app He.
      * destruct (Hclosed v n Hv He) as [?|Hn]; [left; apply elem_of_app; by left|].
        apply elem_of_app in Hn as [?|Hn].
        -- right. apply elem_of_app. by right.
        -- left. apply elem_of_app. by right.
      * apply list_elem_of_singleton in Hv as ->.
        destruct He as (ns' & Hns' & Hn). rewrite Hget in Hns'.
        injection Hns' as <-. right. apply elem_of_app. left.
        by rewrite elem_of_reverse.
    + unfold traversal_left, deque_extendleft.
      rewrite length_app, length_reverse.
      pose proof (sum_filter_remove (out_degree G) (fun a => a ∉ order)
                    (fun a => a ∉ order ++ [x]) (keys (_graph G)) x
                    keys_NoDup Hkey Hx) as Hsum.
      rewrite <- Hsum in Hfuel.
      2:{ intros y. rewrite elem_of_app, list_elem_of_singleton. tauto. }
      unfold out_degree at 2 in Hfuel. rewrite Hget in Hfuel. simpl in Hfuel. lia.
    + exists (x :: more). rewrite <- app_assoc in Hnd', Hq', Hcl'. simpl in *.
      assert (visited_by st x = step x ns (get x (_dependents G)) st) as Hstep
        by (by rewrite Hget).
      rewrite Hstep. split_and!.
      * done.
      * done.
      * intros y [Hy|Hy]%elem_of_app.
        -- apply Hq'. unfold deque_extendleft. apply elem_of_app. by right.
        -- apply list_elem_of_singleton in Hy as ->. apply elem_of_app. right. left.
      * done.
      * intros y [->|Hy]%elem_of_cons.
        -- exists x. split; [apply elem_of_app; right; left|done].
        -- destruct (Hreach y Hy) as (q & Hqin & Hrtc).
           apply elem_of_app in Hqin as [Hqin|Hqin].
           ++ rewrite elem_of_reverse in Hqin. exists x.
              split; [apply elem_of_app; right; left|].
              eapply rtc_l; [|done]. by exists ns.
           ++ exists q. split; [apply elem_of_app; by left|done].
      * intros y queue2 Heq Hy. apply app_inj_tail in Heq as [_ ->]. done.
Qed.

End traverse_facts.

(** A check that every dependency listed is a key. *)
Lemma listed_are_keys (graph : list (ref * list ref)) :
  Forall (fun entry => Forall (fun n => n ∈ keys graph) entry.2) graph →
  ∀ a b, edge graph a b → b ∈ keys graph.
Proof.
  intros Hall a b (ns & Hget & Hb). apply get_Some_elem in Hget.
  rewrite Forall_forall in Hall. specialize (Hall _ Hget). simpl in Hall.
  rewrite Forall_forall in Hall. by apply Hall.
Qed.

End TraverseFacts.

(** X22: over a graph whose keys are pairwise distinct and hold every
    dependency that it lists, and with a [visit] that returns the
    dependencies it is given, [traverse] returns within the fuel
    [traverse_fuel]; it has called [visit] once for each source that the
    root reaches, the root first, and for no other source. *)
Theorem traverse_visits_each_reachable_source_once `{VersionConstraint}
    {State : Type} (G : AppDependencyGraph)
    (step : ref → list ref → option (list (Dependency * ref)) → State → State)
    (fuel : nat) (st : State) :
  NoDup (OrderedDict.keys (_graph G)) →
  _root G ∈ OrderedDict.keys (_graph G) →
  (∀ a b, edge (_graph G) a b → b ∈ OrderedDict.keys (_graph G)) →
  traverse_fuel G ≤ fuel →
  ∃ order,
    traverse (fun a deps dependents st => Ok (deps, step a deps dependents st))
      fuel G st
    = Ok (_dependents G,
          foldl (fun st a =>
                   step a (default [] (OrderedDict.get a (_graph G)))
                     (OrderedDict.get a (_dependents G)) st) st order) ∧
    NoDup order ∧ head order = Some (_root G) ∧
    ∀ x, x ∈ order ↔ rtc (edge (_graph G)) (_root G) x.
Proof.
  intros Hnd Hroot Hclosed Hfuel. unfold traverse.
  destruct (TraverseFacts.traverse_loop_spec G step Hnd Hclosed fuel
              [_root G] [] st) as (order & Hrun & Hnd' & Hq & Hcl & Hreach & Hhead).
  - constructor.
  - by intros x ->%list_elem_of_singleton.
  - intros v n Hv. by apply elem_of_nil in Hv.
  - unfold traverse_fuel in Hfuel. lia.
  - simpl in *. exists order.
    change (list_to_set [] : gset ref) with (∅ : gset ref) in Hrun.
    rewrite Hrun. split_and!; [done..| |].
    + assert (_root G ∈ order) as Hin by (apply Hq; left).
      clear Hrun. destruct order as [|y order]; [by apply elem_of_nil in Hin|].
      simpl. f_equal.
      specialize (Hhead (_root G) [] eq_refl ltac:(by intros ?%elem_of_nil)).
      simpl in Hhead. by injection Hhead as ->.
    + intros x. split.
      * intros Hx. destruct (Hreach x Hx) as (q & ->%list_elem_of_singleton & Hr).
        done.
      * intros Hr.
        revert x Hr.
        apply (rtc_ind_r (R := edge (_graph G)) (fun z => z ∈ order) (_root G)).
        -- apply Hq. left.
        -- intros y z _ Hyz Hy. by apply (Hcl y z).
Qed.

(** [traverse_visits_each_reachable_source_once] on the example graph, with
    a [visit] that lists the sources it is given. *)
Lemma traverse_visits_each_reachable_source_once_witness :
  ∃ order,
    traverse (fun a deps dependents st => Ok (deps, st ++ [a])) 20
      Example.graph []
    = Ok (_dependents Example.graph, foldl (fun st a => st ++ [a]) [] order) ∧
    NoDup order ∧ head order = Some (_root Example.graph) ∧
    ∀ x, x ∈ order ↔ rtc (edge (_graph Example.graph)) (_root Example.graph) x.
Proof.
  apply (traverse_visits_each_reachable_source_once Example.graph
           (fun a _ _ st => st ++ [a]) 20 []).
  - apply (bool_decide_unpack _). by vm_compute.
  - apply (bool_decide_unpack _). by vm_compute.
  - apply TraverseFacts.listed_are_keys, (bool_decide_unpack _). by vm_compute.
  - vm_compute. lia.
Defined.

(** ** Removing an app from the server classes of a collection *)

Section collection_removal.
Import OrderedDict OrderedDictFacts.
Context `{VersionConstraint}.
Variable remove_installation :
  AppInstallation → list (string * AppInstallation) → list (string * AppInstallation).

Lemma remove_app_warnings self W app_id :
  warnings (AppServerClass_remove_app remove_installation self W app_id).2
  = warnings W.
Proof.
  unfold AppServerClass_remove_app. destruct (get app_id (apps self)); [|done].
  by case_bool_decide.
Qed.

Lemma remove_app_step_eq app_id coll W found n :
  remove_app_step remove_installation app_id (coll, W, found) n
  = match get n coll with
    | None => Raise "KeyError"
    | Some server_class =>
        if contains app_id (apps server_class) then
          let '(server_class, W) :=
            AppServerClass_remove_app remove_installation server_class W app_id in
          Ok (set n server_class coll, W, true)
        else Ok (coll, W, found)
    end.
Proof. reflexivity. Qed.

Lemma remove_app_steps (collection : list (string * AppServerClass)) app_id names :
  ∀ coll W found,
    keys coll = keys collection →
    (found = false → coll = collection) →
    (found = true →
     ∃ n sc, get n collection = Some sc ∧ app_id ∈ keys (apps sc)) →
    (∀ n, get n coll = get n collection ∨
       ∃ sc, get n collection = Some sc ∧ app_id ∈ keys (apps sc)) →
    (Forall (fun n => n ∈ keys collection) names →
     ∃ coll' W' found',
       foldlM (remove_app_step remove_installation app_id) (coll, W, found) names
       = Ok (coll', W', found') ∧
       keys coll' = keys collection ∧
       (∀ n, n ∉ names → get n coll' = get n coll) ∧
       warnings W' = warnings W ∧
       (found' = false → coll' = collection ∧ W' = W ∧ found = false ∧
          ∀ n sc, n ∈ names → get n collection = Some sc →
            app_id ∉ keys (apps sc)) ∧
       (found' = true → found = true ∨
          ∃ n sc, n ∈ names ∧ get n collection = Some sc ∧
            app_id ∈ keys (apps sc))) ∧
    (Exists (fun n => n ∉ keys collection) names →
     foldlM (remove_app_step remove_installation app_id) (coll, W, found) names
     = Raise "KeyError").
Proof.
  induction names as [|n names IH]; intros coll W found Hkeys Hsame Hfound Hdiff.
  { split; [|by intros ?%Exists_nil]. intros _. exists coll, W, found.
    split_and!; try done.
    - intros Hf. split_and!; [by apply Hsame|done|done|].
      intros n sc Hn. by apply elem_of_nil in Hn.
    - intros Ht. by left. }
  cbn [foldlM]. rewrite !remove_app_step_eq.
  destruct (get n coll) as [sc'|] eqn:Hget.
  2:{ split; [|done]. intros [Hn _]%Forall_cons.
      apply get_None in Hget. rewrite Hkeys in Hget. done. }
  assert (n ∈ keys collection) as Hn.
  { rewrite <- Hkeys. apply get_is_Some. by rewrite Hget. }
  destruct (contains app_id (apps sc')) eqn:Hc.
  - destruct (AppServerClass_remove_app remove_installation sc' W app_id)
      as [sc1 W1] eqn:Hrm.
    rewrite JsonFacts.bind_Ok.
    assert (∃ sc, get n collection = Some sc ∧ app_id ∈ keys (apps sc)) as Hwit.
    { destruct (Hdiff n) as [Heq|Hwit]; [|done].
      exists sc'. rewrite <- Heq. split; [done|]. by apply contains_true. }
    destruct (IH (set n sc1 coll) W1 true) as [IHok IHbad].
    + rewrite keys_set_in; [done|]. by rewrite Hkeys.
    + done.
    + intros _. destruct Hwit as (sc & Hsc & Happ). by exists n, sc.
    + intros m. destruct (decide (m = n)) as [->|Hne]; [by right|].
      rewrite get_set_ne by done. by apply Hdiff.
    + split.
      * intros [_ Hall]%Forall_cons.
        destruct (IHok Hall) as (coll' & W' & found' & Hrun & Hk & Hg & Hw & Hf & Ht).
        exists coll', W', found'. split_and!; [done..| | | |].
        -- intros m [Hmn Hm]%not_elem_of_cons. rewrite (Hg m Hm).
           by rewrite get_set_ne.
        -- rewrite Hw. pose proof (remove_app_warnings sc' W app_id) as Hrw.
           by rewrite Hrm in Hrw.
        -- intros Hf'. by destruct (Hf Hf') as (_ & _ & ? & _).
        -- intros _. right. destruct Hwit as (sc & Hsc & Happ).
           exists n, sc. split_and!; [left|done..].
      * intros [Hbad|Hbad]%Exists_cons; [done|]. by apply IHbad.
  - rewrite JsonFacts.bind_Ok.
    destruct (IH coll W found Hkeys Hsame Hfound Hdiff) as [IHok IHbad]. split.
    + intros [_ Hall]%Forall_cons.
      destruct (IHok Hall) as (coll' & W' & found' & Hrun & Hk & Hg & Hw & Hf & Ht).
      exists coll', W', found'. split_and!; [done..| | | |].
      * intros m [Hmn Hm]%not_elem_of_cons. by apply Hg.
      * done.
      * intros Hf'. destruct (Hf Hf') as (Hc1 & Hc2 & Hc3 & Hc4).
        split_and!; [done..|]. intros m sc [->|Hm]%elem_of_cons Hsc; [|by eapply Hc4].
        rewrite (Hsame Hc3) in Hget. rewrite Hget in Hsc. injection Hsc as <-.
        by apply contains_false.
      * intros Ht'. destruct (Ht Ht') as [?|(m & sc & Hm & Hsc & Happ)]; [by left|].
        right. exists m, sc. split_and!; [by right|done..].
    + intros [Hbad|Hbad]%Exists_cons; [done|]. by apply IHbad.
Qed.

(** X23: [AppServerClassCollection.remove_app] raises [KeyError] when one
    of the names is not a server class of the collection. Otherwise it
    returns: the server classes keep their names, those that are not named
    are untouched, and the warning that the app has not been installed is
    logged exactly when none of the named server classes holds the app, in
    which case nothing else changes. *)
Theorem collection_remove_app_warns
    (collection : list (string * AppServerClass)) (W : World) (app_id : string)
    (server_classes : list string) :
  (Forall (fun n => n ∈ keys collection) server_classes →
   ∃ collection' W',
     AppServerClassCollection_remove_app remove_installation collection W
       app_id server_classes = Ok (collection', W') ∧
     keys collection' = keys collection ∧
     (∀ n, n ∉ server_classes → get n collection' = get n collection) ∧
     ((∀ n server_class, n ∈ server_classes →
         get n collection = Some server_class →
         app_id ∉ keys (apps server_class)) →
      collection' = collection ∧ W' = log_warning (WarnNotInstalled app_id) W) ∧
     ((∃ n server_class, n ∈ server_classes ∧
         get n collection = Some server_class ∧
         app_id ∈ keys (apps server_class)) →
      warnings W' = warnings W)) ∧
  (Exists (fun n => n ∉ keys collection) server_classes →
   AppServerClassCollection_remove_app remove_installation collection W app_id
     server_classes = Raise "KeyError").
Proof.
  unfold AppServerClassCollection_remove_app.
  destruct (remove_app_steps collection app_id server_classes collection W false)
    as [Hok Hbad]; try done; [by left|].
  split; [|by intros Hex; rewrite (Hbad Hex)].
  intros Hall.
  destruct (Hok Hall) as (coll' & W' & found' & Hrun & Hk & Hg & Hw & Hf & Ht).
  rewrite Hrun, JsonFacts.bind_Ok. cbv beta iota.
  eexists _, _. split; [done|]. split_and!; [done..| |].
  - intros Hnone. destruct found'.
    + destruct (Ht eq_refl) as [?|(n & sc & Hn & Hsc & Happ)]; [done|].
      by destruct (Hnone n sc Hn Hsc).
    + by destruct (Hf eq_refl) as (-> & -> & _).
  - intros (n & sc & Hn & Hsc & Happ). destruct found'; [done|].
    destruct (Hf eq_refl) as (_ & _ & _ & Hnone). by destruct (Hnone n sc Hn Hsc).
Qed.

End collection_removal.

(** [collection_remove_app_warns] on the collection that holds the server
    class of the scenario, and an app that it does not hold. *)
Lemma collection_remove_app_warns_witness :
  ∃ W',
    AppServerClassCollection_remove_app Example.drop_installation
      [("_search_heads", Example.search_heads)] (@empty_world Example.versions)
      "pkg-z" ["_search_heads"]
    = Ok ([("_search_heads", Example.search_heads)], W') ∧
    warnings W' = [WarnNotInstalled "pkg-z"].
Proof.
  destruct (proj1 (collection_remove_app_warns (H := Example.versions)
                     Example.drop_installation
                     [("_search_heads", Example.search_heads)] empty_world
                     "pkg-z" ["_search_heads"]))
    as (collection' & W' & Hrun & _ & _ & Hnone & _).
  - apply (bool_decide_unpack _). by vm_compute.
  - destruct Hnone as [-> ->].
    + intros n sc ->%list_elem_of_singleton [= <-].
      apply (bool_decide_unpack _). by vm_compute.
    + by exists (log_warning (WarnNotInstalled "pkg-z") empty_world).
Defined.

(** ** The converters of a deployment specification *)

Module ConverterFacts.

Lemma one_or_more_spec members text rest_matches :
  one_or_more members text rest_matches = true ↔
  ∃ body rest, text = body ++ rest ∧ body ≠ [] ∧
    Forall (fun c => members c = true) body ∧ rest_matches rest = true.
Proof.
  induction text as [|c text IH]; simpl.
  - split; [done|]. intros (body & rest & Heq & Hne & _).
    symmetry in Heq. apply app_eq_nil in Heq as [-> _]. done.
  - rewrite andb_true_iff, orb_true_iff, IH. split.
    + intros [Hc [(body & rest & -> & Hne & Hall & Hrest)|Hrest]].
      * exists (c :: body), rest. split_and!; [done..| |done].
        by constructor.
      * exists [c], text. split_and!; [done..| |done]. by repeat constructor.
    + intros (body & rest & Heq & Hne & Hall & Hrest).
      destruct body as [|c' body]; [done|]. simpl in Heq.
      injection Heq as <- ->. apply Forall_cons in Hall as [Hc Hall].
      split; [done|]. destruct body as [|c2 body]; [by right|].
      left. exists (c2 :: body), rest. by split_and!.
Qed.

End ConverterFacts.

(** X24: [SafeFilenameConverter.convert_from] returns the value it is
    given, and it returns exactly for a string of one or more characters of
    [[-._ a-zA-Z0-9]] that a single newline may follow: the anchor [$] of
    the pattern also matches before a newline that ends the name. *)
Theorem safe_filename_accepted (v v' : value) :
  SafeFilenameConverter_convert_from v = Ok v' ↔
  v' = v ∧
  ∃ s body, v = VString s ∧ body ≠ [] ∧
    Forall (fun c => safe_filename_char c = true) body ∧
    (chars s = body ∨ chars s = body ++ chars nl).
Proof.
  unfold SafeFilenameConverter_convert_from.
  destruct v as [| | |s| | |];
    try (split; [done|by intros (_ & ? & ? & [=] & _)]).
  destruct (re_match _safe_filename (chars s)) eqn:Hm.
  - apply ConverterFacts.one_or_more_spec in Hm
      as (body & rest & Heq & Hne & Hall & Hrest).
    simpl in Hrest. rewrite andb_true_r, orb_true_iff in Hrest.
    rewrite !bool_decide_eq_true in Hrest.
    split; [|by intros [-> _]]. intros [= <-]. split; [done|].
    exists s, body. split_and!; [done..|].
    destruct Hrest as [-> | ->]; [left; by rewrite app_nil_r in Heq|by right].
  - split; [done|]. intros (_ & s' & body & [= <-] & Hne & Hall & Hs).
    assert (re_match _safe_filename (chars s) = true) as Hm'; [|congruence].
    apply ConverterFacts.one_or_more_spec.
    destruct Hs as [Hs|Hs].
    + exists body, []. rewrite app_nil_r. by split_and!.
    + exists body, (chars nl). by split_and!.
Qed.

(** X25: when [AppDeploymentSpecification.Converter.convert_from] returns,
    the [dict] has input groups exactly when its workload includes
    [forwarder]: a [dict] with input groups is returned as it is, and one
    without is given the input groups [*] when it forwards. A [dict] with
    input groups and without the forwarder workload is never returned. *)
Theorem converter_input_groups_iff_forwarder (v v' : value) :
  Converter_convert_from v = Ok v' →
  ∃ d d' includes_forwarder,
    v = VDict d ∧ v' = VDict d' ∧
    forwards d = Ok includes_forwarder ∧ forwards d' = Ok includes_forwarder ∧
    (dict_get "inputGroups" d' ≠ VNone ↔ includes_forwarder = true) ∧
    (dict_get "inputGroups" d ≠ VNone ∨ includes_forwarder = false → d' = d) ∧
    (dict_get "inputGroups" d = VNone → includes_forwarder = true →
     d' = OrderedDict.set "inputGroups" (VFrozenset [VString "*"]) d).
Proof.
  unfold Converter_convert_from. destruct v as [| | | | |d|]; try done.
  destruct (forwards d) as [b| |] eqn:Hf.
  2,3: by destruct (dict_get "inputGroups" d).
  assert (forwards (OrderedDict.set "inputGroups" (VFrozenset [VString "*"]) d)
          = Ok b) as Hf'.
  { unfold forwards in *. by rewrite OrderedDictFacts.get_set_ne. }
  assert (dict_get "inputGroups"
            (OrderedDict.set "inputGroups" (VFrozenset [VString "*"]) d)
          = VFrozenset [VString "*"]) as Hset.
  { unfold dict_get. by rewrite OrderedDictFacts.get_set_eq. }
  destruct (dict_get "inputGroups" d) eqn:Hg; simpl; destruct b; simpl;
    intros Hrun; try done; injection Hrun as <-.
  all: eexists _, _, _; split_and!; try done.
  all: try (rewrite Hset; split; done).
  all: try (rewrite Hg; split; done).
  all: try (intros [?|?]; done).
  all: intros Hn; rewrite Hg in Hn; done.
Qed.

(** [converter_input_groups_iff_forwarder] on a specification for
    forwarders that names no input groups. *)
Lemma converter_input_groups_iff_forwarder_witness :
  ∃ d',
    Converter_convert_from (VDict Example.forwarder_dict) = Ok (VDict d') ∧
    dict_get "inputGroups" d' = VFrozenset [VString "*"].
Proof.
  destruct (converter_input_groups_iff_forwarder (VDict Example.forwarder_dict)
              (VDict (OrderedDict.set "inputGroups" (VFrozenset [VString "*"])
                        Example.forwarder_dict)))
    as (d & d' & b & Hd & Hd' & _).
  { vm_compute. reflexivity. }
  injection Hd' as <-. eexists. split; vm_compute; reflexivity.
Defined.

(** ** [AppDeploymentPackage]: the names that the exclusion patterns ignore *)

Module ExclusionFacts.

Section exclusion_facts.
Variable fnmatch : string → string → bool.

(** When only the last part of a pattern is a method, the test of the
    directories returns, and it returns [True] exactly when the pattern
    applies. *)
Lemma directories_match_spec directories globs last_part :
  length globs = length directories →
  ∃ b, directories_match fnmatch directories ((Glob <$> globs) ++ [last_part])
       = Ok b ∧
       (b = true ↔
        Forall2 (fun filename pattern => fnmatch filename pattern = true)
          directories globs).
Proof.
  revert globs. induction directories as [|d directories IH];
    intros [|g globs] Hlen; try done.
  - exists true. split; [by destruct last_part|]. split; [constructor|done].
  - simpl. destruct (fnmatch d g) eqn:Hm.
    + destruct (IH globs) as (b & Hrun & Hb); [by injection Hlen|].
      exists b. split; [done|]. rewrite Hb. split.
      * intros Hall. by constructor.
      * by intros [_ Hall]%Forall2_cons.
    + exists false. split; [done|]. split; [done|].
      intros [Hdg _]%Forall2_cons. congruence.
Qed.

Lemma applies_in_length root p last_part :
  applies_in fnmatch root p last_part → length p = length root + 1.
Proof.
  intros (globs & -> & Hall). apply Forall2_length in Hall.
  rewrite length_reverse in Hall.
  rewrite length_app, length_fmap. simpl. lia.
Qed.

Lemma applies_in_last root p last_part :
  applies_in fnmatch root p last_part → last p = Some last_part.
Proof. intros (globs & -> & _). by rewrite last_snoc. Qed.

Lemma candidates_spec root patterns :
  (∀ p, p ∈ patterns → length p = length root + 1 →
     ∃ globs last_part, p = (Glob <$> globs) ++ [last_part]) →
  ∀ acc,
    ∃ candidates,
      foldlM (fun candidates ignore_pattern =>
                if bool_decide (length ignore_pattern ≠ length root + 1)
                then Ok candidates
                else
                  matches ← directories_match fnmatch (reverse root) ignore_pattern;
                  if matches : bool then
                    match last ignore_pattern with
                    | Some pattern => Ok (candidates ++ [pattern])
                    | None => Raise "IndexError"
                    end
                  else Ok candidates)
        acc patterns = Ok (acc ++ candidates) ∧
      ∀ c, c ∈ candidates ↔ ∃ p, p ∈ patterns ∧ applies_in fnmatch root p c.
Proof.
  induction patterns as [|p patterns IH]; intros Hshape acc.
  - exists []. rewrite app_nil_r. split; [done|]. intros c. split.
    + by intros ?%elem_of_nil.
    + intros (p & Hp & _). by apply elem_of_nil in Hp.
  - cbn [foldlM].
    assert (∀ p', p' ∈ patterns → length p' = length root + 1 →
              ∃ globs last_part, p' = (Glob <$> globs) ++ [last_part]) as Hshape'.
    { intros p' Hp'. apply Hshape. by right. }
    case_bool_decide as Hlen.
    + rewrite JsonFacts.bind_Ok. destruct (IH Hshape' acc) as (cands & Hrun & Hc).
      exists cands. split; [done|]. intros c. rewrite Hc. split.
      * intros (p' & Hp' & Happ). exists p'. split; [by right|done].
      * intros (p' & [->|Hp']%elem_of_cons & Happ); [|by exists p'].
        apply applies_in_length in Happ. done.
    + destruct (Hshape p ltac:(left) Hlen) as (globs & last_part & ->).
      destruct (directories_match_spec (reverse root) globs last_part)
        as (b & Hrun & Hb).
      { rewrite length_app, length_fmap in Hlen. simpl in Hlen.
        rewrite length_reverse. lia. }
      rewrite Hrun, JsonFacts.bind_Ok. destruct b.
      * rewrite last_snoc, JsonFacts.bind_Ok.
        destruct (IH Hshape' (acc ++ [last_part])) as (cands & Hrun' & Hc).
        exists (last_part :: cands). rewrite <- app_assoc in Hrun'.
        split; [done|]. intros c. rewrite elem_of_cons, Hc. split.
        -- intros [->|(p' & Hp' & Happ)].
           ++ exists ((Glob <$> globs) ++ [last_part]). split; [left|].
              exists globs. split; [done|]. by apply Hb.
           ++ exists p'. split; [by right|done].
        -- intros (p' & [->|Hp']%elem_of_cons & Happ); [|right; by exists p'].
           left. apply applies_in_last in Happ. rewrite last_snoc in Happ.
           by injection Happ.
      * rewrite JsonFacts.bind_Ok. destruct (IH Hshape' acc) as (cands & Hrun' & Hc).
        exists cands. split; [done|]. intros c. rewrite Hc. split.
        -- intros (p' & Hp' & Happ). exists p'. split; [by right|done].
        -- intros (p' & [->|Hp']%elem_of_cons & Happ); [|by exists p'].
           destruct Happ as (globs' & Heq & Hall).
           apply app_inj_tail in Heq as [Heq _].
           assert (Inj (=) (=) Glob) as HGlob by (by intros ? ? [= ->]).
           apply (inj (fmap Glob)) in Heq as ->.
           destruct Hb as [_ Hb]. by specialize (Hb Hall).
Qed.

End exclusion_facts.
End ExclusionFacts.

(** X26: when a method is at most the last part of a pattern,
    [_get_excluded_filenames] returns the names, in their order, that some
    pattern ignores: a pattern that has one part for each directory of
    [root] and one more, whose parts match the directories from the
    outermost on, and whose last part matches the name. *)
Theorem excluded_filenames_characterised (fnmatch : string → string → bool)
    (configuration : list string) (root names : list string)
    (ignore_patterns : list (list pattern_part)) :
  (∀ p, p ∈ ignore_patterns → length p = length root + 1 →
     ∃ globs last_part, p = (Glob <$> globs) ++ [last_part]) →
  ∃ ignored_names,
    _get_excluded_filenames fnmatch configuration root names ignore_patterns
    = Ok ignored_names ∧
    ignored_names `sublist_of` names ∧
    ∀ filename,
      filename ∈ ignored_names ↔
      filename ∈ names ∧
      ∃ ignore_pattern last_part,
        ignore_pattern ∈ ignore_patterns ∧
        applies_in fnmatch root ignore_pattern last_part ∧
        _get_match_function fnmatch configuration last_part filename = true.
Proof.
  intros Hshape. unfold _get_excluded_filenames.
  destruct (ExclusionFacts.candidates_spec fnmatch root ignore_patterns Hshape [])
    as (candidates & Hrun & Hc).
  rewrite Hrun, JsonFacts.bind_Ok. simpl. case_bool_decide as Hlen.
  - exists []. split; [done|]. split; [apply sublist_nil_l|].
    apply length_zero_iff_nil in Hlen as ->.
    intros f. split; [by intros ?%elem_of_nil|].
    intros (_ & p & c & Hp & Happ & _).
    assert (c ∈ []) as Hin by (apply Hc; by exists p). by apply elem_of_nil in Hin.
  - eexists. split; [done|]. split; [apply sublist_filter|].
    intros f. rewrite list_elem_of_filter, existsb_exists. split.
    + intros [(c & Hin & Hm) Hf]. split; [done|].
      rewrite <- list_elem_of_In, Hc in Hin. destruct Hin as (p & Hp & Happ).
      by exists p, c.
    + intros (Hf & p & c & Hp & Happ & Hm). split; [|done].
      exists c. split; [|done]. rewrite <- list_elem_of_In, Hc. by exists p.
Qed.


(** [excluded_filenames_characterised] in the directory [default], with
    three of the patterns. *)
Lemma excluded_filenames_characterised_witness :
  _get_excluded_filenames Example.fnmatch_conf [] ["default"]
    ["app.conf"; "data"; "inputs.conf"]
    [[Glob "default"; Glob "*.conf"]; [Glob "README"; ExcludeConfSpec];
     [Glob "lookups"]]
  = Ok ["app.conf"; "inputs.conf"].
Proof.
  destruct (excluded_filenames_characterised Example.fnmatch_conf [] ["default"]
              ["app.conf"; "data"; "inputs.conf"]
              [[Glob "default"; Glob "*.conf"]; [Glob "README"; ExcludeConfSpec];
               [Glob "lookups"]]) as (ignored & Hrun & _).
  - intros p Hp _. repeat (apply elem_of_cons in Hp as [->|Hp]).
    + by exists ["default"], (Glob "*.conf").
    + by exists ["README"], ExcludeConfSpec.
    + by exists [], (Glob "lookups").
    + by apply elem_of_nil in Hp.
  - rewrite Hrun. f_equal.
    assert (_get_excluded_filenames Example.fnmatch_conf [] ["default"]
              ["app.conf"; "data"; "inputs.conf"]
              [[Glob "default"; Glob "*.conf"]; [Glob "README"; ExcludeConfSpec];
               [Glob "lookups"]]
            = Ok ["app.conf"; "inputs.conf"]) as Hvalue
      by (vm_compute; reflexivity).
    rewrite Hrun in Hvalue. by injection Hvalue.
Defined.

(** ** Recursion over cyclic dependencies *)

Module CyclicFacts.

Section cyclic_facts.
Context `{VersionConstraint} (heap : ref → AppSource).
Variable W : World.

Lemma reaches_cycle_step a :
  reaches_cycle W a → ∃ b, lists_dependency W a b ∧ reaches_cycle W b.
Proof.
  intros (c & Hac & Hcc). inversion Hac as [|? b ? Hab Hbc]; subst.
  - inversion Hcc as [? ? Hab|? b ? Hab Hbc]; subst.
    + exists c. split; [done|]. by exists c.
    + exists b. split; [done|]. exists c. split; [by apply tc_rtc|done].
  - exists b. split; [done|]. by exists c.
Qed.

Lemma describe_loop_not_Ok describe level deps out y dependency :
  (dependency, y) ∈ deps →
  (∀ level text, describe y level ≠ Ok text) →
  ∀ text, _describe_loop heap describe level deps out ≠ Ok text.
Proof.
  revert out. induction deps as [|[d0 y0] deps IH]; intros out Hin Hy text.
  - by apply elem_of_nil in Hin.
  - cbn [_describe_loop]. destruct (describe y0 (level + 1)) as [sub| |] eqn:Hsub;
      simpl; try done.
    apply elem_of_cons in Hin as [[= <- <-]|Hin].
    + by destruct (Hy (level + 1) sub).
    + by apply IH.
Qed.

Lemma describe_not_Ok fuel :
  ∀ a level text, reaches_cycle W a → _describe heap fuel W a level ≠ Ok text.
Proof.
  induction fuel as [|fuel IH]; intros a level text Ha; [done|].
  cbn [_describe]. apply reaches_cycle_step in Ha as (b & (l & d & Hl & Hb) & Hcyc).
  unfold source_dependencies_of. rewrite Hl. rewrite JsonFacts.bind_Ok.
  apply (describe_loop_not_Ok _ _ _ _ b d Hb).
  intros level' text'. by apply IH.
Qed.

Lemma specifications_loop_not_Ok recurse spec req deps y dependency :
  (dependency, y) ∈ deps →
  (∀ s r r', recurse y s r ≠ Ok r') →
  ∀ r r', specifications_loop recurse spec req deps r ≠ Ok r'.
Proof.
  induction deps as [|[d0 y0] deps IH]; intros Hin Hy r r'.
  - by apply elem_of_nil in Hin.
  - cbn [specifications_loop].
    destruct (dependency_specification spec req y0 r) as [s| |]; simpl; try done.
    destruct (recurse y0 s r) as [r1| |] eqn:Hrec; simpl; try done.
    apply elem_of_cons in Hin as [[= <- <-]|Hin].
    + by destruct (Hy s r r1).
    + by apply IH.
Qed.

Lemma specifications_not_Ok G fuel :
  ∀ a s r r', reaches_cycle W a →
    _get_deployment_specifications heap fuel G W a s r ≠ Ok r'.
Proof.
  induction fuel as [|fuel IH]; intros a s r r' Ha; [done|].
  cbn [_get_deployment_specifications].
  apply reaches_cycle_step in Ha as (b & (l & d & Hl & Hb) & Hcyc).
  destruct (requirements_of heap G a s) as [req| |]; simpl; try done.
  unfold source_dependencies_of. rewrite Hl. rewrite JsonFacts.bind_Ok.
  apply (specifications_loop_not_Ok _ _ _ _ b d Hb).
  intros s' r1 r2. by apply IH.
Qed.

End cyclic_facts.
End CyclicFacts.

(** X27: when the root reaches a source that depends on itself, neither
    [description], on its first use, nor [get_deployment_specifications],
    for a specification with input groups other than the wildcard, ever
    returns: no fuel lets the recursion of [_describe] and of
    [_get_deployment_specifications] come to an end. *)
Theorem recursion_over_cycle_never_returns `{VersionConstraint}
    (heap : ref → AppSource) (G : AppDependencyGraph) (W : World) (fuel : nat)
    (deployment_specification : AppDeploymentSpecification)
    (input_groups : gset string) :
  reaches_cycle W (_root G) →
  (_description G = None → ∀ result, description heap fuel G W ≠ Ok result) ∧
  (inputGroups deployment_specification = Some input_groups →
   input_groups ≠ all_input_groups →
   ∀ result,
     get_deployment_specifications heap fuel G W deployment_specification
     ≠ Ok result).
Proof.
  intros Hcyc. split.
  - intros Hnone result. unfold description. rewrite Hnone.
    destruct (_describe heap fuel W (_root G) 1) as [text| |] eqn:Hd; try done.
    by destruct (CyclicFacts.describe_not_Ok heap W fuel (_root G) 1 text).
  - intros Hg Hne result. unfold get_deployment_specifications.
    rewrite Hg, bool_decide_eq_false_2 by done.
    by apply CyclicFacts.specifications_not_Ok.
Qed.

(** [recursion_over_cycle_never_returns] on two sources that depend on each
    other. *)
Lemma recursion_over_cycle_never_returns_witness :
  (∀ result,
     description Example.heap 50 Example.cyclic_graph Example.cyclic_world
     ≠ Ok result) ∧
  (∀ result,
     get_deployment_specifications Example.heap 50 Example.cyclic_graph
       Example.cyclic_world Example.windows_forwarders ≠ Ok result).
Proof.
  assert (lists_dependency Example.cyclic_world "A" "B") as HAB.
  { eexists _, _. split; [vm_compute; reflexivity|left]. }
  assert (lists_dependency Example.cyclic_world "B" "A") as HBA.
  { eexists _, _. split; [vm_compute; reflexivity|left]. }
  destruct (recursion_over_cycle_never_returns Example.heap Example.cyclic_graph
              Example.cyclic_world 50 Example.windows_forwarders {["windows"]})
    as [Hdescription Hspecifications].
  - exists "A". split; [done|]. eapply tc_l; [exact HAB|]. by apply tc_once.
  - split.
    + by apply Hdescription.
    + apply Hspecifications; [done|].
      apply (bool_decide_unpack _). by vm_compute.
Defined.

(** ** Propagation of deployment specifications: what the recursion reaches *)

Module PropagationFacts.
Import OrderedDict OrderedDictFacts SpecificationFacts.

Lemma foldlM_returns {A B} (f : B → A → outcome B) l :
  (∀ b a, a ∈ l → ∃ b', f b a = Ok b') →
  ∀ b, ∃ b', foldlM f b l = Ok b'.
Proof.
  induction l as [|a l IH]; intros Hstep b; simpl; [by eexists|].
  destruct (Hstep b a) as [b1 Hb1]; [left|]. rewrite Hb1. simpl.
  apply IH. intros ? ? ?. apply Hstep. by right.
Qed.

Section propagation.
Context `{VersionConstraint} (heap : ref → AppSource).
Variables (G : AppDependencyGraph) (W : World).

Lemma add_requirement_returns a declared aliases req alias :
  alias ∈ keys aliases →
  requirement_resolves G a declared alias = true →
  ∃ req', add_requirement G a declared aliases req alias = Ok req'.
Proof.
  intros Hal%get_is_Some Hres. unfold add_requirement.
  destruct Hal as [r ->]. simpl. unfold requirement_resolves in Hres.
  destruct declared as [ds|]; [|done]. simpl.
  destruct (get alias ds) as [dep|]; [|done]. simpl.
  destruct (package dep) as [p|]; [|done]. simpl.
  destruct (_repository_sources G !! p) as [d|]; [|done]. simpl.
  destruct (get a (_graph G)) as [ns|]; [|done]. simpl.
  rewrite Hres. by eexists.
Qed.

Lemma requirements_of_returns a spec :
  is_Some (inputGroups spec) →
  requirements_resolve heap G a = true →
  ∃ req, requirements_of heap G a spec = Ok req.
Proof.
  intros [names Hnames] Hres. unfold requirements_of, requirements_resolve in *.
  destruct (manifest (heap a)) as [m|]; [|done].
  destruct (manifest_inputGroups m) as [igs|]; [|by eexists].
  rewrite Hnames. apply foldlM_returns. intros req gn _.
  unfold add_group_requirements.
  destruct (get gn igs) as [group|] eqn:Hgroup; [|by eexists].
  destruct (requires group) as [aliases|] eqn:Haliases; [|by eexists].
  apply get_Some_elem in Hgroup.
  rewrite forallb_forall in Hres.
  specialize (Hres (gn, group)). simpl in Hres. rewrite Haliases in Hres.
  assert (forallb (requirement_resolves G a (dependencies m)) (keys aliases) = true)
    as Hall by (apply Hres; by apply list_elem_of_In).
  rewrite forallb_forall in Hall.
  apply foldlM_returns. intros req' alias Halias.
  apply add_requirement_returns; [done|]. by apply Hall, list_elem_of_In.
Qed.

Lemma dependency_specification_returns spec req d
    (st : list (ref * AppDeploymentSpecification)) :
  (∀ k s, get k st = Some s → is_Some (inputGroups s)) →
  ∃ ds, dependency_specification spec req d st = Ok ds ∧ is_Some (inputGroups ds).
Proof.
  intros Hst. unfold dependency_specification.
  destruct (get d st) as [previous|] eqn:Hprev; simpl.
  - destruct (Hst d previous Hprev) as [groups ->]. simpl. by eexists.
  - by eexists.
Qed.

Lemma loop_returns recurse spec req deps :
  (∀ dep d s st, (dep, d) ∈ deps → is_Some (inputGroups s) →
     (∀ k s', get k st = Some s' → is_Some (inputGroups s')) →
     ∃ st', recurse d s st = Ok st' ∧
            ∀ k s', get k st' = Some s' → is_Some (inputGroups s')) →
  ∀ st, (∀ k s', get k st = Some s' → is_Some (inputGroups s')) →
    ∃ st', specifications_loop recurse spec req deps st = Ok st' ∧
           ∀ k s', get k st' = Some s' → is_Some (inputGroups s').
Proof.
  induction deps as [|[dep d] deps IH]; intros Hrec st Hst; simpl; [by eexists|].
  destruct (dependency_specification_returns spec req d st Hst) as (ds & -> & Hds).
  simpl. destruct (Hrec dep d ds st) as (st1 & -> & Hst1); [left|done..|].
  simpl. apply IH; [|done]. intros dep' d' s' st' Hin. apply (Hrec dep'). by right.
Qed.

Lemma specifications_return rank :
  ranked W rank → propagation_ready heap G W →
  ∀ fuel a spec st,
    rank a < fuel → rtc (lists_dependency W) (_root G) a →
    is_Some (inputGroups spec) →
    (∀ k s, get k st = Some s → is_Some (inputGroups s)) →
    ∃ st', _get_deployment_specifications heap fuel G W a spec st = Ok st' ∧
           ∀ k s, get k st' = Some s → is_Some (inputGroups s).
Proof.
  intros Hrank Hready fuel.
  induction fuel as [|fuel IH]; intros a spec st Hlt Hreach Hspec Hst; [lia|].
  cbn [_get_deployment_specifications].
  destruct (Hready a Hreach) as [[deps Hdeps] Hres].
  destruct (requirements_of_returns a spec Hspec Hres) as [req ->]. simpl.
  unfold source_dependencies_of. rewrite Hdeps. simpl.
  apply loop_returns.
  - intros dep d s st0 Hin Hs Hst0. apply IH; [|  |done..].
    + specialize (Hrank a deps dep d Hdeps Hin). lia.
    + eapply rtc_r; [done|]. by exists deps, dep.
  - intros k s. destruct (decide (a = k)) as [->|Hne].
    + rewrite get_set_eq. by intros [= <-].
    + rewrite get_set_ne by done. apply Hst.
Qed.

(** What a call that returns has done to the result and to the recorded
    calls: the keys it adds are the sources that [a] reaches, every entry
    of the result is a recorded call, and the calls it records are on
    sources that [a] reaches. *)
Lemma loop_reaches recurse spec req deps :
  (∀ d s st st', recurse d s st = Ok st' →
     (∀ k, k ∈ keys st'.1 ↔ k ∈ keys st.1 ∨ rtc (lists_dependency W) d k) ∧
     ((∀ k s', get k st.1 = Some s' → (k, s') ∈ st.2) →
      ∀ k s', get k st'.1 = Some s' → (k, s') ∈ st'.2) ∧
     (∀ c, c ∈ st'.2 → c ∈ st.2 ∨ rtc (lists_dependency W) d c.1)) →
  ∀ st st', specifications_loop_traced recurse spec req deps st = Ok st' →
    (∀ k, k ∈ keys st'.1 ↔
          k ∈ keys st.1 ∨ ∃ dep d, (dep, d) ∈ deps ∧ rtc (lists_dependency W) d k) ∧
    ((∀ k s', get k st.1 = Some s' → (k, s') ∈ st.2) →
     ∀ k s', get k st'.1 = Some s' → (k, s') ∈ st'.2) ∧
    (∀ c, c ∈ st'.2 →
          c ∈ st.2 ∨ ∃ dep d, (dep, d) ∈ deps ∧ rtc (lists_dependency W) d c.1).
Proof.
  intros Hrec. induction deps as [|[dep d] deps IH]; intros st st'; simpl.
  - intros [= <-]. split_and!; [|done|by left].
    intros k. split; [by left|]. intros [?|(? & ? & ?%elem_of_nil & _)]; done.
  - destruct (dependency_specification spec req d st.1) as [ds| |]; simpl; try done.
    destruct (recurse d ds st) as [st1| |] eqn:Hcall; simpl; try done.
    intros Hloop. destruct (Hrec _ _ _ _ Hcall) as (Hk1 & He1 & Hc1).
    destruct (IH _ _ Hloop) as (Hk & He & Hc). split_and!.
    + intros k. rewrite Hk, Hk1. split.
      * intros [[?|?]|(dep' & d' & ? & ?)]; [by left| |].
        -- right. exists dep, d. split; [left|done].
        -- right. exists dep', d'. split; [by right|done].
      * intros [?|(dep' & d' & [[= -> ->]|?]%elem_of_cons & ?)].
        -- by left; left.
        -- by left; right.
        -- right. by exists dep', d'.
    + intros Hst. by apply He, He1.
    + intros c [[?|?]%Hc1|(dep' & d' & ? & ?)]%Hc.
      * by left.
      * right. exists dep, d. split; [left|done].
      * right. exists dep', d'. split; [by right|done].
Qed.

Lemma traced_reaches fuel :
  ∀ a spec st st',
    _get_deployment_specifications_traced heap fuel G W a spec st = Ok st' →
    (∀ k, k ∈ keys st'.1 ↔ k ∈ keys st.1 ∨ rtc (lists_dependency W) a k) ∧
    ((∀ k s', get k st.1 = Some s' → (k, s') ∈ st.2) →
     ∀ k s', get k st'.1 = Some s' → (k, s') ∈ st'.2) ∧
    (∀ c, c ∈ st'.2 → c ∈ st.2 ∨ rtc (lists_dependency W) a c.1).
Proof.
  induction fuel as [|fuel IH]; intros a spec st st'; [done|].
  cbn [_get_deployment_specifications_traced].
  destruct (requirements_of heap G a spec) as [req| |]; simpl; try done.
  unfold source_dependencies_of.
  destruct (source_dependencies W !! a) as [deps|] eqn:Hdeps; simpl; [|done].
  intros Hloop. apply (loop_reaches _ _ _ _ IH) in Hloop as (Hk & He & Hc).
  simpl in *.
  assert (∀ k, rtc (lists_dependency W) a k ↔
               k = a ∨ ∃ dep d, (dep, d) ∈ deps ∧ rtc (lists_dependency W) d k)
    as Hreach.
  { intros k. split.
    - intros Hr. apply rtc_inv in Hr as [->|(b & (l & dep & Hl & Hin) & Hr)];
        [by left|].
      right. exists dep, b. split; [congruence|done].
    - intros [->|(dep & d & Hin & Hr)]; [done|].
      eapply rtc_l; [|done]. by exists deps, dep. }
  split_and!.
  - intros k. rewrite Hk, elem_of_keys_set, Hreach. tauto.
  - intros Hst. apply He. intros k s'. destruct (decide (a = k)) as [->|Hne].
    + rewrite get_set_eq. intros [= <-]. apply elem_of_app. right. left.
    + rewrite get_set_ne by done. intros Hget. apply elem_of_app. left. by apply Hst.
  - intros c [[?| ->%list_elem_of_singleton]%elem_of_app|Hr]%Hc.
    + by left.
    + by right.
    + right. apply Hreach. by right.
Qed.

Lemma ready_check sources :
  propagation_readyb heap G W sources = true → propagation_ready heap G W.
Proof.
  unfold propagation_readyb. intros [Hroot%bool_decide_eq_true Hall]%andb_true_iff.
  rewrite forallb_forall in Hall.
  assert (∀ a, a ∈ sources →
            ∃ l, source_dependencies W !! a = Some l ∧
                 requirements_resolve heap G a = true ∧
                 ∀ dep d, (dep, d) ∈ l → d ∈ sources) as Hsources.
  { intros a Ha%list_elem_of_In. specialize (Hall a Ha).
    destruct (source_dependencies W !! a) as [l|]; [|done].
    apply andb_true_iff in Hall as [Hres Hl]. exists l. split_and!; [done..|].
    rewrite forallb_forall in Hl. intros dep d Hin%list_elem_of_In.
    by apply Hl, bool_decide_eq_true in Hin. }
  assert (∀ a, rtc (lists_dependency W) (_root G) a → a ∈ sources) as Hclosed.
  { apply (rtc_ind_r (R := lists_dependency W) (fun a => a ∈ sources) (_root G));
      [done|].
    intros a b _ (l & dep & Hl & Hin) Ha.
    destruct (Hsources a Ha) as (l' & Hl' & _ & Hdeps).
    apply (Hdeps dep). congruence. }
  intros a Ha%Hclosed. destruct (Hsources a Ha) as (l & -> & Hres & _).
  by split.
Qed.

End propagation.
End PropagationFacts.

(** C3: for a specification with specific input groups, the call returns a
    result when the dependencies are acyclic and the requirements of the
    sources that the root reaches resolve. Whenever it returns, the keys of
    the result are the sources that the root reaches, and every such source
    other than the root that no input group active in any call of the
    recursion requires is assigned [no_input_groups], and so never
    [all_input_groups]. The calls are those of
    [_get_deployment_specifications_traced], which returns the same result;
    they are calls on sources that the root reaches, and every entry of the
    result is one of them. *)
Theorem unrequired_dependency_gets_no_input_groups `{VersionConstraint}
    (heap : ref → AppSource) (fuel : nat) (G : AppDependencyGraph) (W : World)
    (deployment_specification : AppDeploymentSpecification)
    (names : gset string) :
  inputGroups deployment_specification = Some names →
  names ≠ all_input_groups →
  (∀ rank, ranked W rank → rank (_root G) < fuel → propagation_ready heap G W →
     ∃ result,
       get_deployment_specifications heap fuel G W deployment_specification
       = Ok result) ∧
  ∀ result,
    get_deployment_specifications heap fuel G W deployment_specification
    = Ok result →
    ∃ calls,
      _get_deployment_specifications_traced heap fuel G W (_root G)
        deployment_specification ([], []) = Ok (result, calls) ∧
      (∀ source, source ∈ OrderedDict.keys result ↔
                 rtc (lists_dependency W) (_root G) source) ∧
      (∀ source specification,
         (source, specification) ∈ calls →
         rtc (lists_dependency W) (_root G) source) ∧
      (∀ source specification,
         OrderedDict.get source result = Some specification →
         (source, specification) ∈ calls) ∧
      ∀ dependency_source,
        rtc (lists_dependency W) (_root G) dependency_source →
        dependency_source ≠ _root G →
        required_in_calls heap G calls dependency_source = false →
        ∃ specification,
          OrderedDict.get dependency_source result = Some specification ∧
          inputGroups specification = Some no_input_groups ∧
          inputGroups specification ≠ Some all_input_groups.
Proof.
  intros Hnames Hne. unfold get_deployment_specifications.
  rewrite Hnames, bool_decide_false by done. split.
  - intros rank Hrank Hlt Hready.
    destruct (PropagationFacts.specifications_return heap G W rank Hrank Hready
                fuel (_root G) deployment_specification []) as (result & Hrun & _);
      [done|done|by rewrite Hnames|done|].
    by exists result.
  - intros result.
    pose proof (SpecificationFacts.erase_traced heap G W fuel (_root G)
                  deployment_specification ([], [])) as He.
    simpl in He. rewrite <- He.
    destruct (_get_deployment_specifications_traced _ _ _ _ _ _ _)
      as [[result' calls]| |] eqn:Hrun; simpl; try done.
    intros [= ->]. exists calls. split; [done|].
    destruct (PropagationFacts.traced_reaches heap G W fuel _ _ _ _ Hrun)
      as (Hkeys & Hentries & Hcalls). simpl in *.
    pose proof (SpecificationFacts.traced_inv heap G W fuel (_root G)
                  deployment_specification ([], [])) as Hpost.
    destruct (Hpost _ Hrun) as [Hinv _]; [by intros d s _ Hget|done|].
    split_and!.
    + intros source. rewrite Hkeys. split; [|by right].
      by intros [?%elem_of_nil|?].
    + intros source specification [?%elem_of_nil|?]%Hcalls; done.
    + by apply Hentries.
    + intros d Hreach Hd Hreq.
      assert (d ∈ OrderedDict.keys result) as Hin by (apply Hkeys; by right).
      apply OrderedDictFacts.get_is_Some in Hin as [s Hget].
      exists s. split; [done|]. rewrite (Hinv d s Hd Hget Hreq).
      split; [done|]. intros Hbad. apply (inj Some) in Hbad.
      assert ("*" ∈ no_input_groups) as Hstar
        by (rewrite Hbad; apply elem_of_singleton_2; done).
      by apply not_elem_of_empty in Hstar.
Qed.

(** [unrequired_dependency_gets_no_input_groups] on the example
    repository: the call returns, and [b], which the root reaches and no
    active group requires, holds no input groups. *)
Lemma unrequired_dependency_witness :
  get_deployment_specifications Example.heap 10 Example.graph Example.world
    Example.windows_forwarders = Ok Example.windows_result ∧
  required_in_calls Example.heap Example.graph Example.windows_calls "b" = false ∧
  OrderedDict.get "b" Example.windows_result = Some (Example.forwarders_with ∅) ∧
  inputGroups (Example.forwarders_with ∅) = Some no_input_groups.
Proof.
  destruct (unrequired_dependency_gets_no_input_groups Example.heap 10
              Example.graph Example.world Example.windows_forwarders
              {["windows"]} eq_refl) as [Hreturns Hall].
  { apply (bool_decide_unpack _). by vm_compute. }
  destruct (Hreturns Example.rank) as [result Hrun].
  { apply DescriptionFacts.ranked_check. vm_compute. reflexivity. }
  { vm_compute. lia. }
  { apply (PropagationFacts.ready_check _ _ _ ["app"; "a"; "b"; "c"]).
    vm_compute. reflexivity. }
  destruct (Hall result Hrun) as (calls & Hcalls & _ & _ & _ & Hnone).
  assert (result = Example.windows_result ∧ calls = Example.windows_calls)
    as [-> ->].
  { assert (_get_deployment_specifications_traced Example.heap 10 Example.graph
              Example.world (_root Example.graph) Example.windows_forwarders
              ([], []) = Ok (Example.windows_result, Example.windows_calls)) as Ht
      by (vm_compute; reflexivity).
    rewrite Ht in Hcalls. injection Hcalls as Hresult Hrecorded.
    split; symmetry; assumption. }
  split; [exact Hrun|]. split; [vm_compute; reflexivity|].
  destruct (Hnone "b") as (specification & Hget & Hgroups & _).
  - apply rtc_once. eexists _, _. split; [vm_compute; reflexivity|].
    right; left.
  - apply (bool_decide_unpack _). by vm_compute.
  - vm_compute; reflexivity.
  - assert (OrderedDict.get "b" Example.windows_result
            = Some (Example.forwarders_with ∅)) as Hb by (vm_compute; reflexivity).
    split; [exact Hb|].
    assert (Some specification = Some (Example.forwarders_with ∅)) as Hsame
      by (rewrite <- Hget; vm_compute; reflexivity).
    injection Hsame as <-. exact Hgroups.
Defined.
